(** * Screenplay structural parser ([src/lib/pdfscript.cjs])

    A shallow embedding of [FilmScriptAnalyzer]: the line loop of
    [parseScreenplay], the two heading extractors, the interaction pass and
    the result bundle of [runCompleteAnalysis], together with the part of the
    JavaScript string and regular-expression semantics those functions use.

    JavaScript strings are sequences of UTF-16 code units; they are modelled
    as [list N].  [Map] and [Set] keep insertion order, which the outputs
    expose, so they are association lists and duplicate-free lists. *)

From Stdlib Require Import String Ascii.
From Stdlib Require Import List NArith Arith Bool Lia Permutation Sorted.
From Stdlib Require Import DecimalPos DecimalN.
Import ListNotations.

(* ================================================================== *)
(** ** JavaScript strings *)
(* ================================================================== *)

Module JS.

Definition str := list N.

(** An ASCII literal of the source as a sequence of code units. *)
Fixpoint lit (s : string) : str :=
  match s with
  | EmptyString => []
  | String a r => N_of_ascii a :: lit r
  end.

Definition str_eqb (a b : str) : bool :=
  if list_eq_dec N.eq_dec a b then true else false.

(** ECMAScript LineTerminator: LF, CR, LS, PS. *)
Definition isLineTerminator (c : N) : bool :=
  ((c =? 10) || (c =? 13) || (c =? 8232) || (c =? 8233))%N.

(** ECMAScript WhiteSpace plus LineTerminator: what [trim] strips and what
    the class escape [\s] matches. *)
Definition isSpace (c : N) : bool :=
  ((c =? 9) || (c =? 11) || (c =? 12) || (c =? 32) || (c =? 160)
   || (c =? 5760) || ((8192 <=? c) && (c <=? 8202)) || (c =? 8239)
   || (c =? 8287) || (c =? 12288) || (c =? 65279))%N
  || isLineTerminator c.

Definition isDigit (c : N) : bool := ((48 <=? c) && (c <=? 57))%N.

(** [\w] without the unicode flag. *)
Definition isWordChar (c : N) : bool :=
  (((65 <=? c) && (c <=? 90)) || ((97 <=? c) && (c <=? 122))
   || isDigit c || (c =? 95))%N.

Fixpoint trimStart (s : str) : str :=
  match s with
  | c :: r => if isSpace c then trimStart r else s
  | [] => []
  end.

Definition trimEnd (s : str) : str := rev (trimStart (rev s)).

(** [String.prototype.trim]. *)
Definition trim (s : str) : str := trimEnd (trimStart s).

(** [s.includes(c)] for a one-unit needle. *)
Definition includes (c : N) (s : str) : bool := existsb (N.eqb c) s.

(** [arr.includes(x)] on an array of strings. *)
Definition arr_includes (x : str) (l : list str) : bool := existsb (str_eqb x) l.

(** [text.split(sep)] for a one-unit separator: always at least one piece. *)
Fixpoint split (sep : N) (s : str) : list str :=
  match s with
  | [] => [[]]
  | c :: r =>
      if (c =? sep)%N then [] :: split sep r
      else match split sep r with
           | p :: ps => (c :: p) :: ps
           | [] => [[c]]
           end
  end.

(** [arr.join(sep)]. *)
Fixpoint join (sep : str) (l : list str) : str :=
  match l with
  | [] => []
  | [x] => x
  | x :: r => x ++ sep ++ join sep r
  end.

(** Strict [<] on strings: lexicographic on code units. *)
Fixpoint ltb (a b : str) : bool :=
  match a, b with
  | [], [] => false
  | [], _ :: _ => true
  | _ :: _, [] => false
  | x :: a', y :: b' =>
      if (x <? y)%N then true
      else if (y <? x)%N then false
      else ltb a' b'
  end.

(** [arr.sort()] with the default comparator.  The order is total on
    strings and elements that compare equal are the same string, so every
    sorting algorithm gives the same array; an insertion sort is used. *)
Fixpoint insert (x : str) (l : list str) : list str :=
  match l with
  | [] => [x]
  | y :: r => if ltb y x then y :: insert x r else x :: l
  end.

Fixpoint sort (l : list str) : list str :=
  match l with
  | [] => []
  | x :: r => insert x (sort r)
  end.

(** A [Set] keeps the first insertion of each value. *)
Definition set_add (x : str) (s : list str) : list str :=
  if arr_includes x s then s else s ++ [x].

(** [[...new Set(arr)]]. *)
Definition dedup (l : list str) : list str :=
  fold_left (fun acc x => set_add x acc) l [].

(** Truthiness of a string value. *)
Definition truthy (s : str) : bool :=
  match s with [] => false | _ :: _ => true end.

(** [toUpperCase] on code units below 128 (other units are left alone; the
    one call site applies it to text matched against ASCII literals). *)
Definition upper (c : N) : N :=
  if ((97 <=? c) && (c <=? 122))%N then (c - 32)%N else c.

Definition toUpperCase (s : str) : str := map upper s.

End JS.

(* ================================================================== *)
(** ** Regular expressions *)
(* ================================================================== *)

(** The backtracking matcher of ECMAScript restricted to the constructs the
    source uses: literals and classes, quantified classes (greedy or lazy,
    bounded or not), an optional group, alternation, capture groups, [^],
    [$] (no multiline flag) and [\b]; with or without the [i] flag. *)

Module Re.

Import JS.

Inductive citem : Type :=
| CLit (c : N)            (* a literal unit *)
| CRange (lo hi : N)      (* lo-hi inside a class *)
| CSpace                  (* \s *)
| CDigit                  (* \d *)
| CDot.                   (* . *)

Definition cset := list citem.

(** Canonicalize of the [i] flag (no unicode flag).  A unit of 128 or more
    never canonicalizes to a unit below 128, and no unit canonicalizes to the
    en dash but itself; every literal of the patterns below is ASCII or the
    en dash, so upper-casing the ASCII letters decides every comparison. *)
Definition canon (ic : bool) (c : N) : N := if ic then upper c else c.

Definition item_mem (ic : bool) (c : N) (it : citem) : bool :=
  match it with
  | CLit p => (canon ic c =? canon ic p)%N
  | CRange lo hi =>
      ((lo <=? c) && (c <=? hi))%N
      || (ic && (((lo <=? upper c) && (upper c <=? hi))%N
                 || ((65 <=? c) && (c <=? 90) && (lo <=? c + 32) && (c + 32 <=? hi))%N))
  | CSpace => isSpace c
  | CDigit => isDigit c
  | CDot => negb (isLineTerminator c)
  end.

Definition mem (ic : bool) (cs : cset) (c : N) : bool :=
  existsb (item_mem ic c) cs.

Inductive regex : Type :=
| Eps
| Chr (cs : cset)
| Rep (cs : cset) (lo : nat) (hi : option nat) (greedy : bool)
| Seq (r1 r2 : regex)
| Alt (r1 r2 : regex)
| Opt (r : regex)
| Grp (i : nat) (r : regex)
| Bol
| Eol
| WordB.

(** A matcher state: the units already passed (latest first), the units
    ahead, and the captures recorded so far (latest first). *)
Record mstate : Type := MState {
  pre : str;
  post : str;
  caps : list (nat * str)
}.

Definition below (hi : option nat) (n : nat) : bool :=
  match hi with None => true | Some h => n <? h end.

Section Matcher.

Variable ic : bool.

(** [cs{lo,hi}], greedy: take as many units as allowed, give back one at a
    time. *)
Fixpoint rep_greedy (cs : cset) (lo : nat) (hi : option nat) (n : nat)
    (p q : str) (k : str -> str -> option mstate) : option mstate :=
  let stop := if lo <=? n then k p q else None in
  match q with
  | c :: t =>
      if mem ic cs c && below hi n then
        match rep_greedy cs lo hi (S n) (c :: p) t k with
        | Some r => Some r
        | None => stop
        end
      else stop
  | [] => stop
  end.

(** [cs{lo,hi}?], lazy: stop as soon as allowed, take one more unit only
    when the rest fails. *)
Fixpoint rep_lazy (cs : cset) (lo : nat) (hi : option nat) (n : nat)
    (p q : str) (k : str -> str -> option mstate) : option mstate :=
  let more :=
    match q with
    | c :: t =>
        if mem ic cs c && below hi n
        then rep_lazy cs lo hi (S n) (c :: p) t k else None
    | [] => None
    end in
  if lo <=? n then
    match k p q with
    | Some r => Some r
    | None => more
    end
  else more.

Definition at_word (o : option N) : bool :=
  match o with Some c => isWordChar c | None => false end.

Fixpoint rmatch (r : regex) (st : mstate) (k : mstate -> option mstate)
    : option mstate :=
  match r with
  | Eps => k st
  | Chr cs =>
      match post st with
      | c :: t => if mem ic cs c then k (MState (c :: pre st) t (caps st)) else None
      | [] => None
      end
  | Rep cs lo hi g =>
      (if g then rep_greedy else rep_lazy) cs lo hi 0 (pre st) (post st)
        (fun p q => k (MState p q (caps st)))
  | Seq a b => rmatch a st (fun st' => rmatch b st' k)
  | Alt a b =>
      match rmatch a st k with
      | Some x => Some x
      | None => rmatch b st k
      end
  | Opt a =>
      match rmatch a st k with
      | Some x => Some x
      | None => k st
      end
  | Grp i a =>
      rmatch a st (fun st' =>
        k (MState (pre st') (post st')
             ((i, firstn (length (post st) - length (post st')) (post st))
                :: caps st')))
  | Bol => match pre st with [] => k st | _ :: _ => None end
  | Eol => match post st with [] => k st | _ :: _ => None end
  | WordB =>
      if xorb (at_word (hd_error (pre st))) (at_word (hd_error (post st)))
      then k st else None
  end.

(** Try every start position from the left, the end of the string included.
    The result is the state at the start of the match and the one at its
    end. *)
Fixpoint search (r : regex) (p q : str) : option (mstate * mstate) :=
  match rmatch r (MState p q []) Some with
  | Some st => Some (MState p q [], st)
  | None =>
      match q with
      | c :: t => search r (c :: p) t
      | [] => None
      end
  end.

End Matcher.

(** [re.exec(s)] / [s.match(re)] for a non-global expression. *)
Definition exec (ic : bool) (r : regex) (s : str) : option (mstate * mstate) :=
  search ic r [] s.

(** [re.test(s)]. *)
Definition test (ic : bool) (r : regex) (s : str) : bool :=
  match exec ic r s with Some _ => true | None => false end.

(** [m[i]] for a group that took part in the match. *)
Fixpoint lookup (i : nat) (l : list (nat * str)) : option str :=
  match l with
  | [] => None
  | (j, w) :: r => if i =? j then Some w else lookup i r
  end.

Definition group (i : nat) (m : mstate * mstate) : option str :=
  lookup i (caps (snd m)).

(** [s.replace(re, by)] for a non-global expression: the first match only. *)
Definition replace (ic : bool) (r : regex) (by_ : str) (s : str) : str :=
  match exec ic r s with
  | Some (st0, st1) => rev (pre st0) ++ by_ ++ post st1
  | None => s
  end.

(** [s.replace(re, by)] with the [g] flag: matches are taken left to right,
    each search resuming where the last match ended (one unit further after
    an empty match).  [fuel] bounds the number of matches. *)
Fixpoint replace_all_from (fuel : nat) (ic : bool) (r : regex) (by_ : str)
    (p q : str) : str :=
  match fuel with
  | O => q
  | S fuel' =>
      match search ic r p q with
      | None => q
      | Some (st0, st1) =>
          let skipped := firstn (length q - length (post st0)) q in
          if length (post st0) =? length (post st1) then
            match post st1 with
            | c :: t =>
                skipped ++ by_ ++ c :: replace_all_from fuel' ic r by_ (c :: pre st1) t
            | [] => skipped ++ by_
            end
          else skipped ++ by_ ++ replace_all_from fuel' ic r by_ (pre st1) (post st1)
      end
  end.

Definition replace_all (ic : bool) (r : regex) (by_ : str) (s : str) : str :=
  replace_all_from (S (length s)) ic r by_ [] s.

(** Pattern-building shorthands. *)
Definition ch (a : ascii) : regex := Chr [CLit (N_of_ascii a)].

Fixpoint word (s : string) : regex :=
  match s with
  | EmptyString => Eps
  | String a EmptyString => ch a
  | String a r => Seq (ch a) (word r)
  end.

Fixpoint alts (l : list regex) : regex :=
  match l with
  | [] => Eps
  | [r] => r
  | r :: l' => Alt r (alts l')
  end.

Fixpoint seqs (l : list regex) : regex :=
  match l with
  | [] => Eps
  | [r] => r
  | r :: l' => Seq r (seqs l')
  end.

Definition plus (cs : cset) : regex := Rep cs 1 None true.
Definition star (cs : cset) : regex := Rep cs 0 None true.

(** What a successful match says about the text, as a relation: [sem ic r p w q]
    holds when [r] may match the units [w] with [p] before them (latest
    first) and [q] after them. *)
Definition within (hi : option nat) (n : nat) : Prop :=
  match hi with None => True | Some h => n <= h end.

Fixpoint sem (ic : bool) (r : regex) (p w q : str) : Prop :=
  match r with
  | Eps => w = []
  | Chr cs => exists c, w = [c] /\ mem ic cs c = true
  | Rep cs lo hi _ =>
      Forall (fun c => mem ic cs c = true) w /\ lo <= length w
      /\ within hi (length w)
  | Seq a b =>
      exists u v, w = u ++ v /\ sem ic a p u (v ++ q) /\ sem ic b (rev u ++ p) v q
  | Alt a b => sem ic a p w q \/ sem ic b p w q
  | Opt a => w = [] \/ sem ic a p w q
  | Grp _ a => sem ic a p w q
  | Bol => w = [] /\ p = []
  | Eol => w = [] /\ q = []
  | WordB =>
      w = [] /\ xorb (at_word (hd_error p)) (at_word (hd_error q)) = true
  end.

(** [captures ic Q r]: whatever a group [i] of [r] records satisfies [Q i]. *)
Fixpoint captures (ic : bool) (Q : nat -> str -> Prop) (r : regex) : Prop :=
  match r with
  | Seq a b | Alt a b => captures ic Q a /\ captures ic Q b
  | Opt a => captures ic Q a
  | Grp i a => (forall p w q, sem ic a p w q -> Q i w) /\ captures ic Q a
  | _ => True
  end.

Definition caps_ok (Q : nat -> str -> Prop) (cs : list (nat * str)) : Prop :=
  forall i w, In (i, w) cs -> Q i w.

(** [binds i r]: group [i] lies on every way through [r], so that it takes
    part in every match. *)
Fixpoint binds (i : nat) (r : regex) : bool :=
  match r with
  | Seq a b => binds i a || binds i b
  | Alt a b => binds i a && binds i b
  | Grp j a => (i =? j) || binds i a
  | _ => false
  end.

End Re.

(* ================================================================== *)
(** ** The analyzer *)
(* ================================================================== *)

Module Analyzer.

Import JS Re.

Local Open Scope list_scope.

(** *** Patterns of the source, in order of appearance *)

Definition slugs : list regex :=
  [word "INT."; word "EXT."; word "INTERIOR"; word "EXTERIOR"].

(** Line 72: /^(?:\d+\s+)?(INT\.|EXT\.|INTERIOR|EXTERIOR)\s+(.+)/i *)
Definition sceneRe : regex :=
  seqs [Bol; Opt (Seq (plus [CDigit]) (plus [CSpace]));
        Grp 1 (alts slugs); plus [CSpace]; Grp 2 (plus [CDot])].

(** The class [A-Z\s'().-] of line 97. *)
Definition nameClass : cset :=
  [CRange 65 90; CSpace; CLit 39; CLit 40; CLit 41; CLit 46; CLit 45].

(** Line 97: /^(NAME):\s*(REST)/ where NAME is [A-Z][A-Z\s'().-]{1,49} and
    REST is a greedy run of any units but line terminators. *)
Definition charRe : regex :=
  seqs [Bol; Grp 1 (Seq (Chr [CRange 65 90]) (Rep nameClass 1 (Some 49) true));
        ch ":"; star [CSpace]; Grp 2 (star [CDot])].

(** Lines 99, 123 and 134: /\s*\(.*?\)/ *)
Definition parenRe : regex :=
  seqs [star [CSpace]; ch "("; Rep [CDot] 0 None false; ch ")"].

(** Line 99: /\s+/g *)
Definition wsRe : regex := plus [CSpace].

Definition invalidWords : list string :=
  ["INT"; "EXT"; "FADE"; "CUT"; "INTERIOR"; "EXTERIOR"; "SCENE"; "THE"; "AND";
   "OR"; "TO"; "IN"; "ON"; "AT"; "TIME"; "PLACE"; "LOCATION"; "CONT";
   "CONTINUED"; "MORE"]%string.

(** Line 103: /^(INT|EXT|FADE|...|MORE)$/i *)
Definition invalidPatterns : regex :=
  seqs [Bol; Grp 1 (alts (map word invalidWords)); Eol].

(** Line 121: /^[A-Z'\s]+$/ *)
Definition cueAloneRe : regex :=
  seqs [Bol; plus [CRange 65 90; CLit 39; CSpace]; Eol].

Definition commonWords : list str :=
  map lit ["THE"; "AND"; "OR"; "TO"; "IN"; "ON"; "AT"; "FADE"; "CUT"; "INT"; "EXT"]%string.

(** Line 132: /^[A-Z][A-Z\s'().]+$/ *)
Definition cueExtRe : regex :=
  seqs [Bol; Chr [CRange 65 90];
        plus [CRange 65 90; CSpace; CLit 39; CLit 40; CLit 41; CLit 46]; Eol].

(** Line 176: /^(?:INT\.|EXT\.|INTERIOR|EXTERIOR)\s+(.+?)(?:\s+-\s+|\s+D\s+|$)/i
    where D is the en dash, unit 8211. *)
Definition locRe : regex :=
  seqs [Bol; alts slugs; plus [CSpace]; Grp 1 (Rep [CDot] 1 None false);
        alts [seqs [plus [CSpace]; ch "-"; plus [CSpace]];
              seqs [plus [CSpace]; Chr [CLit 8211]; plus [CSpace]];
              Eol]].

Definition timeWords : list string :=
  ["DAY"; "NIGHT"; "MORNING"; "AFTERNOON"; "EVENING"; "DAWN"; "DUSK";
   "CONTINUOUS"; "LATER"; "SAME TIME"]%string.

(** Line 181: /\b(DAY|NIGHT|...|SAME TIME)\b/i *)
Definition timeRe : regex :=
  seqs [WordB; Grp 1 (alts (map word timeWords)); WordB].

(** [m[i]]; every group read by the source takes part in every match of its
    pattern. *)
Definition grp (i : nat) (m : mstate * mstate) : str :=
  match group i m with Some w => w | None => [] end.

(** *** Records *)

Record Scene : Type := mkScene {
  sceneNumber : nat;
  Scene_Names : str;
  Scene_action : str;
  Scene_Characters : option (list str);   (* [null] when empty *)
  Scene_Dialogue : option (list str);     (* [null] when empty *)
  Contents : str;
  location : str;
  timeOfDay : str
}.

(** An element of [this.dialogues]; its fields [sceneNumber] and
    [characters] carry a [d_] here, the names being taken. *)
Record Dialogue : Type := mkDialogue {
  d_sceneNumber : nat;
  d_characters : str;
  Character_dialogue : str;
  lineNumber : nat
}.

Record Interaction : Type := mkInteraction {
  character1 : str;
  character2 : str;
  i_scenes : list nat;
  interactionCount : nat
}.

(** *** extractLocation, extractTimeOfDay *)

Definition extractLocation (sceneHeader : str) : str :=
  match exec true locRe sceneHeader with
  | Some m => trim (grp 1 m)
  | None => []
  end.

Definition extractTimeOfDay (sceneHeader : str) : str :=
  match exec true timeRe sceneHeader with
  | Some m => toUpperCase (grp 1 m)
  | None => lit "UNSPECIFIED"
  end.

(** *** parseScreenplay *)

(** The fields of [this] that the loop writes and the loop's locals. *)
Record loop : Type := mkLoop {
  scenes : list Scene;
  dialogues : list Dialogue;
  characters : list str;                 (* a [Set] *)
  currentScene : option str;             (* [null] or a heading *)
  currentSceneAction : str;
  currentSceneCharacters : list str;
  currentSceneDialogues : list str;
  sceneCount : nat                       (* the local [sceneNumber] *)
}.

Definition init : loop := mkLoop [] [] [] None [] [] [] 0.

Definition nonempty_or_null (l : list str) : option (list str) :=
  match l with [] => None | _ :: _ => Some l end.

(** [if (currentScene) { sceneNumber++; this.scenes.push({...}) }], the
    same statement before a new heading and after the loop. *)
Definition saveScene (s : loop) : loop :=
  match currentScene s with
  | Some h =>
      if truthy h then
        let n := S (sceneCount s) in
        mkLoop
          (scenes s ++
             [mkScene n h (trim (currentSceneAction s))
                (nonempty_or_null (currentSceneCharacters s))
                (nonempty_or_null (currentSceneDialogues s))
                (trim (currentSceneAction s) ++ [10%N]
                   ++ join (lit " ") (currentSceneDialogues s))
                (extractLocation h) (extractTimeOfDay h)])
          (dialogues s) (characters s) (currentScene s) (currentSceneAction s)
          (currentSceneCharacters s) (currentSceneDialogues s) n
      else s
  | None => s
  end.

(** [this.characters.add(c); if (!cur.includes(c)) cur.push(c)] *)
Definition addCharacter (character : str) (s : loop) : loop :=
  mkLoop (scenes s) (dialogues s) (set_add character (characters s))
    (currentScene s) (currentSceneAction s)
    (if arr_includes character (currentSceneCharacters s)
     then currentSceneCharacters s
     else currentSceneCharacters s ++ [character])
    (currentSceneDialogues s) (sceneCount s).

Definition addDialogue (i : nat) (character dialogue : str) (s : loop) : loop :=
  mkLoop (scenes s)
    (dialogues s ++ [mkDialogue (sceneCount s + 1) character dialogue (i + 1)])
    (characters s) (currentScene s) (currentSceneAction s)
    (currentSceneCharacters s) (currentSceneDialogues s ++ [dialogue])
    (sceneCount s).

(** The four kinds of line after the empty ones are skipped, in the order
    of the [if]/[else if] chain. *)
Inductive lineKind : Type :=
| Heading | ColonLine | CueAlone | CueExtended | Action.

Definition classify (trimmedLine : str) : lineKind :=
  if test true sceneRe trimmedLine then Heading
  else if includes 58 trimmedLine && (length trimmedLine <? 200) then ColonLine
  else if test false cueAloneRe trimmedLine
          && (2 <? length trimmedLine) && (length trimmedLine <? 30) then CueAlone
  else if test false cueExtRe trimmedLine && (length trimmedLine <? 50)
  then CueExtended
  else Action.

(** Line 99: trim, drop the first parenthetical, collapse every run of
    white space into one space, trim. *)
Definition normalize (name : str) : str :=
  trim (replace_all false wsRe (lit " ") (replace false parenRe [] (trim name))).

(** The body of the [for] loop at index [i] (0-based). *)
Definition step (i : nat) (line : str) (s : loop) : loop :=
  let trimmedLine := trim line in
  if negb (truthy trimmedLine) then s
  else
    match classify trimmedLine with
    | Heading =>
        let s' := saveScene s in
        mkLoop (scenes s') (dialogues s') (characters s')
          (Some trimmedLine) [] [] [] (sceneCount s')
    | ColonLine =>
        match exec false charRe trimmedLine with
        | Some charMatch =>
            let character := normalize (grp 1 charMatch) in
            let dialogue := trim (grp 2 charMatch) in
            if truthy character && (1 <? length character)
               && (length character <? 50)
               && negb (test true invalidPatterns character)
            then
              let s1 := addCharacter character s in
              if truthy dialogue then addDialogue i character dialogue s1 else s1
            else s
        | None => s
        end
    | CueAlone =>
        let character := replace false parenRe [] (trim trimmedLine) in
        if truthy character && negb (arr_includes character commonWords)
        then addCharacter character s else s
    | CueExtended =>
        let character := replace false parenRe [] (trim trimmedLine) in
        if truthy character && (1 <? length character)
        then addCharacter character s else s
    | Action =>
        mkLoop (scenes s) (dialogues s) (characters s) (currentScene s)
          (currentSceneAction s ++ lit " " ++ trimmedLine)
          (currentSceneCharacters s) (currentSceneDialogues s) (sceneCount s)
    end.

(** [for (let i = 0; i < lines.length; i++)] from index [i] on. *)
Fixpoint run (i : nat) (lines : list str) (s : loop) : loop :=
  match lines with
  | [] => s
  | l :: r => run (S i) r (step i l s)
  end.

(** *** analyzeCharacterInteractions *)

(** [sceneDialogues]: a [Map] from scene number to the entries of that
    scene, keys in order of first insertion. *)
Fixpoint group_push (d : Dialogue) (m : list (nat * list Dialogue))
    : list (nat * list Dialogue) :=
  match m with
  | [] => [(d_sceneNumber d, [d])]
  | (n, ds) :: r =>
      if n =? d_sceneNumber d then (n, ds ++ [d]) :: r
      else (n, ds) :: group_push d r
  end.

Definition groupByScene (ds : list Dialogue) : list (nat * list Dialogue) :=
  fold_left (fun m d => group_push d m) ds [].

(** The index pairs [i < j] of the two nested loops, in loop order. *)
Fixpoint pairs (l : list str) : list (str * str) :=
  match l with
  | [] => []
  | x :: r => map (pair x) r ++ pairs r
  end.

(** [[char1, char2].sort().join('|')] *)
Definition interactionKey (char1 char2 : str) : str :=
  join (lit "|") (sort [char1; char2]).

Definition imap := list (str * Interaction).

Fixpoint has (k : str) (m : imap) : bool :=
  match m with
  | [] => false
  | (k', _) :: r => str_eqb k k' || has k r
  end.

(** [interaction = get(key); interaction.scenes.push(n);
    interaction.interactionCount++] *)
Fixpoint bump (k : str) (sceneNum : nat) (m : imap) : imap :=
  match m with
  | [] => []
  | (k', v) :: r =>
      if str_eqb k k'
      then (k', mkInteraction (character1 v) (character2 v)
                  (i_scenes v ++ [sceneNum]) (S (interactionCount v))) :: r
      else (k', v) :: bump k sceneNum r
  end.

(** The body of the inner loop. *)
Definition record_pair (sceneNum : nat) (m : imap) (p : str * str) : imap :=
  let '(char1, char2) := p in
  let key := interactionKey char1 char2 in
  let m' := if has key m then m
            else m ++ [(key, mkInteraction char1 char2 [] 0)] in
  bump key sceneNum m'.

(** The callback of [sceneDialogues.forEach]. *)
Definition record_scene (m : imap) (e : nat * list Dialogue) : imap :=
  let '(sceneNum, ds) := e in
  let sceneCharacters := dedup (map d_characters ds) in
  fold_left (record_pair sceneNum) (pairs sceneCharacters) m.

Definition interactionMap (ds : list Dialogue) : imap :=
  fold_left record_scene (groupByScene ds) [].

Definition analyzeCharacterInteractions (ds : list Dialogue) : list Interaction :=
  map snd (interactionMap ds).

(** *** The analyzer after [parseScreenplay(text)] on a new object

    The constructor leaves the three collections empty, which is the state
    [init]; the call on an object that has been used before is
    [Object.parseScreenplayOn] below. *)

Record analyzer : Type := mkAnalyzer {
  a_scenes : list Scene;
  a_dialogues : list Dialogue;
  a_characters : list str;
  movieCharacters : list str;
  interactions : list Interaction
}.

(** The loop over [lines] followed by the save of the last scene. *)
Definition finish (lines : list str) : loop :=
  saveScene (run 0 lines init).

Definition parseLines (lines : list str) : analyzer :=
  let s := finish lines in
  mkAnalyzer (scenes s) (dialogues s) (characters s)
    (sort (filter (fun c => (1 <? length c) && (length c <? 50)) (characters s)))
    (analyzeCharacterInteractions (dialogues s)).

Definition parseScreenplay (text : str) : analyzer :=
  parseLines (split 10 text).

(** *** Line kinds of the specification, read off the loop body *)

(** The line is not skipped and takes the heading branch. *)
Definition isHeading (line : str) : bool :=
  truthy (trim line)
  && match classify (trim line) with Heading => true | _ => false end.

(** The line takes the colon branch, registers a character and carries a
    non-empty dialogue: the character and the dialogue it yields. *)
Definition cueWithDialogue (line : str) : option (str * str) :=
  let trimmedLine := trim line in
  if negb (truthy trimmedLine) then None
  else
    match classify trimmedLine with
    | ColonLine =>
        match exec false charRe trimmedLine with
        | Some charMatch =>
            let character := normalize (grp 1 charMatch) in
            let dialogue := trim (grp 2 charMatch) in
            if truthy character && (1 <? length character)
               && (length character <? 50)
               && negb (test true invalidPatterns character)
               && truthy dialogue
            then Some (character, dialogue) else None
        | None => None
        end
    | _ => None
    end.

(** *** generateSummary, runCompleteAnalysis *)

(** The two functions compute on IEEE doubles and read the clock.  The
    arithmetic is kept abstract; the clock readings are inputs. *)
Section Summary.

Variable num : Type.
Variable ofNat : nat -> num.
Variables div mul sub : num -> num -> num.
Variable round : num -> num.               (* [Math.round] *)

Record clock : Type := mkClock {
  perfStart : num;          (* [performance.now()] on entry *)
  isoNow : str;             (* [new Date().toISOString()] in [generateSummary] *)
  perfEnd : num             (* [performance.now()] before the return *)
}.

Record Summary : Type := mkSummary {
  scriptName : str;
  s_totalScenes : nat;
  s_totalCharacters : nat;
  s_totalDialogues : nat;
  totalInteractions : nat;
  analysisTimestamp : str;
  averageDialoguesPerScene : num;
  charactersPerScene : num;
  processingTimeMs : num;
  averageSceneLength : num
}.

Record AnalysisResult : Type := mkResult {
  totalScenes : nat;
  totalCharacters : nat;
  totalDialogues : nat;
  r_scenes : list Scene;
  r_characters : list str;
  r_dialogues : list Dialogue;
  r_interactions : list Interaction;
  summary : Summary
}.

Inductive outcome : Type :=
| Thrown (message : str)
| Returned (r : AnalysisResult).

Definition sum_by {A : Type} (f : A -> nat) (l : list A) : nat :=
  fold_left (fun sum x => sum + f x) l 0.

Definition optLength (o : option (list str)) : nat :=
  match o with Some l => length l | None => 0 end.

(** [Math.round(x / n * 100) / 100] *)
Definition round2 (x n : num) : num :=
  div (round (mul (div x n) (ofNat 100))) (ofNat 100).

(** [generateSummary] extended with the two fields [runCompleteAnalysis]
    adds to it. *)
Definition generateSummary (name : str) (a : analyzer) (c : clock) : Summary :=
  let n := length (a_scenes a) in
  mkSummary name n (length (movieCharacters a)) (length (a_dialogues a))
    (length (interactions a)) (isoNow c)
    (if 0 <? n then round2 (ofNat (length (a_dialogues a))) (ofNat n)
     else ofNat 0)
    (if 0 <? n
     then round2 (ofNat (sum_by (fun sc => optLength (Scene_Characters sc))
                           (a_scenes a))) (ofNat n)
     else ofNat 0)
    (round (sub (perfEnd c) (perfStart c)))
    (if 0 <? n
     then round (div (ofNat (sum_by (fun sc => length (Contents sc)) (a_scenes a)))
                   (ofNat n))
     else ofNat 0).

(** [runCompleteAnalysis] from the extracted [text] on; writing the report
    files leaves the analyzer as it is. *)
Definition runCompleteAnalysis (name : str) (text : str) (c : clock) : outcome :=
  match text with
  | [] => Thrown (lit "No text could be extracted from the PDF")
  | _ :: _ =>
      let a := parseScreenplay text in
      Returned
        (mkResult (length (a_scenes a)) (length (movieCharacters a))
           (length (a_dialogues a)) (a_scenes a) (movieCharacters a)
           (a_dialogues a) (interactions a) (generateSummary name a c))
  end.

(** A result with the two clock fields of the summary overwritten. *)
Definition withClockFields (stamp : str) (ms : num) (o : outcome) : outcome :=
  match o with
  | Thrown m => Thrown m
  | Returned r =>
      let s := summary r in
      Returned
        (mkResult (totalScenes r) (totalCharacters r) (totalDialogues r)
           (r_scenes r) (r_characters r) (r_dialogues r) (r_interactions r)
           (mkSummary (scriptName s) (s_totalScenes s) (s_totalCharacters s)
              (s_totalDialogues s) (totalInteractions s) stamp
              (averageDialoguesPerScene s) (charactersPerScene s) ms
              (averageSceneLength s)))
  end.

End Summary.

End Analyzer.

(* ================================================================== *)
(** ** The report files *)
(* ================================================================== *)

(** [saveAllScenes] and [saveAllCharacters] build the text of a report and
    write it to a file; the model is the text.  The script name in capitals
    and the time stamp of the header are inputs. *)

Module Reports.

Import JS Re Analyzer.

Local Open Scope list_scope.

(** [String(n)] for a non-negative integer. *)
Fixpoint digits (u : Decimal.uint) : str :=
  match u with
  | Decimal.Nil => []
  | Decimal.D0 r => 48%N :: digits r
  | Decimal.D1 r => 49%N :: digits r
  | Decimal.D2 r => 50%N :: digits r
  | Decimal.D3 r => 51%N :: digits r
  | Decimal.D4 r => 52%N :: digits r
  | Decimal.D5 r => 53%N :: digits r
  | Decimal.D6 r => 54%N :: digits r
  | Decimal.D7 r => 55%N :: digits r
  | Decimal.D8 r => 56%N :: digits r
  | Decimal.D9 r => 57%N :: digits r
  end.

Definition decimal (n : nat) : str := digits (Nat.to_uint n).

(** The same for an integer too large to be counted in unary. *)
Definition decimalN (n : N) : str := digits (N.to_uint n).

(** [c.repeat(n)] for a one-unit string. *)
Definition rule (c : N) (n : nat) : str := repeat c n.

(** The four header lines shared by the reports. *)
Definition header (upperName title countLine stamp : str) : str :=
  upperName ++ lit " - " ++ title ++ [10%N]
  ++ countLine ++ [10%N]
  ++ lit "Analysis timestamp: " ++ stamp ++ [10%N]
  ++ rule 61 80 ++ [10%N; 10%N].

(** [forEach((x, idx) => { content += ... })] from index [idx] on. *)
Fixpoint blocks {A : Type} (f : nat -> A -> str) (idx : nat) (l : list A)
    : str :=
  match l with
  | [] => []
  | x :: r => f idx x ++ blocks f (S idx) r
  end.

(** [scene.sceneNumber || idx + 1] *)
Definition sceneLabel (idx : nat) (scene : Scene) : nat :=
  if sceneNumber scene =? 0 then idx + 1 else sceneNumber scene.

Definition joined_or_None (sep : str) (o : option (list str)) : str :=
  match o with Some l => join sep l | None => lit "None" end.

Definition sceneBlock (idx : nat) (scene : Scene) : str :=
  lit "SCENE " ++ decimal (sceneLabel idx scene) ++ lit ":" ++ [10%N]
  ++ rule 45 40 ++ [10%N]
  ++ lit "Scene Name: " ++ Scene_Names scene ++ [10%N]
  ++ lit "Location: " ++ location scene ++ [10%N]
  ++ lit "Time of Day: " ++ timeOfDay scene ++ [10%N]
  ++ lit "Scene Action: " ++ Scene_action scene ++ [10%N]
  ++ lit "Characters: " ++ joined_or_None (lit ", ") (Scene_Characters scene)
  ++ [10%N]
  ++ lit "Dialogues: " ++ joined_or_None (lit " | ") (Scene_Dialogue scene)
  ++ [10%N]
  ++ lit "Complete Content: " ++ Contents scene ++ [10%N]
  ++ rule 61 80 ++ [10%N; 10%N].

Definition saveAllScenes (upperName stamp : str) (a : analyzer) : str :=
  header upperName (lit "ALL SCENES COMPLETE")
    (lit "Complete extraction of all " ++ decimal (length (a_scenes a))
       ++ lit " scenes") stamp
  ++ blocks sceneBlock 0 (a_scenes a).

(** [this.dialogues.filter(d => d.characters === character)] *)
Definition characterDialogues (a : analyzer) (character : str)
    : list Dialogue :=
  filter (fun d => str_eqb (d_characters d) character) (a_dialogues a).

(** [[...new Set(numbers)]] *)
Definition num_add (x : nat) (s : list nat) : list nat :=
  if existsb (Nat.eqb x) s then s else s ++ [x].

Definition num_dedup (l : list nat) : list nat :=
  fold_left (fun acc x => num_add x acc) l [].

(** [[...new Set(characterDialogues.map(d => d.sceneNumber))]] *)
Definition characterScenes (a : analyzer) (character : str) : list nat :=
  num_dedup (map d_sceneNumber (characterDialogues a character)).

Definition characterBlock (a : analyzer) (idx : nat) (character : str) : str :=
  lit "CHARACTER " ++ decimal (idx + 1) ++ lit ": " ++ character ++ [10%N]
  ++ rule 45 30 ++ [10%N]
  ++ lit "Total Dialogues: "
  ++ decimal (length (characterDialogues a character)) ++ [10%N]
  ++ lit "Appears in Scenes: "
  ++ join (lit ", ") (map decimal (characterScenes a character)) ++ [10%N]
  ++ lit "Scene Count: "
  ++ decimal (length (characterScenes a character)) ++ [10%N]
  ++ rule 61 80 ++ [10%N; 10%N].

Definition saveAllCharacters (upperName stamp : str) (a : analyzer) : str :=
  header upperName (lit "ALL CHARACTERS COMPLETE")
    (lit "Complete list of all " ++ decimal (length (movieCharacters a))
       ++ lit " characters") stamp
  ++ blocks (characterBlock a) 0 (movieCharacters a).

End Reports.

(* ================================================================== *)
(** ** The upload server ([src/server.cjs]) *)
(* ================================================================== *)

Module Server.

Import JS Re Analyzer.

Local Open Scope list_scope.

(** Line 27: the class [^a-zA-Z0-9.-], written as the ranges of UTF-16
    units it holds: all but 45, 46, 48-57, 65-90 and 97-122. *)
Definition unsafeClass : cset :=
  [CRange 0 44; CRange 47 47; CRange 58 64; CRange 91 96; CRange 123 65535].

(** [file.originalname.replace(/[^a-zA-Z0-9.-]/g, '_')] *)
Definition sanitize (originalname : str) : str :=
  replace_all false (Chr unsafeClass) (lit "_") originalname.

(** The name under which an upload is stored: the time stamp of
    [Date.now()], an underscore, the sanitized name. *)
Definition storedName (timestamp : N) (originalname : str) : str :=
  Reports.decimalN timestamp ++ lit "_" ++ sanitize originalname.

(** Line 150: /\.pdf$/i *)
Definition pdfExt : regex := seqs [ch "."; word "pdf"; Eol].

(** [originalFilename?.replace(/\.pdf$/i, '') || 'unknown_script'] *)
Definition scriptNameOf (originalFilename : option str) : str :=
  match originalFilename with
  | Some f =>
      let base := replace true pdfExt [] f in
      if truthy base then base else lit "unknown_script"
  | None => lit "unknown_script"
  end.

(** An [Error]: its message and its [code], if it has one. *)
Record error : Type := mkError {
  code : option str;
  message : str
}.

(** The upload filter of lines 37-44: accept, or refuse with an error. *)
Definition fileFilter (mimetype : str) : error + unit :=
  if str_eqb mimetype (lit "application/pdf") then inr tt
  else inl (mkError None (lit "Only PDF files are allowed!")).

(** The origin check of lines 64-87; [production] is
    [process.env.NODE_ENV === 'production']. *)
Definition corsOrigin (allowedOrigins : list str) (production : bool)
    (origin : option str) : error + unit :=
  match origin with
  | None => inr tt
  | Some o =>
      if negb (truthy o) then inr tt
      else if arr_includes o allowedOrigins then inr tt
      else if production then inr tt
      else inl (mkError None (lit "Not allowed by CORS"))
  end.

(** The error middleware of lines 232-264: the status and the [code] of
    the reply. *)
Definition errorReply (e : error) : nat * str :=
  if match code e with
     | Some c => str_eqb c (lit "LIMIT_FILE_SIZE")
     | None => false
     end
  then (413, lit "FILE_TOO_LARGE")
  else if str_eqb (message e) (lit "Only PDF files are allowed!")
  then (400, lit "INVALID_FILE_TYPE")
  else if str_eqb (message e) (lit "Not allowed by CORS")
  then (403, lit "CORS_ERROR")
  else (500, lit "INTERNAL_ERROR").

End Server.

(* ================================================================== *)
(** * The analyzer object over several calls (pdfscript.cjs, lines 6-23) *)
(* ================================================================== *)

Module Object.

Import JS Re Analyzer.

Local Open Scope list_scope.

(** The fields of [this].  The constructor is the only place that empties
    [scenes], [dialogues] and [characters]; [parseScreenplay] pushes to them
    and assigns [movieCharacters] and [interactions] anew. *)
Record object : Type := mkObject {
  pdfPath : str;
  o_scriptName : str;
  o_scenes : list Scene;
  o_dialogues : list Dialogue;
  o_characters : list str;               (* a [Set] *)
  o_movieCharacters : list str;
  o_interactions : list Interaction
}.

(** [new FilmScriptAnalyzer(pdfPath, scriptName)] *)
Definition construct (path name : str) : object :=
  mkObject path name [] [] [] [] [].

(** The state of the loop when [parseScreenplay] is entered: the
    collections of the object as they are, the locals as declared at lines
    58-62. *)
Definition enter (o : object) : loop :=
  mkLoop (o_scenes o) (o_dialogues o) (o_characters o) None [] [] [] 0.

(** [o.parseScreenplay(text)] on an object in any state. *)
Definition parseScreenplayOn (o : object) (text : str) : object :=
  let s := saveScene (run 0 (split 10 text) (enter o)) in
  mkObject (pdfPath o) (o_scriptName o) (scenes s) (dialogues s) (characters s)
    (sort (filter (fun c => (1 <? length c) && (length c <? 50)) (characters s)))
    (analyzeCharacterInteractions (dialogues s)).

(** What the methods after [parseScreenplay] read. *)
Definition view (o : object) : analyzer :=
  mkAnalyzer (o_scenes o) (o_dialogues o) (o_characters o)
    (o_movieCharacters o) (o_interactions o).

Section Run.

Variable num : Type.
Variable ofNat : nat -> num.
Variables div mul sub : num -> num -> num.
Variable round : num -> num.

(** [o.runCompleteAnalysis()] from the extracted [text] on: the object
    after the call and what the call gives.  The result holds the arrays of
    the object; [r_scenes] and [r_dialogues] are their contents when the
    call returns. *)
Definition runCompleteAnalysisOn (o : object) (text : str) (c : clock num)
    : object * outcome num :=
  match text with
  | [] => (o, Thrown num (lit "No text could be extracted from the PDF"))
  | _ :: _ =>
      let o' := parseScreenplayOn o text in
      let a := view o' in
      (o',
       Returned num
         (mkResult num (length (a_scenes a)) (length (movieCharacters a))
            (length (a_dialogues a)) (a_scenes a) (movieCharacters a)
            (a_dialogues a) (interactions a)
            (generateSummary num ofNat div mul sub round (o_scriptName o') a c)))
  end.

(** The request handler of server.cjs, lines 160-161: a new analyzer for
    every upload. *)
Definition analyze (path name text : str) (c : clock num) : outcome num :=
  snd (runCompleteAnalysisOn (construct path name) text c).

End Run.

End Object.

(* ================================================================== *)
(** ** Invariants and vocabulary of the statements *)
(* ================================================================== *)

Import JS Re Analyzer Object.

(** The headings of a list of lines, trimmed, in document order. *)
Definition headings (lines : list str) : list str :=
  map trim (filter isHeading lines).

Definition openHeading (s : loop) : list str :=
  match currentScene s with Some h => [h] | None => [] end.

(** The saved scenes carry the headings read so far, in order. *)
Definition heads (s : loop) : list str :=
  map Scene_Names (scenes s) ++ openHeading s.

(** What the loop maintains about scene numbers: the saved scenes are
    numbered 1, 2, ... up to the counter, an open scene is a non-empty
    heading, nothing is counted before a scene opens, and every dialogue
    entry carries a number between 1 and the counter plus one. *)
Record numbered (s : loop) : Prop := {
  nb_scenes : map sceneNumber (scenes s) = seq 1 (sceneCount s);
  nb_open : forall h, currentScene s = Some h -> truthy h = true;
  nb_none : currentScene s = None -> sceneCount s = 0;
  nb_dialogues :
    Forall (fun d => 1 <= d_sceneNumber d <= sceneCount s + 1) (dialogues s)
}.

(** Two loop states that the scene output cannot tell apart: the same saved
    scenes, the same open heading and counter and, while a scene is open,
    the same three buffers. *)
Definition sameScenes (s1 s2 : loop) : Prop :=
  scenes s1 = scenes s2
  /\ currentScene s1 = currentScene s2
  /\ sceneCount s1 = sceneCount s2
  /\ (currentScene s1 <> None ->
      currentSceneAction s1 = currentSceneAction s2
      /\ currentSceneCharacters s1 = currentSceneCharacters s2
      /\ currentSceneDialogues s1 = currentSceneDialogues s2).

(** Two loop states with the same locals, the second one holding the
    scenes [P] and the entries [D] ahead of those of the first, and the
    names [C] besides. *)
Definition framed (P : list Scene) (D : list Dialogue) (C : list str)
    (s1 s2 : loop) : Prop :=
  scenes s2 = P ++ scenes s1
  /\ dialogues s2 = D ++ dialogues s1
  /\ (forall x, In x (characters s2) <-> In x C \/ In x (characters s1))
  /\ currentScene s2 = currentScene s1
  /\ currentSceneAction s2 = currentSceneAction s1
  /\ currentSceneCharacters s2 = currentSceneCharacters s1
  /\ currentSceneDialogues s2 = currentSceneDialogues s1
  /\ sceneCount s2 = sceneCount s1.

(** The names of a scene record, [null] read as no name. *)
Definition sceneCharacterList (sc : Scene) : list str :=
  match Scene_Characters sc with Some l => l | None => [] end.

(** The length test of the filter that builds [movieCharacters]. *)
Definition validName (c : str) : Prop := 1 < length c < 50.

(** What the loop maintains about names: every registered name passes the
    length filter, and the names of the open scene, of the saved scenes and
    of the dialogue entries are registered. *)
Record registered (s : loop) : Prop := {
  rg_valid : Forall validName (characters s);
  rg_open : incl (currentSceneCharacters s) (characters s);
  rg_scenes :
    Forall (fun sc => incl (sceneCharacterList sc) (characters s)) (scenes s);
  rg_dialogues :
    Forall (fun d => In (d_characters d) (characters s)) (dialogues s)
}.

(** No vertical bar, the separator of the interaction keys. *)
Definition noBar (c : str) : Prop := Forall (fun u => u <> 124%N) c.

(** Two records for the same unordered pair of characters. *)
Definition samePair (u v : Interaction) : Prop :=
  (character1 u = character1 v /\ character2 u = character2 v)
  \/ (character1 u = character2 v /\ character2 u = character1 v).

(** An entry of the interaction map while scene [n] is being recorded:
    [seen] are the scene numbers recorded before, [done] the keys already
    handled for [n]. *)
Definition entry_ok (seen : list nat) (n : nat) (done : list str)
    (e : str * Interaction) : Prop :=
  let v := snd e in
  fst e = interactionKey (character1 v) (character2 v)
  /\ character1 v <> character2 v
  /\ interactionCount v = length (i_scenes v)
  /\ NoDup (i_scenes v)
  /\ incl (i_scenes v) (n :: seen)
  /\ (In n (i_scenes v) -> In (fst e) done).

Definition imap_ok (seen : list nat) (n : nat) (done : list str) (m : imap)
    : Prop :=
  NoDup (map fst m) /\ Forall (entry_ok seen n done) m.

(** The map between two scenes: every scene number in it has been seen. *)
Definition imap_closed (seen : list nat) (m : imap) : Prop :=
  NoDup (map fst m)
  /\ Forall (fun e =>
               let v := snd e in
               fst e = interactionKey (character1 v) (character2 v)
               /\ character1 v <> character2 v
               /\ interactionCount v = length (i_scenes v)
               /\ NoDup (i_scenes v)
               /\ incl (i_scenes v) seen) m.

Definition pairKey (p : str * str) : str := interactionKey (fst p) (snd p).


(** *** Vocabulary of the further properties *)

(** The order of [sort]: [a] is not after [b]. *)
Definition str_le (a b : str) : Prop := ltb b a = false.

(** The dialogue index read off the lines alone: [i] lines and [h] headings
    have been read. *)
Fixpoint dialogueIndex (i h : nat) (lines : list str) : list Dialogue :=
  match lines with
  | [] => []
  | l :: r =>
      match cueWithDialogue l with
      | Some (c, d) => [mkDialogue (Nat.max 1 h) c d (i + 1)]
      | None => []
      end ++ dialogueIndex (S i) (if isHeading l then S h else h) r
  end.

(** The headings a loop state has seen. *)
Definition headCount (s : loop) : nat :=
  match currentScene s with Some _ => S (sceneCount s) | None => 0 end.

(** The dialogue lines of a scene record, [null] read as none. *)
Definition sceneDialogueList (sc : Scene) : list str :=
  match Scene_Dialogue sc with Some l => l | None => [] end.

(** The entries of the dialogue index that carry scene number [k]. *)
Definition entriesOf (k : nat) (ds : list Dialogue) : list Dialogue :=
  filter (fun d => d_sceneNumber d =? k) ds.

(** How the scene records and the dialogue index hang together while the
    loop runs: the dialogue lines of a scene are the texts of the entries that
    carry its number, after those read before the first heading; the
    speakers of the entries of a scene numbered 2 or more are in its
    character list; the same for the open scene and its buffers. *)
Record linked (s : loop) : Prop := {
  lk_scenes :
    Forall (fun sc =>
              exists pre,
                map Character_dialogue (entriesOf (sceneNumber sc) (dialogues s))
                = pre ++ sceneDialogueList sc
                /\ (2 <= sceneNumber sc -> pre = []))
      (scenes s);
  lk_speakers :
    Forall (fun sc =>
              2 <= sceneNumber sc ->
              forall d, In d (entriesOf (sceneNumber sc) (dialogues s)) ->
                        In (d_characters d) (sceneCharacterList sc))
      (scenes s);
  lk_open :
    currentScene s <> None ->
    exists pre,
      map Character_dialogue (entriesOf (sceneCount s + 1) (dialogues s))
      = pre ++ currentSceneDialogues s
      /\ (1 <= sceneCount s -> pre = []);
  lk_open_speakers :
    currentScene s <> None -> 1 <= sceneCount s ->
    forall d, In d (entriesOf (sceneCount s + 1) (dialogues s)) ->
              In (d_characters d) (currentSceneCharacters s)
}.

(** The lines in front of the first heading. *)
Fixpoint beforeHeading (lines : list str) : list str :=
  match lines with
  | [] => []
  | l :: r => if isHeading l then [] else l :: beforeHeading r
  end.

(** Once a scene is open, with [A] the dialogue texts read before the first
    heading: the dialogue lines of a saved scene are the texts of the
    entries that carry its number, after [A] for scene 1; the same for the
    open scene and its buffer. *)
Record aligned (A : list str) (s : loop) : Prop := {
  al_scenes :
    Forall (fun sc =>
              map Character_dialogue (entriesOf (sceneNumber sc) (dialogues s))
              = (if sceneNumber sc =? 1 then A else [])
                  ++ sceneDialogueList sc)
      (scenes s);
  al_some : currentScene s <> None;
  al_open :
    map Character_dialogue (entriesOf (sceneCount s + 1) (dialogues s))
    = (if sceneCount s =? 0 then A else []) ++ currentSceneDialogues s
}.

(** A scene record as [saveScene] builds it. *)
Definition sceneTidy (sc : Scene) : Prop :=
  Scene_Characters sc <> Some []
  /\ NoDup (sceneCharacterList sc)
  /\ Scene_Dialogue sc <> Some []
  /\ Forall (fun d => truthy d = true) (sceneDialogueList sc)
  /\ trim (Scene_action sc) = Scene_action sc
  /\ Contents sc
     = Scene_action sc ++ [10%N] ++ join (lit " ") (sceneDialogueList sc)
  /\ location sc = extractLocation (Scene_Names sc)
  /\ timeOfDay sc = extractTimeOfDay (Scene_Names sc).

Record tidy (s : loop) : Prop := {
  td_names : NoDup (characters s);
  td_open : NoDup (currentSceneCharacters s);
  td_lines : Forall (fun d => truthy d = true) (currentSceneDialogues s);
  td_scenes : Forall sceneTidy (scenes s)
}.

(** The time-of-day vocabulary. *)
Definition timeVocabulary : list str :=
  lit "UNSPECIFIED" :: map lit timeWords.

(** Character [c] has an entry of the dialogue index in scene [n]. *)
Definition speaks (ds : list Dialogue) (c : str) (n : nat) : Prop :=
  exists d, In d ds /\ d_characters d = c /\ d_sceneNumber d = n.

(** An entry of the interaction map lists only scenes in which both of its
    characters speak. *)
Definition entry_sound (ds : list Dialogue) (e : str * Interaction) : Prop :=
  let v := snd e in
  noBar (character1 v) /\ noBar (character2 v)
  /\ fst e = interactionKey (character1 v) (character2 v)
  /\ forall n, In n (i_scenes v) ->
               speaks ds (character1 v) n /\ speaks ds (character2 v) n.

(** The map has scene [n] under key [k]. *)
Definition has_scene (k : str) (n : nat) (m : imap) : Prop :=
  exists v, In (k, v) m /\ In n (i_scenes v).

(** The units the upload sanitizer keeps: letters, digits, dot, hyphen. *)
Definition safeUnit (c : N) : bool :=
  (((97 <=? c) && (c <=? 122)) || ((65 <=? c) && (c <=? 90))
   || ((48 <=? c) && (c <=? 57)) || (c =? 46) || (c =? 45))%N.

(** A string of UTF-16 code units. *)
Definition utf16 (s : str) : Prop := Forall (fun c => (c < 65536)%N) s.

(** The four units are a dot and the letters p, d, f in either case. *)
Definition isPdfExt (w : str) : Prop := map upper w = lit ".PDF".

(** The scenes of an entry rise and stay at or below [B]. *)
Definition entry_rising (B : nat) (e : str * Interaction) : Prop :=
  StronglySorted le (i_scenes (snd e))
  /\ Forall (fun x => x <= B) (i_scenes (snd e)).

(** In the list [l] the first [a] stands before the first [b]. *)
Definition firstBefore (a b : str) (l : list str) : Prop :=
  exists l1 l2, l = l1 ++ a :: l2 /\ ~ In a l1 /\ ~ In b l1 /\ In b l2.

(** An entry of the interaction map names its two characters in the order
    in which they first speak in the first scene of its list, the scene
    that made the entry. *)
Definition entry_order (ds : list Dialogue) (e : str * Interaction) : Prop :=
  exists n rest,
    i_scenes (snd e) = n :: rest
    /\ firstBefore (character1 (snd e)) (character2 (snd e))
         (map d_characters (entriesOf n ds)).

(** The capital letters. *)
Definition capitals : list N := map N.of_nat (seq 65 26).

(** A line of the two units [x], [y] goes to the extended cue branch and
    is its own character name. *)
Definition twoLetterCue (x y : N) : bool :=
  match classify (trim [x; y]) with CueExtended => true | _ => false end
  && str_eqb (trim [x; y]) [x; y]
  && str_eqb (replace false parenRe [] (trim [x; y])) [x; y].

(** A pattern without capture groups. *)
Fixpoint plain (r : regex) : bool :=
  match r with
  | Seq a b | Alt a b => plain a && plain b
  | Opt a => plain a
  | Grp _ _ => false
  | _ => true
  end.

(** The four slugs, and the separator of the location pattern: white space,
    a hyphen or an en dash, white space. *)
Definition slugWords : list string :=
  ["INT."; "EXT."; "INTERIOR"; "EXTERIOR"]%string.

Definition isDash (c : N) : bool := ((c =? 45) || (c =? 8211))%N.

Definition isSeparator (w : str) : Prop :=
  exists a d b,
    w = a ++ d :: b /\ a <> [] /\ b <> []
    /\ Forall (fun c => isSpace c = true) a
    /\ Forall (fun c => isSpace c = true) b
    /\ isDash d = true.

(** The last part of the location pattern. *)
Definition locSep : regex :=
  alts [seqs [plus [CSpace]; ch "-"; plus [CSpace]];
        seqs [plus [CSpace]; Chr [CLit 8211]; plus [CSpace]];
        Eol].

(** Some hyphen or en dash of [s] comes right after a white space, [prev]
    being the unit before [s]. *)
Fixpoint spacedDash (prev : N) (s : str) : bool :=
  match s with
  | [] => false
  | c :: t => (isSpace prev && isDash c) || spacedDash c t
  end.


(* ================================================================== *)
(** ** Properties of the line loop *)
(* ================================================================== *)

Lemma numbered_init : numbered init.
Proof. split; simpl; auto; discriminate. Qed.

Lemma saveScene_open (s : loop) (h : str) :
  currentScene s = Some h -> truthy h = true ->
  scenes (saveScene s) =
    scenes s ++ [mkScene (S (sceneCount s)) h (trim (currentSceneAction s))
                   (nonempty_or_null (currentSceneCharacters s))
                   (nonempty_or_null (currentSceneDialogues s))
                   (trim (currentSceneAction s) ++ [10%N]
                      ++ join (lit " ") (currentSceneDialogues s))
                   (extractLocation h) (extractTimeOfDay h)]
  /\ sceneCount (saveScene s) = S (sceneCount s)
  /\ dialogues (saveScene s) = dialogues s
  /\ characters (saveScene s) = characters s
  /\ currentScene (saveScene s) = Some h.
Proof.
  intros Hc Ht. unfold saveScene. rewrite Hc, Ht. simpl. auto.
Qed.

Lemma saveScene_closed (s : loop) :
  currentScene s = None -> saveScene s = s.
Proof. intros Hc. unfold saveScene. now rewrite Hc. Qed.

Lemma saveScene_numbered (s : loop) : numbered s -> numbered (saveScene s).
Proof.
  intros H.
  destruct (currentScene s) as [h|] eqn:Hc.
  - destruct H as [Hs Ho Hn Hd].
    destruct (saveScene_open s h Hc (Ho h Hc)) as (E1 & E2 & E3 & E4 & E5).
    split.
    + rewrite E1, E2, map_app, Hs, seq_S. reflexivity.
    + rewrite E5. intros h' [= <-]. auto.
    + rewrite E5. discriminate.
    + rewrite E2, E3. eapply Forall_impl; [|exact Hd]. simpl. lia.
  - now rewrite (saveScene_closed s Hc).
Qed.

Lemma addCharacter_numbered (c : str) (s : loop) :
  numbered s -> numbered (addCharacter c s).
Proof. intros [Hs Ho Hn Hd]. split; simpl; auto. Qed.

Lemma addDialogue_numbered (i : nat) (c d : str) (s : loop) :
  numbered s -> numbered (addDialogue i c d s).
Proof.
  intros [Hs Ho Hn Hd]. split; simpl; auto.
  apply Forall_app; split; auto. constructor; simpl; [lia|constructor].
Qed.

Lemma step_numbered (i : nat) (line : str) (s : loop) :
  numbered s -> numbered (step i line s).
Proof.
  intros H. unfold step.
  destruct (truthy (trim line)) eqn:Ht; simpl; auto.
  destruct (classify (trim line)).
  - pose proof (saveScene_numbered s H) as [Hs Ho Hn Hd].
    split; simpl; auto.
    + intros h [= <-]. exact Ht.
    + discriminate.
  - destruct (exec false charRe (trim line)); auto.
    repeat match goal with
           | |- numbered (if ?b then _ else _) => destruct b
           end; auto using addCharacter_numbered, addDialogue_numbered.
  - match goal with |- numbered (if ?b then _ else _) => destruct b end;
      auto using addCharacter_numbered.
  - match goal with |- numbered (if ?b then _ else _) => destruct b end;
      auto using addCharacter_numbered.
  - destruct H as [Hs Ho Hn Hd]. split; simpl; auto.
Qed.

Lemma run_numbered (lines : list str) :
  forall i s, numbered s -> numbered (run i lines s).
Proof.
  induction lines as [|l r IH]; simpl; auto using step_numbered.
Qed.

Lemma finish_numbered (lines : list str) : numbered (finish lines).
Proof.
  apply saveScene_numbered, run_numbered, numbered_init.
Qed.

(** After the last save every number that was handed out to a dialogue
    entry is the number of a saved scene, unless no scene ever opened. *)
Lemma finish_count (lines : list str) :
  length (scenes (finish lines)) = sceneCount (finish lines).
Proof.
  pose proof (nb_scenes _ (finish_numbered lines)) as H.
  apply (f_equal (@length nat)) in H.
  now rewrite length_map, length_seq in H.
Qed.

Lemma saveScene_dialogue_bound (s : loop) :
  numbered s ->
  Forall (fun d => 1 <= d_sceneNumber d <= Nat.max 1 (sceneCount (saveScene s)))
    (dialogues (saveScene s)).
Proof.
  intros [Hs Ho Hn Hd].
  destruct (currentScene s) as [h|] eqn:Hc.
  - destruct (saveScene_open s h Hc (Ho h eq_refl)) as (_ & E2 & E3 & _).
    rewrite E2, E3. eapply Forall_impl; [|exact Hd]. simpl. lia.
  - rewrite (saveScene_closed s Hc). rewrite (Hn eq_refl) in Hd.
    rewrite (Hn eq_refl).
    eapply Forall_impl; [|exact Hd]. simpl. lia.
Qed.

Lemma saveScene_heads (s : loop) :
  (forall h, currentScene s = Some h -> truthy h = true) ->
  map Scene_Names (scenes (saveScene s)) = heads s.
Proof.
  intros Ho. unfold heads, openHeading.
  destruct (currentScene s) as [h|] eqn:Hc.
  - destruct (saveScene_open s h Hc (Ho h eq_refl)) as (E1 & _).
    now rewrite E1, map_app.
  - rewrite (saveScene_closed s Hc). now rewrite app_nil_r.
Qed.

Lemma step_heads (i : nat) (line : str) (s : loop) :
  numbered s ->
  heads (step i line s) =
    heads s ++ (if isHeading line then [trim line] else []).
Proof.
  intros H. unfold step, isHeading.
  destruct (truthy (trim line)) eqn:Ht; simpl; [|now rewrite app_nil_r].
  destruct (classify (trim line)); simpl.
  - unfold heads at 1, openHeading. simpl.
    now rewrite (saveScene_heads s (nb_open s H)).
  - rewrite app_nil_r.
    destruct (exec false charRe (trim line)); auto.
    repeat match goal with
           | |- heads (if ?b then _ else _) = _ => destruct b
           end; reflexivity.
  - rewrite app_nil_r.
    match goal with |- heads (if ?b then _ else _) = _ => destruct b end;
      reflexivity.
  - rewrite app_nil_r.
    match goal with |- heads (if ?b then _ else _) = _ => destruct b end;
      reflexivity.
  - now rewrite app_nil_r.
Qed.

Lemma run_heads (lines : list str) :
  forall i s, numbered s -> heads (run i lines s) = heads s ++ headings lines.
Proof.
  induction lines as [|l r IH]; intros i s H; simpl.
  - now rewrite app_nil_r.
  - rewrite IH by (now apply step_numbered). rewrite step_heads by assumption.
    rewrite <- app_assoc. f_equal. unfold headings. simpl.
    now destruct (isHeading l).
Qed.

(** C3. For every input text the [sceneNumber] fields of the scene output
    are exactly 1, 2, ..., totalScenes in output order, and the output holds
    one scene per heading line, in document order: a scene gets the next
    number when it is saved, at the following heading or after the last
    line. *)
Theorem scene_numbers_contiguous (text : str) :
  let a := parseScreenplay text in
  map sceneNumber (a_scenes a) = seq 1 (length (a_scenes a))
  /\ map Scene_Names (a_scenes a) = headings (split 10 text).
Proof.
  simpl. split.
  - rewrite finish_count. apply (nb_scenes _ (finish_numbered _)).
  - unfold finish. rewrite saveScene_heads.
    + now rewrite run_heads by apply numbered_init.
    + apply (nb_open _ (run_numbered _ 0 init numbered_init)).
Qed.

(** C1 (as amended). For every input text every dialogue entry has
    [1 <= sceneNumber <= max 1 totalScenes]: the number is that of a saved
    scene whenever at least one scene exists, and is 1 when the text has no
    heading at all. *)
Theorem dialogue_scene_bound (text : str) :
  let a := parseScreenplay text in
  Forall (fun d => 1 <= d_sceneNumber d <= Nat.max 1 (length (a_scenes a)))
    (a_dialogues a).
Proof.
  simpl. rewrite finish_count. unfold finish.
  apply saveScene_dialogue_bound, run_numbered, numbered_init.
Qed.

(** C1, counterexample: a cue with dialogue and no heading gives an entry
    numbered 1 while no scene is saved. *)
Lemma orphan_dialogue_number :
  let a := parseScreenplay (lit "JOHN: Hello") in
  exists d, In d (a_dialogues a)
            /\ ~ (1 <= d_sceneNumber d <= length (a_scenes a)).
Proof.
  exists (mkDialogue 1 (lit "JOHN") (lit "Hello") 1). split.
  - vm_compute. auto.
  - vm_compute. intros [_ H]. inversion H.
Qed.

(** *** Lines read before the first heading *)

Lemma sameScenes_refl (s : loop) : sameScenes s s.
Proof. repeat split. Qed.

Lemma saveScene_same (s1 s2 : loop) :
  sameScenes s1 s2 -> sameScenes (saveScene s1) (saveScene s2).
Proof.
  intros (E1 & E2 & E3 & E4). unfold saveScene. rewrite <- E2.
  destruct (currentScene s1) as [h|] eqn:Hc.
  - destruct E4 as (A1 & A2 & A3); [discriminate|].
    destruct (truthy h); unfold sameScenes; simpl; rewrite ?Hc;
      intuition congruence.
  - unfold sameScenes. rewrite ?Hc. intuition congruence.
Qed.

Ltac same_fields :=
  unfold sameScenes in *; simpl in *;
  repeat match goal with
         | H : _ /\ _ |- _ => destruct H
         end;
  repeat split; try congruence;
  try (match goal with
       | H : ?a <> None -> _, H' : ?a <> None |- _ =>
           let A1 := fresh in let A2 := fresh in let A3 := fresh in
           destruct (H H') as (A1 & A2 & A3);
           try rewrite A1; try rewrite A2; try rewrite A3
       end; congruence).

Lemma addCharacter_same (c : str) (s1 s2 : loop) :
  sameScenes s1 s2 -> sameScenes (addCharacter c s1) (addCharacter c s2).
Proof. intros H. same_fields. Qed.

Lemma addDialogue_same (i j : nat) (c d : str) (s1 s2 : loop) :
  sameScenes s1 s2 -> sameScenes (addDialogue i c d s1) (addDialogue j c d s2).
Proof. intros H. same_fields. Qed.

Lemma step_same (i j : nat) (line : str) (s1 s2 : loop) :
  sameScenes s1 s2 -> sameScenes (step i line s1) (step j line s2).
Proof.
  intros H. unfold step.
  destruct (truthy (trim line)); simpl; auto.
  destruct (classify (trim line)).
  - pose proof (saveScene_same s1 s2 H) as H'. clear H.
    unfold sameScenes in *. simpl. intuition congruence.
  - destruct (exec false charRe (trim line)); auto.
    repeat match goal with
           | |- sameScenes (if ?b then _ else _) _ => destruct b
           end; auto using addCharacter_same, addDialogue_same.
  - match goal with |- sameScenes (if ?b then _ else _) _ => destruct b end;
      auto using addCharacter_same.
  - match goal with |- sameScenes (if ?b then _ else _) _ => destruct b end;
      auto using addCharacter_same.
  - same_fields.
Qed.

Lemma run_same (lines : list str) :
  forall i j s1 s2,
    sameScenes s1 s2 -> sameScenes (run i lines s1) (run j lines s2).
Proof.
  induction lines as [|l r IH]; simpl; auto using step_same.
Qed.

(** A line that is not a heading leaves a closed state closed. *)
Lemma step_closed (i : nat) (line : str) (s : loop) :
  isHeading line = false -> currentScene s = None ->
  sameScenes (step i line s) s.
Proof.
  intros Hh Hc. unfold isHeading in Hh. unfold step.
  destruct (truthy (trim line)); simpl in *; [|apply sameScenes_refl].
  assert (C : forall x, sameScenes (addCharacter x s) s)
    by (intros x; unfold sameScenes; simpl; intuition congruence).
  assert (D : forall k x y u, sameScenes u s -> sameScenes (addDialogue k x y u) s)
    by (intros k x y u; unfold sameScenes; simpl; intuition congruence).
  destruct (classify (trim line)); try discriminate.
  - destruct (exec false charRe (trim line)); [|apply sameScenes_refl].
    repeat match goal with
           | |- sameScenes (if ?b then _ else _) _ => destruct b
           end; auto using sameScenes_refl.
  - match goal with |- sameScenes (if ?b then _ else _) _ => destruct b end;
      auto using sameScenes_refl.
  - match goal with |- sameScenes (if ?b then _ else _) _ => destruct b end;
      auto using sameScenes_refl.
  - unfold sameScenes; simpl; intuition congruence.
Qed.

Lemma sameScenes_trans (s1 s2 s3 : loop) :
  sameScenes s1 s2 -> sameScenes s2 s3 -> sameScenes s1 s3.
Proof.
  intros (E1 & E2 & E3 & E4) (F1 & F2 & F3 & F4).
  unfold sameScenes. intuition congruence.
Qed.

Lemma run_app (l1 l2 : list str) :
  forall i s, run i (l1 ++ l2) s = run (i + length l1) l2 (run i l1 s).
Proof.
  induction l1 as [|x r IH]; intros i s; simpl.
  - now rewrite Nat.add_0_r.
  - rewrite IH. f_equal. lia.
Qed.

Lemma run_closed (pre : list str) :
  forall i s,
    forallb (fun x => negb (isHeading x)) pre = true ->
    currentScene s = None ->
    sameScenes (run i pre s) s.
Proof.
  induction pre as [|x r IH]; intros i s Hp Hc; simpl in *.
  - apply sameScenes_refl.
  - apply andb_prop in Hp. destruct Hp as [Hx Hr].
    apply negb_true_iff in Hx.
    pose proof (step_closed i x s Hx Hc) as Hs.
    eapply sameScenes_trans; [|exact Hs].
    apply IH; auto. destruct Hs as (_ & E2 & _). congruence.
Qed.

(** The dialogue index only grows. *)
Lemma step_dialogues (i : nat) (line : str) (s : loop) :
  exists more, dialogues (step i line s) = dialogues s ++ more.
Proof.
  unfold step.
  destruct (truthy (trim line)); simpl; [|exists []; now rewrite app_nil_r].
  destruct (classify (trim line)); simpl.
  - exists []. rewrite app_nil_r. unfold saveScene.
    destruct (currentScene s) as [h|]; auto. now destruct (truthy h).
  - destruct (exec false charRe (trim line));
      [|exists []; now rewrite app_nil_r].
    repeat match goal with
           | |- exists _, dialogues (if ?b then _ else _) = _ => destruct b
           end; simpl; eauto; exists []; now rewrite app_nil_r.
  - match goal with
    | |- exists _, dialogues (if ?b then _ else _) = _ => destruct b
    end; exists []; now rewrite app_nil_r.
  - match goal with
    | |- exists _, dialogues (if ?b then _ else _) = _ => destruct b
    end; exists []; now rewrite app_nil_r.
  - exists []. now rewrite app_nil_r.
Qed.

Lemma run_dialogues (lines : list str) :
  forall i s, exists more, dialogues (run i lines s) = dialogues s ++ more.
Proof.
  induction lines as [|l r IH]; intros i s; simpl.
  - exists []. now rewrite app_nil_r.
  - destruct (IH (S i) (step i l s)) as [m2 E2].
    destruct (step_dialogues i l s) as [m1 E1].
    exists (m1 ++ m2). now rewrite E2, E1, app_assoc.
Qed.

Lemma saveScene_dialogues (s : loop) : dialogues (saveScene s) = dialogues s.
Proof.
  unfold saveScene. destruct (currentScene s) as [h|]; auto.
  now destruct (truthy h).
Qed.

(** A cue with dialogue is recorded under the number the open scene will
    get, whatever the state. *)
Lemma step_cueWithDialogue (i : nat) (line c d : str) (s : loop) :
  cueWithDialogue line = Some (c, d) ->
  dialogues (step i line s) =
    dialogues s ++ [mkDialogue (sceneCount s + 1) c d (i + 1)].
Proof.
  unfold cueWithDialogue, step.
  destruct (truthy (trim line)); simpl; [|discriminate].
  destruct (classify (trim line)); try discriminate.
  destruct (exec false charRe (trim line)) as [m|]; [|discriminate].
  match goal with
  | |- (if ?b && ?t then _ else _) = _ -> _ =>
      destruct b; simpl; [|discriminate]; destruct t; [|discriminate]
  end.
  now intros [= <- <-].
Qed.

Lemma cueWithDialogue_not_heading (line c d : str) :
  cueWithDialogue line = Some (c, d) -> isHeading line = false.
Proof.
  unfold cueWithDialogue, isHeading.
  destruct (truthy (trim line)); simpl; auto.
  destruct (classify (trim line)); auto; discriminate.
Qed.

(** C2 (as amended). When a cue-with-dialogue line is read before any
    heading, the dialogue index does get an entry for it, numbered 1 and
    carrying the line's position, character and dialogue; what is discarded
    is the pre-scene buffer: the scene output is the one of the text without
    its lines up to and including that one. *)
Theorem pre_scene_dialogue (text : str) (pre rest : list str) (l c d : str) :
  split 10 text = pre ++ l :: rest ->
  forallb (fun x => negb (isHeading x)) pre = true ->
  cueWithDialogue l = Some (c, d) ->
  let a := parseScreenplay text in
  In (mkDialogue 1 c d (S (length pre))) (a_dialogues a)
  /\ a_scenes a = a_scenes (parseLines rest).
Proof.
  intros Hs Hp Hl. unfold parseScreenplay. rewrite Hs. simpl.
  unfold finish. rewrite run_app. simpl.
  pose proof (run_closed pre 0 init Hp eq_refl) as Hc.
  set (s0 := run 0 pre init) in *.
  split.
  - rewrite saveScene_dialogues.
    destruct (run_dialogues rest (S (length pre)) (step (length pre) l s0))
      as [more E].
    rewrite E, (step_cueWithDialogue (length pre) l c d s0 Hl).
    apply in_or_app. left. apply in_or_app. right.
    destruct Hc as (_ & _ & E3 & _). rewrite E3. simpl.
    rewrite Nat.add_1_r. now left.
  - assert (H1 : sameScenes (step (length pre) l s0) init).
    { eapply sameScenes_trans; [|exact Hc].
      apply step_closed; [eapply cueWithDialogue_not_heading; eauto|].
      destruct Hc as (_ & E2 & _). exact E2. }
    pose proof (saveScene_same _ _ (run_same rest (S (length pre)) 0 _ _ H1)) as H2.
    destruct H2 as (E1 & _). exact E1.
Qed.

(** C2, counterexample: with no heading before it (none at all here) the
    line is a cue with dialogue, and the dialogue index holds its entry. *)
Lemma cue_before_heading_recorded :
  let text := lit "JOHN: Hello" in
  cueWithDialogue text = Some (lit "JOHN", lit "Hello")
  /\ a_scenes (parseScreenplay text) = []
  /\ a_dialogues (parseScreenplay text)
     = [mkDialogue 1 (lit "JOHN") (lit "Hello") 1].
Proof. vm_compute. repeat split. Qed.

(** C2, witness: a cast-list line and a cue with dialogue in front of the
    only heading. *)
Lemma pre_scene_dialogue_witness :
  let text := lit "TITLE PAGE" ++ 10%N :: lit "JOHN: Hello"
                ++ 10%N :: lit "INT. HOUSE - DAY" in
  In (mkDialogue 1 (lit "JOHN") (lit "Hello") 2)
     (a_dialogues (parseScreenplay text))
  /\ a_scenes (parseScreenplay text)
     = a_scenes (parseLines [lit "INT. HOUSE - DAY"]).
Proof.
  apply (pre_scene_dialogue _ [lit "TITLE PAGE"] [lit "INT. HOUSE - DAY"]
           (lit "JOHN: Hello") (lit "JOHN") (lit "Hello"));
    vm_compute; reflexivity.
Defined.

(** *** The scenarios of the specification, evaluated *)

(** C4. The heading pattern accepts a leading scene number, the location
    pattern does not: the numbered heading opens a scene whose location is
    empty, where the same heading without the number gives HOUSE. *)
Theorem numbered_heading_location :
  classify (lit "12 INT. HOUSE - DAY") = Heading
  /\ map (fun sc => (Scene_Names sc, location sc))
       (a_scenes (parseScreenplay (lit "12 INT. HOUSE - DAY")))
     = [(lit "12 INT. HOUSE - DAY", [])]
  /\ map (fun sc => (Scene_Names sc, location sc))
       (a_scenes (parseScreenplay (lit "INT. HOUSE - DAY")))
     = [(lit "INT. HOUSE - DAY", lit "HOUSE")].
Proof. vm_compute. repeat split. Qed.

(** C7. Scenario A: two scenes, HOUSE by DAY then STREET by NIGHT, the
    characters JOHN and MARY, two dialogue entries and no interaction. *)
Theorem scenario_A :
  let text := lit "INT. HOUSE - DAY" ++ 10%N :: lit "JOHN: Hello there."
                ++ 10%N :: lit "EXT. STREET - NIGHT"
                ++ 10%N :: lit "MARY: Hi John." in
  let a := parseScreenplay text in
  map (fun sc => (sceneNumber sc, location sc, timeOfDay sc)) (a_scenes a)
    = [(1, lit "HOUSE", lit "DAY"); (2, lit "STREET", lit "NIGHT")]
  /\ movieCharacters a = [lit "JOHN"; lit "MARY"]
  /\ a_dialogues a
     = [mkDialogue 1 (lit "JOHN") (lit "Hello there.") 2;
        mkDialogue 2 (lit "MARY") (lit "Hi John.") 4]
  /\ interactions a = [].
Proof. vm_compute. repeat split. Qed.

(** C8. Scenario C: the single line FADE IN: registers neither FADE nor
    IN; the registry holds the one name FADE IN. *)
Theorem fade_in_not_registered :
  let a := parseScreenplay (lit "FADE IN:") in
  ~ In (lit "FADE") (a_characters a) /\ ~ In (lit "IN") (a_characters a)
  /\ ~ In (lit "FADE") (movieCharacters a) /\ ~ In (lit "IN") (movieCharacters a)
  /\ a_characters a = [lit "FADE IN"].
Proof.
  vm_compute. repeat split; intros [H|[]]; discriminate H.
Qed.

(* ================================================================== *)
(** ** What a match says about the text *)
(* ================================================================== *)

Section Soundness.

Variable ic : bool.

Lemma below_within (hi : option nat) (n : nat) :
  below hi n = true -> within hi (S n).
Proof.
  destruct hi as [h|]; simpl; auto.
  intros H. apply Nat.ltb_lt in H. lia.
Qed.

Lemma rep_greedy_sound (cs : cset) (lo : nat) (hi : option nat)
    (k : str -> str -> option mstate) (res : mstate) :
  forall q n p,
    within hi n ->
    rep_greedy ic cs lo hi n p q k = Some res ->
    exists w q',
      q = w ++ q' /\ Forall (fun c => mem ic cs c = true) w
      /\ lo <= n + length w /\ within hi (n + length w)
      /\ k (rev w ++ p) q' = Some res.
Proof.
  assert (Stop : forall q n p,
             within hi n ->
             (if lo <=? n then k p q else None) = Some res ->
             exists w q',
               q = w ++ q' /\ Forall (fun c => mem ic cs c = true) w
               /\ lo <= n + length w /\ within hi (n + length w)
               /\ k (rev w ++ p) q' = Some res).
  { intros q n p Hn H. destruct (lo <=? n) eqn:E; [|discriminate].
    apply Nat.leb_le in E. exists [], q. simpl.
    rewrite Nat.add_0_r. auto. }
  induction q as [|c t IH]; intros n p Hn H; simpl in H.
  - now apply Stop.
  - destruct (mem ic cs c && below hi n) eqn:E; [|now apply Stop].
    apply andb_prop in E. destruct E as [Em Eb].
    destruct (rep_greedy ic cs lo hi (S n) (c :: p) t k) as [r|] eqn:Er;
      [|now apply Stop].
    injection H as <-.
    destruct (IH (S n) (c :: p) (below_within hi n Eb) Er)
      as (w & q' & -> & Hw & Hlo & Hhi & Hk).
    exists (c :: w), q'. simpl. rewrite <- app_assoc. simpl.
    rewrite Nat.add_succ_r. auto.
Qed.

Lemma rep_lazy_sound (cs : cset) (lo : nat) (hi : option nat)
    (k : str -> str -> option mstate) (res : mstate) :
  forall q n p,
    within hi n ->
    rep_lazy ic cs lo hi n p q k = Some res ->
    exists w q',
      q = w ++ q' /\ Forall (fun c => mem ic cs c = true) w
      /\ lo <= n + length w /\ within hi (n + length w)
      /\ k (rev w ++ p) q' = Some res.
Proof.
  induction q as [|c t IH]; intros n p Hn H.
  - simpl in H. destruct (lo <=? n) eqn:E; [|discriminate].
    destruct (k p []) eqn:Ek; [|discriminate]. injection H as <-.
    apply Nat.leb_le in E. exists [], []. simpl.
    rewrite Nat.add_0_r. auto.
  - simpl in H.
    assert (More : (if mem ic cs c && below hi n
                    then rep_lazy ic cs lo hi (S n) (c :: p) t k else None)
                   = Some res ->
                   exists w q',
                     c :: t = w ++ q' /\ Forall (fun c => mem ic cs c = true) w
                     /\ lo <= n + length w /\ within hi (n + length w)
                     /\ k (rev w ++ p) q' = Some res).
    { intros M. destruct (mem ic cs c && below hi n) eqn:E; [|discriminate].
      apply andb_prop in E. destruct E as [Em Eb].
      destruct (IH (S n) (c :: p) (below_within hi n Eb) M)
        as (w & q' & -> & Hw & Hlo & Hhi & Hk).
      exists (c :: w), q'. simpl. rewrite <- app_assoc. simpl.
      rewrite Nat.add_succ_r. auto. }
    destruct (lo <=? n) eqn:E; [|now apply More].
    destruct (k p (c :: t)) eqn:Ek; [|now apply More].
    injection H as <-. apply Nat.leb_le in E.
    exists [], (c :: t). simpl. rewrite Nat.add_0_r. auto.
Qed.

Variable Q : nat -> str -> Prop.

(** A successful match splits the text ahead into the matched units and the
    rest, the matched units are in the relation [sem], and the captures
    satisfy [Q]. *)
Lemma rmatch_sound (r : regex) :
  captures ic Q r ->
  forall st k res,
    caps_ok Q (caps st) ->
    rmatch ic r st k = Some res ->
    exists w q' cs',
      post st = w ++ q' /\ sem ic r (pre st) w q' /\ caps_ok Q cs'
      /\ k (MState (rev w ++ pre st) q' cs') = Some res.
Proof.
  induction r as [|cs|cs lo hi g|a IHa b IHb|a IHa b IHb|a IHa|i a IHa| | |];
    intros Hc [p q cs0] k res Hq H; simpl in *.
  - exists [], q, cs0. auto.
  - destruct q as [|c t]; [discriminate|].
    destruct (mem ic cs c) eqn:E; [|discriminate].
    exists [c], t, cs0. simpl. eauto 6.
  - assert (S : exists w q',
               q = w ++ q' /\ Forall (fun c => mem ic cs c = true) w
               /\ lo <= 0 + length w /\ within hi (0 + length w)
               /\ k (MState (rev w ++ p) q' cs0) = Some res).
    { destruct g.
      - apply (rep_greedy_sound cs lo hi
                 (fun p' q' => k (MState p' q' cs0)) res q 0 p);
          [destruct hi; simpl; auto; lia | exact H].
      - apply (rep_lazy_sound cs lo hi
                 (fun p' q' => k (MState p' q' cs0)) res q 0 p);
          [destruct hi; simpl; auto; lia | exact H]. }
    destruct S as (w & q' & -> & Hw & Hlo & Hhi & Hk).
    exists w, q', cs0. auto 7.
  - destruct Hc as [Ha Hb].
    destruct (IHa Ha (MState p q cs0) _ _ Hq H)
      as (w1 & q1 & cs1 & E1 & S1 & Cq1 & K1).
    simpl in *. subst q.
    destruct (IHb Hb (MState (rev w1 ++ p) q1 cs1) _ _ Cq1 K1)
      as (w2 & q2 & cs2 & E2 & S2 & Cq2 & K2).
    simpl in *. subst q1.
    exists (w1 ++ w2), q2, cs2. rewrite <- app_assoc. split; auto.
    split; [exists w1, w2; auto|]. split; auto.
    now rewrite rev_app_distr, <- app_assoc.
  - destruct Hc as [Ha Hb].
    destruct (rmatch ic a (MState p q cs0) k) as [x|] eqn:E.
    + injection H as <-.
      destruct (IHa Ha (MState p q cs0) _ _ Hq E)
        as (w & q' & cs' & E1 & S1 & Cq1 & K1).
      exists w, q', cs'. auto.
    + destruct (IHb Hb (MState p q cs0) _ _ Hq H)
        as (w & q' & cs' & E1 & S1 & Cq1 & K1).
      exists w, q', cs'. auto.
  - destruct (rmatch ic a (MState p q cs0) k) as [x|] eqn:E.
    + injection H as <-.
      destruct (IHa Hc (MState p q cs0) _ _ Hq E)
        as (w & q' & cs' & E1 & S1 & Cq1 & K1).
      exists w, q', cs'. auto.
    + exists [], q, cs0. auto.
  - destruct Hc as [Hi Ha].
    destruct (IHa Ha (MState p q cs0) _ _ Hq H)
      as (w & q' & cs' & E1 & S1 & Cq1 & K1).
    simpl in *. subst q.
    rewrite length_app, Nat.add_sub, firstn_app, Nat.sub_diag, firstn_all in K1.
    simpl in K1. rewrite app_nil_r in K1.
    exists w, q', ((i, w) :: cs'). repeat split; auto.
    intros j v [[= <- <-]|Hin]; [eapply Hi; eauto | now apply Cq1].
  - destruct p; [|discriminate]. exists [], q, cs0. auto.
  - destruct q; [|discriminate]. exists [], [], cs0. auto.
  - destruct (xorb (at_word (hd_error p)) (at_word (hd_error q))) eqn:E;
      [|discriminate].
    exists [], q, cs0. auto.
Qed.

(** The same for a search from the left. *)
Lemma search_sound (r : regex) :
  captures ic Q r ->
  forall q p st0 st1,
    search ic r p q = Some (st0, st1) ->
    exists u w q',
      q = u ++ w ++ q'
      /\ st0 = MState (rev u ++ p) (w ++ q') []
      /\ pre st1 = rev w ++ rev u ++ p /\ post st1 = q'
      /\ sem ic r (rev u ++ p) w q' /\ caps_ok Q (caps st1).
Proof.
  intros Hc. induction q as [|c t IH]; intros p st0 st1 H; simpl in H.
  - destruct (rmatch ic r (MState p [] []) Some) as [st|] eqn:E; [|discriminate].
    injection H as <- <-.
    destruct (rmatch_sound r Hc (MState p _ []) _ _
                  (fun i w (F : In (i, w) []) => match F with end) E)
      as (w & q' & cs' & E1 & S1 & Cq1 & [= <-]).
    simpl in *. exists [], w, q'. simpl. now rewrite <- E1.
  - destruct (rmatch ic r (MState p (c :: t) []) Some) as [st|] eqn:E.
    + injection H as <- <-.
      destruct (rmatch_sound r Hc (MState p _ []) _ _
                  (fun i w (F : In (i, w) []) => match F with end) E)
        as (w & q' & cs' & E1 & S1 & Cq1 & [= <-]).
      simpl in *. exists [], w, q'. simpl. now rewrite <- E1.
    + destruct (IH _ _ _ H) as (u & w & q' & -> & -> & E2 & E3 & S1 & Cq1).
      exists (c :: u), w, q'. simpl. rewrite <- !app_assoc. simpl. auto 7.
Qed.

End Soundness.

Lemma lookup_ok (Q : nat -> str -> Prop) (i : nat) (l : list (nat * str)) :
  caps_ok Q l -> match lookup i l with Some x => Q i x | None => True end.
Proof.
  induction l as [|[j x] l IH]; simpl; auto. intros Hl.
  destruct (i =? j) eqn:E.
  - apply Nat.eqb_eq in E. subst j. apply Hl. now left.
  - apply IH. intros k y Hy. apply Hl. now right.
Qed.

Lemma captures_any (ic : bool) (r : regex) : captures ic (fun _ _ => True) r.
Proof. induction r; simpl; auto. Qed.

(** A group that lies on every way through the pattern is recorded by every
    match. *)
Lemma rmatch_binds (ic : bool) (i : nat) (r : regex) :
  forall st k res,
    rmatch ic r st k = Some res ->
    exists st',
      k st' = Some res
      /\ (lookup i (caps st) <> None -> lookup i (caps st') <> None)
      /\ (binds i r = true -> lookup i (caps st') <> None).
Proof.
  induction r as [|cs|cs lo hi g|a IHa b IHb|a IHa b IHb|a IHa|j a IHa| | |];
    intros [p q cs0] k res H; simpl in *.
  - exists (MState p q cs0). repeat split; auto. discriminate.
  - destruct q as [|c t]; [discriminate|].
    destruct (mem ic cs c); [|discriminate].
    exists (MState (c :: p) t cs0). repeat split; auto. discriminate.
  - assert (S : exists p' q', k (MState p' q' cs0) = Some res).
    { destruct g.
      - destruct (rep_greedy_sound ic cs lo hi
                    (fun p' q' => k (MState p' q' cs0)) res q 0 p)
          as (w & q' & _ & _ & _ & _ & K); [destruct hi; simpl; auto; lia|exact H|].
        eauto.
      - destruct (rep_lazy_sound ic cs lo hi
                    (fun p' q' => k (MState p' q' cs0)) res q 0 p)
          as (w & q' & _ & _ & _ & _ & K); [destruct hi; simpl; auto; lia|exact H|].
        eauto. }
    destruct S as (p' & q' & K).
    exists (MState p' q' cs0). repeat split; auto. discriminate.
  - destruct (IHa _ _ _ H) as (st1 & K1 & P1 & B1).
    destruct (IHb _ _ _ K1) as (st2 & K2 & P2 & B2).
    exists st2. repeat split; auto.
    intros B. apply orb_prop in B. destruct B; auto.
  - destruct (rmatch ic a (MState p q cs0) k) as [x|] eqn:E.
    + injection H as <-.
      destruct (IHa _ _ _ E) as (st1 & K1 & P1 & B1).
      exists st1. repeat split; auto.
      intros B. apply andb_prop in B. destruct B; auto.
    + destruct (IHb _ _ _ H) as (st1 & K1 & P1 & B1).
      exists st1. repeat split; auto.
      intros B. apply andb_prop in B. destruct B; auto.
  - destruct (rmatch ic a (MState p q cs0) k) as [x|] eqn:E.
    + injection H as <-.
      destruct (IHa _ _ _ E) as (st1 & K1 & P1 & B1).
      exists st1. repeat split; auto. discriminate.
    + exists (MState p q cs0). repeat split; auto. discriminate.
  - destruct (IHa _ _ _ H) as (st1 & K1 & P1 & B1). simpl in *.
    eexists. split; [exact K1|]. simpl.
    destruct (i =? j); simpl; split; intros; try discriminate; auto.
  - destruct p; [|discriminate].
    exists (MState [] q cs0). repeat split; auto. discriminate.
  - destruct q; [|discriminate].
    exists (MState p [] cs0). repeat split; auto. discriminate.
  - destruct (xorb (at_word (hd_error p)) (at_word (hd_error q)));
      [|discriminate].
    exists (MState p q cs0). repeat split; auto. discriminate.
Qed.

Lemma exec_binds (ic : bool) (i : nat) (r : regex) (s : str)
    (m : mstate * mstate) :
  binds i r = true -> exec ic r s = Some m -> group i m <> None.
Proof.
  intros B. unfold exec, group. generalize (@nil N).
  induction s as [|c t IH]; intros p H; simpl in H.
  - destruct (rmatch ic r (MState p [] []) Some) as [st|] eqn:E; [|discriminate].
    injection H as <-. simpl.
    destruct (rmatch_binds ic i r _ _ _ E) as (st' & [= <-] & _ & K). auto.
  - destruct (rmatch ic r (MState p (c :: t) []) Some) as [st|] eqn:E.
    + injection H as <-. simpl.
      destruct (rmatch_binds ic i r _ _ _ E) as (st' & [= <-] & _ & K). auto.
    + eapply IH; eauto.
Qed.

(** Every group the analyzer reads takes part in every match of its
    pattern. *)
Lemma groups_take_part :
  binds 1 charRe = true /\ binds 2 charRe = true
  /\ binds 1 locRe = true /\ binds 1 timeRe = true.
Proof. repeat split. Qed.

(* ================================================================== *)
(** ** String operations *)
(* ================================================================== *)

Lemma trimStart_suffix (s : str) : exists u, s = u ++ trimStart s.
Proof.
  induction s as [|c r [u IH]]; simpl.
  - now exists [].
  - destruct (isSpace c); [|now exists []].
    exists (c :: u). simpl. now rewrite <- IH.
Qed.

Lemma trimStart_clean (s : str) :
  match trimStart s with c :: _ => isSpace c = false | [] => True end.
Proof.
  induction s as [|c r IH]; simpl; auto.
  destruct (isSpace c) eqn:E; auto.
Qed.

Lemma trimStart_fix (s : str) :
  match s with c :: _ => isSpace c = false | [] => True end ->
  trimStart s = s.
Proof. destruct s as [|c r]; simpl; auto. now intros ->. Qed.

(** [trim] keeps a contiguous part of the string. *)
Lemma trim_part (s : str) : exists u v, s = u ++ trim s ++ v.
Proof.
  unfold trim, trimEnd.
  destruct (trimStart_suffix s) as [u Hu].
  destruct (trimStart_suffix (rev (trimStart s))) as [v Hv].
  exists u, (rev v). rewrite <- rev_app_distr, <- Hv, rev_involutive.
  exact Hu.
Qed.

Lemma Forall_trim (P : N -> Prop) (s : str) :
  Forall P s -> Forall P (trim s).
Proof.
  destruct (trim_part s) as (u & v & E). intros H. rewrite E in H.
  apply Forall_app in H. destruct H as [_ H].
  apply Forall_app in H. tauto.
Qed.

Lemma length_trim (s : str) : length (trim s) <= length s.
Proof.
  destruct (trim_part s) as (u & v & E).
  rewrite E at 2. rewrite !length_app. lia.
Qed.

(** A trimmed string is left alone by [trim]. *)
Lemma trim_idem (s : str) : trim (trim s) = trim s.
Proof.
  unfold trim at 2. unfold trimEnd.
  set (a := trimStart s). set (b := trimStart (rev a)).
  assert (Ca : match a with c :: _ => isSpace c = false | [] => True end)
    by apply trimStart_clean.
  assert (Cb : match b with c :: _ => isSpace c = false | [] => True end)
    by apply trimStart_clean.
  assert (Cr : match rev b with c :: _ => isSpace c = false | [] => True end).
  { destruct (trimStart_suffix (rev a)) as [u Hu]. fold b in Hu.
    apply (f_equal (@rev N)) in Hu.
    rewrite rev_involutive, rev_app_distr in Hu.
    destruct (rev b) as [|c r]; auto. rewrite Hu in Ca. exact Ca. }
  unfold trim, trimEnd.
  rewrite (trimStart_fix (rev b) Cr), rev_involutive.
  now rewrite (trimStart_fix b Cb).
Qed.

(** [replace] either leaves the string alone or cuts a match out of it. *)
Lemma replace_cases (ic : bool) (r : regex) (by_ s : str) :
  replace ic r by_ s = s
  \/ exists u w q,
       s = u ++ w ++ q /\ replace ic r by_ s = u ++ by_ ++ q
       /\ sem ic r (rev u) w q.
Proof.
  unfold replace, exec.
  destruct (search ic r [] s) as [[st0 st1]|] eqn:E; auto.
  destruct (search_sound ic (fun _ _ => True) r (captures_any ic r) s [] st0 st1 E)
    as (u & w & q' & -> & -> & E2 & E3 & S1 & _).
  right. exists u, w, q'. simpl. rewrite app_nil_r in *.
  rewrite E3, rev_involutive. auto.
Qed.

Lemma Forall_replace (P : N -> Prop) (ic : bool) (r : regex) (by_ s : str) :
  Forall P by_ -> Forall P s -> Forall P (replace ic r by_ s).
Proof.
  intros Hb Hs.
  destruct (replace_cases ic r by_ s) as [->|(u & w & q & E & -> & _)]; auto.
  rewrite E in Hs. apply Forall_app in Hs. destruct Hs as [Hu Hs].
  apply Forall_app in Hs. destruct Hs as [_ Hq].
  apply Forall_app; split; auto. apply Forall_app; split; auto.
Qed.

Lemma length_replace_nil (ic : bool) (r : regex) (s : str) :
  length (replace ic r [] s) <= length s.
Proof.
  destruct (replace_cases ic r [] s) as [->|(u & w & q & E & -> & _)]; auto.
  rewrite E. simpl. rewrite !length_app. lia.
Qed.

Lemma Forall_replace_all_from (P : N -> Prop) (ic : bool) (r : regex)
    (by_ : str) :
  Forall P by_ ->
  forall fuel p q, Forall P q -> Forall P (replace_all_from fuel ic r by_ p q).
Proof.
  intros Hb. induction fuel as [|n IH]; intros p q Hq; simpl; auto.
  destruct (search ic r p q) as [[st0 st1]|] eqn:E; auto.
  destruct (search_sound ic (fun _ _ => True) r (captures_any ic r) q p st0 st1 E)
    as (u & w & q' & -> & -> & E2 & E3 & S1 & _).
  simpl. rewrite E3. rewrite !length_app.
  replace (length u + (length w + length q') - (length w + length q'))
    with (length u) by lia.
  rewrite firstn_app, Nat.sub_diag, firstn_all. simpl. rewrite app_nil_r.
  apply Forall_app in Hq. destruct Hq as [Hu Hq].
  apply Forall_app in Hq. destruct Hq as [Hw Hq'].
  destruct (length w + length q' =? length q').
  - destruct q' as [|c t].
    + apply Forall_app; split; auto.
    + apply Forall_app; split; auto. apply Forall_app; split; auto.
      inversion Hq'; subst. constructor; auto.
  - apply Forall_app; split; auto. apply Forall_app; split; auto.
Qed.

(** The fuel of [replace_all] is never used up: more fuel gives the same
    string. *)
Lemma replace_all_from_fuel (ic : bool) (r : regex) (by_ : str) :
  forall fuel p q k,
    length q < fuel ->
    replace_all_from (fuel + k) ic r by_ p q
    = replace_all_from fuel ic r by_ p q.
Proof.
  induction fuel as [|n IH]; intros p q k Hq; [lia|]. simpl.
  destruct (search ic r p q) as [[st0 st1]|] eqn:E; auto.
  destruct (search_sound ic (fun _ _ => True) r (captures_any ic r) q p st0 st1 E)
    as (u & w & q' & -> & -> & E2 & E3 & S1 & _).
  simpl. rewrite E3. rewrite !length_app in *.
  destruct (length w + length q' =? length q') eqn:El.
  - destruct q' as [|c t]; auto. simpl in Hq.
    rewrite IH by lia. reflexivity.
  - apply Nat.eqb_neq in El. rewrite IH by lia. reflexivity.
Qed.

Lemma Forall_replace_all (P : N -> Prop) (ic : bool) (r : regex) (by_ s : str) :
  Forall P by_ -> Forall P s -> Forall P (replace_all ic r by_ s).
Proof. intros Hb Hs. now apply Forall_replace_all_from. Qed.

Lemma Forall_normalize (P : N -> Prop) (name : str) :
  P 32%N -> Forall P name -> Forall P (normalize name).
Proof.
  intros Hsp H. unfold normalize.
  apply Forall_trim, Forall_replace_all; [repeat constructor; exact Hsp|].
  apply Forall_replace; [constructor|]. now apply Forall_trim.
Qed.

(** *** What the patterns of the cue branches say *)

Lemma lit_mem (c p : N) : mem false [CLit p] c = true -> c = p.
Proof.
  simpl. rewrite orb_false_r. apply N.eqb_eq.
Qed.

(** A parenthetical starts with an opening parenthesis. *)
Lemma parenRe_paren (p w q : str) : sem false parenRe p w q -> In 40%N w.
Proof.
  simpl. intros (u & v & -> & _ & u' & v' & -> & (c & -> & Hc) & _).
  apply lit_mem in Hc. subst c. apply in_or_app. right. now left.
Qed.

Lemma replace_parenRe_none (s : str) :
  ~ In 40%N s -> replace false parenRe [] s = s.
Proof.
  intros Hn.
  destruct (replace_cases false parenRe [] s) as [E|(u & w & q & E & _ & S)]; auto.
  exfalso. apply Hn. rewrite E. apply in_or_app. right.
  apply in_or_app. left. eapply parenRe_paren; eauto.
Qed.

(** A line that passes the cue-alone pattern is made of capital letters,
    apostrophes and white space. *)
Lemma cueAloneRe_units (t : str) :
  test false cueAloneRe t = true ->
  Forall (fun c => mem false [CRange 65 90; CLit 39; CSpace] c = true) t.
Proof.
  unfold test, exec.
  destruct (search false cueAloneRe [] t) as [[st0 st1]|] eqn:E; [|discriminate].
  intros _.
  destruct (search_sound false (fun _ _ => True) cueAloneRe
              (captures_any false cueAloneRe) t [] st0 st1 E)
    as (u & w & q' & -> & _ & _ & _ & S & _).
  simpl in S.
  destruct S as (u1 & v1 & -> & (-> & Hp) & u2 & v2 & -> & (Hw & _) & -> & ->).
  rewrite app_nil_r in Hp. apply (f_equal (@rev N)) in Hp.
  rewrite rev_involutive in Hp. simpl in Hp. subst u.
  simpl. now rewrite !app_nil_r.
Qed.

Lemma cueAlone_character (line : str) :
  let t := trim line in
  test false cueAloneRe t = true ->
  replace false parenRe [] (trim t) = t.
Proof.
  intros t Ht. unfold t. rewrite trim_idem. apply replace_parenRe_none.
  intros Hin. pose proof (cueAloneRe_units _ Ht) as Hu.
  rewrite Forall_forall in Hu. specialize (Hu _ Hin). discriminate Hu.
Qed.

(** The name captured by the cue pattern, once normalized, has no vertical
    bar: its units are capital letters, white space, or one of the five
    marks of the class. *)
Lemma charRe_name (t : str) (m : mstate * mstate) :
  exec false charRe t = Some m ->
  Forall (fun c => c <> 124%N) (normalize (grp 1 m)).
Proof.
  intros E. apply Forall_normalize; [discriminate|].
  destruct m as [st0 st1]. unfold exec in E.
  pose (Q := fun (i : nat) (w : str) =>
               i = 1 -> Forall (fun c : N => c <> 124%N) w).
  assert (Bar : forall cs c, mem false cs c = true ->
                             mem false cs 124 = false -> c <> 124%N)
    by (intros cs c H1 H2 ->; congruence).
  assert (Hc : captures false Q charRe).
  { simpl. repeat split; auto; unfold Q.
    - intros p w q (u & v & -> & (c & -> & Hc) & Hv & _) _.
      apply Forall_app; split.
      + constructor; [|constructor].
        apply (Bar [CRange 65 90] c); [exact Hc|reflexivity].
      + eapply Forall_impl; [|exact Hv]. intros a Ha.
        apply (Bar nameClass a); [exact Ha|reflexivity].
    - intros p w q _ [=]. }
  destruct (search_sound false Q charRe Hc t [] st0 st1 E)
    as (u & w & q' & _ & _ & _ & _ & _ & C).
  unfold grp, group. simpl.
  pose proof (lookup_ok Q 1 _ C) as L.
  destruct (lookup 1 (caps st1)); [exact (L eq_refl)|constructor].
Qed.

(* ================================================================== *)
(** ** The character registry *)
(* ================================================================== *)

Lemma arr_includes_In (x : str) (l : list str) :
  arr_includes x l = true <-> In x l.
Proof.
  unfold arr_includes. rewrite existsb_exists. split.
  - intros (y & Hy & E). unfold str_eqb in E.
    destruct (list_eq_dec N.eq_dec x y); [now subst|discriminate].
  - intros H. exists x. split; auto. unfold str_eqb.
    now destruct (list_eq_dec N.eq_dec x x).
Qed.

Lemma set_add_In (x y : str) (s : list str) :
  In y (set_add x s) <-> y = x \/ In y s.
Proof.
  unfold set_add. destruct (arr_includes x s) eqn:E.
  - apply arr_includes_In in E. split; auto. intros [->|H]; auto.
  - rewrite in_app_iff. simpl. intuition.
Qed.

Lemma insert_In (x y : str) (l : list str) :
  In y (JS.insert x l) <-> y = x \/ In y l.
Proof.
  induction l as [|z r IH]; simpl.
  - intuition.
  - destruct (ltb z x); simpl; [rewrite IH|]; intuition.
Qed.

Lemma sort_In (y : str) (l : list str) : In y (JS.sort l) <-> In y l.
Proof.
  induction l as [|x r IH]; simpl; [tauto|].
  rewrite insert_In, IH. intuition.
Qed.

Lemma registered_init : registered init.
Proof. split; simpl; auto. intros x []. Qed.

Lemma saveScene_registered (s : loop) : registered s -> registered (saveScene s).
Proof.
  intros [Hv Ho Hs Hd]. unfold saveScene.
  destruct (currentScene s) as [h|]; [|now split].
  destruct (truthy h); [|now split].
  split; simpl; auto.
  apply Forall_app; split; auto. constructor; [|constructor].
  unfold sceneCharacterList. simpl.
  replace (match nonempty_or_null (currentSceneCharacters s) with
           | Some l => l
           | None => []
           end) with (currentSceneCharacters s)
    by (now destruct (currentSceneCharacters s)).
  exact Ho.
Qed.

Lemma addCharacter_registered (c : str) (s : loop) :
  validName c -> registered s -> registered (addCharacter c s).
Proof.
  intros Hc [Hv Ho Hs Hd]. split; simpl.
  - unfold set_add. destruct (arr_includes c (characters s)); auto.
    apply Forall_app; split; auto.
  - intros x Hx. apply set_add_In.
    destruct (arr_includes c (currentSceneCharacters s)).
    + right. now apply Ho.
    + apply in_app_or in Hx. destruct Hx as [Hx|[<-|[]]]; auto.
  - eapply Forall_impl; [|exact Hs]. intros sc Hsc x Hx.
    apply set_add_In. right. now apply Hsc.
  - eapply Forall_impl; [|exact Hd]. intros d Hin.
    apply set_add_In. now right.
Qed.

Lemma addCharacter_has (c : str) (s : loop) :
  In c (characters (addCharacter c s)).
Proof. simpl. apply set_add_In. now left. Qed.

Lemma addDialogue_registered (i : nat) (c d : str) (s : loop) :
  In c (characters s) -> registered s -> registered (addDialogue i c d s).
Proof.
  intros Hc [Hv Ho Hs Hd]. split; simpl; auto.
  apply Forall_app; split; auto.
Qed.

Lemma step_registered (i : nat) (line : str) (s : loop) :
  registered s -> registered (step i line s).
Proof.
  intros H. unfold step.
  destruct (truthy (trim line)) eqn:Ht; simpl; auto.
  destruct (classify (trim line)) eqn:Hk.
  - destruct (saveScene_registered s H) as [Hv Ho Hs Hd].
    split; simpl; auto. intros x [].
  - destruct (exec false charRe (trim line)) as [m|]; auto.
    set (character := normalize (grp 1 m)).
    destruct (truthy character); simpl; auto.
    destruct (1 <? length character) eqn:E1; simpl; auto.
    destruct (length character <? 50) eqn:E2; simpl; auto.
    destruct (test true invalidPatterns character); simpl; auto.
    assert (Hc : validName character).
    { apply Nat.ltb_lt in E1, E2. split; auto. }
    destruct (truthy (trim (grp 2 m))).
    + apply addDialogue_registered;
        [apply addCharacter_has | now apply addCharacter_registered].
    + now apply addCharacter_registered.
  - unfold classify in Hk.
    destruct (test true sceneRe (trim line)); [discriminate|].
    destruct (includes 58 (trim line) && (length (trim line) <? 200));
      [discriminate|].
    destruct (test false cueAloneRe (trim line)) eqn:Ea; simpl in Hk.
    2:{ destruct (test false cueExtRe (trim line) && (length (trim line) <? 50));
          discriminate. }
    destruct (2 <? length (trim line)) eqn:E1; simpl in Hk.
    2:{ destruct (test false cueExtRe (trim line) && (length (trim line) <? 50));
          discriminate. }
    destruct (length (trim line) <? 30) eqn:E2; simpl in Hk.
    2:{ destruct (test false cueExtRe (trim line) && (length (trim line) <? 50));
          discriminate. }
    rewrite (cueAlone_character line Ea).
    match goal with
    | |- registered (if ?b then _ else _) => destruct b
    end; auto.
    apply addCharacter_registered; auto.
    apply Nat.ltb_lt in E1, E2. split; lia.
  - unfold classify in Hk.
    destruct (test true sceneRe (trim line)); [discriminate|].
    destruct (includes 58 (trim line) && (length (trim line) <? 200));
      [discriminate|].
    destruct (test false cueAloneRe (trim line) && (2 <? length (trim line))
              && (length (trim line) <? 30)); [discriminate|].
    destruct (test false cueExtRe (trim line)); simpl in Hk; [|discriminate].
    destruct (length (trim line) <? 50) eqn:E2; [|discriminate].
    set (character := replace false parenRe [] (trim (trim line))).
    destruct (truthy character); simpl; auto.
    destruct (1 <? length character) eqn:E1; auto.
    apply addCharacter_registered; auto.
    apply Nat.ltb_lt in E1, E2. split; auto.
    pose proof (length_replace_nil false parenRe (trim (trim line))) as L1.
    pose proof (length_trim (trim line)) as L2. fold character in L1. lia.
  - destruct H as [Hv Ho Hs Hd]. split; simpl; auto.
Qed.

Lemma run_registered (lines : list str) :
  forall i s, registered s -> registered (run i lines s).
Proof.
  induction lines as [|l r IH]; simpl; auto using step_registered.
Qed.

Lemma movieCharacters_In (lines : list str) (c : str) :
  In c (characters (finish lines)) -> In c (movieCharacters (parseLines lines)).
Proof.
  intros H. simpl. apply sort_In, filter_In. split; auto.
  pose proof (rg_valid _ (saveScene_registered _
                (run_registered lines 0 init registered_init))) as Hv.
  rewrite Forall_forall in Hv. destruct (Hv c H) as [H1 H2].
  apply andb_true_intro. split; now apply Nat.ltb_lt.
Qed.

(** C10. For every input text, every name in the character list of a
    scene and the character of every dialogue entry is a member of the
    sorted character output. *)
Theorem names_in_character_output (text : str) :
  let a := parseScreenplay text in
  Forall (fun sc => incl (sceneCharacterList sc) (movieCharacters a)) (a_scenes a)
  /\ Forall (fun d => In (d_characters d) (movieCharacters a)) (a_dialogues a).
Proof.
  unfold parseScreenplay. set (lines := split 10 text).
  pose proof (saveScene_registered _
                (run_registered lines 0 init registered_init)) as [Hv Ho Hs Hd].
  fold (finish lines) in Hv, Ho, Hs, Hd.
  split.
  - change (a_scenes (parseLines lines)) with (scenes (finish lines)).
    eapply Forall_impl; [|exact Hs]. intros sc Hsc x Hx.
    apply movieCharacters_In. now apply Hsc.
  - change (a_dialogues (parseLines lines)) with (dialogues (finish lines)).
    eapply Forall_impl; [|exact Hd]. intros d Hin.
    now apply movieCharacters_In.
Qed.

(* ================================================================== *)
(** ** The interaction pass *)
(* ================================================================== *)

(** *** The order on strings and the keys *)

Lemma ltb_irrefl (a : str) : ltb a a = false.
Proof.
  induction a as [|x a IH]; simpl; auto. now rewrite N.ltb_irrefl.
Qed.

Lemma ltb_asym (a : str) : forall b, ltb a b = true -> ltb b a = false.
Proof.
  induction a as [|x a IH]; intros [|y b]; simpl; auto; try discriminate.
  destruct (x <? y)%N eqn:E1, (y <? x)%N eqn:E2; auto; try discriminate.
  apply N.ltb_lt in E1, E2. lia.
Qed.

Lemma ltb_total (a : str) :
  forall b, a <> b -> ltb a b = true \/ ltb b a = true.
Proof.
  induction a as [|x a IH]; intros [|y b] H; simpl; auto.
  destruct (x <? y)%N eqn:E1; auto. destruct (y <? x)%N eqn:E2; auto.
  apply N.ltb_ge in E1, E2. assert (x = y) by lia. subst y.
  apply IH. congruence.
Qed.

Lemma interactionKey_eq (a b : str) :
  interactionKey a b
  = if ltb b a then b ++ 124%N :: a else a ++ 124%N :: b.
Proof.
  unfold interactionKey. simpl. now destruct (ltb b a).
Qed.

Lemma interactionKey_sym (a b : str) : interactionKey a b = interactionKey b a.
Proof.
  rewrite !interactionKey_eq.
  destruct (ltb b a) eqn:E1.
  - now rewrite (ltb_asym b a E1).
  - destruct (ltb a b) eqn:E2; auto.
    destruct (list_eq_dec N.eq_dec a b) as [->|Hne]; auto.
    destruct (ltb_total a b Hne); congruence.
Qed.

(** The key is the smaller name, a bar, the larger name. *)
Lemma interactionKey_sorted (a b : str) :
  a <> b ->
  exists x y,
    ltb x y = true /\ interactionKey a b = x ++ lit "|" ++ y
    /\ ((a = x /\ b = y) \/ (a = y /\ b = x)).
Proof.
  intros Hne. rewrite interactionKey_eq.
  destruct (ltb b a) eqn:E.
  - exists b, a. auto.
  - exists a, b. destruct (ltb_total a b Hne); [auto|congruence].
Qed.

Lemma bar_split (x : str) :
  forall x' y y',
    noBar x -> noBar x' -> x ++ 124%N :: y = x' ++ 124%N :: y' ->
    x = x' /\ y = y'.
Proof.
  induction x as [|c x IH]; intros [|c' x'] y y' Hx Hx' E; simpl in E.
  - injection E as <-. auto.
  - injection E as <- _. inversion Hx'; subst. congruence.
  - injection E as -> _. inversion Hx; subst. congruence.
  - injection E as <- E. inversion Hx; inversion Hx'; subst.
    destruct (IH x' y y') as [-> ->]; auto.
Qed.

(** On names without a bar the key determines the unordered pair. *)
Lemma interactionKey_inj (a b c d : str) :
  noBar a -> noBar b -> noBar c -> noBar d ->
  interactionKey a b = interactionKey c d ->
  (a = c /\ b = d) \/ (a = d /\ b = c).
Proof.
  intros Ha Hb Hc Hd. rewrite !interactionKey_eq.
  destruct (ltb b a), (ltb d c); intros E;
    apply bar_split in E; auto; destruct E as [-> ->]; auto.
Qed.

(** *** The pairs of a scene *)

Lemma pairs_In (l : list str) (a b : str) :
  In (a, b) (pairs l) -> In a l /\ In b l.
Proof.
  induction l as [|x r IH]; simpl; [tauto|].
  intros H. apply in_app_or in H. destruct H as [H|H].
  - apply in_map_iff in H. destruct H as (y & [= <- <-] & Hy). auto.
  - destruct (IH H). auto.
Qed.

Lemma pairs_distinct (l : list str) :
  NoDup l -> Forall (fun p => fst p <> snd p) (pairs l).
Proof.
  induction 1 as [|x r Hx Hr IH]; simpl; [constructor|].
  apply Forall_app; split; auto.
  apply Forall_forall. intros [a b] H.
  apply in_map_iff in H. destruct H as (y & [= <- <-] & Hy).
  simpl. congruence.
Qed.

Lemma row_keys (x : str) (r : list str) :
  ~ In x r -> NoDup r -> noBar x -> (forall y, In y r -> noBar y) ->
  NoDup (map (fun y => pairKey (x, y)) r).
Proof.
  intros Hx Hr Bx. induction Hr as [|y r Hy Hr IH]; intros Br; simpl.
  - constructor.
  - constructor.
    + intros H. apply in_map_iff in H. destruct H as (z & E & Hz).
      unfold pairKey in E. simpl in E.
      apply interactionKey_inj in E; auto using in_eq, in_cons.
      destruct E as [[_ ->]|[-> _]]; [auto|].
      apply Hx. now left.
    + apply IH; [|auto using in_cons]. intros H. apply Hx. now right.
Qed.

Lemma pairs_keys (l : list str) :
  NoDup l -> Forall noBar l -> NoDup (map pairKey (pairs l)).
Proof.
  induction 1 as [|x r Hx Hr IH]; intros Hb; simpl; [constructor|].
  inversion Hb as [|? ? Bx Br]; subst.
  rewrite Forall_forall in Br.
  rewrite map_app, map_map. apply NoDup_app.
  - now apply row_keys.
  - now apply IH, Forall_forall.
  - intros k H1 H2.
    apply in_map_iff in H1. destruct H1 as (y & <- & Hy).
    apply in_map_iff in H2. destruct H2 as ([a b] & E & Hab).
    destruct (pairs_In r a b Hab) as [Ia Ib].
    unfold pairKey in E. simpl in E.
    apply interactionKey_inj in E; auto.
    destruct E as [[-> _]|[_ ->]]; auto.
Qed.

Lemma set_add_NoDup (x : str) (s : list str) : NoDup s -> NoDup (set_add x s).
Proof.
  intros H. unfold set_add. destruct (arr_includes x s) eqn:E; auto.
  apply NoDup_app; auto.
  - constructor; [intros []|constructor].
  - intros y Hy [<-|[]]. apply arr_includes_In in Hy. congruence.
Qed.

Lemma dedup_spec (l : list str) :
  NoDup (dedup l) /\ incl (dedup l) l.
Proof.
  unfold dedup.
  assert (G : forall acc, NoDup acc ->
                NoDup (fold_left (fun a x => set_add x a) l acc)
                /\ incl (fold_left (fun a x => set_add x a) l acc) (acc ++ l)).
  { induction l as [|x r IH]; intros acc Ha; simpl.
    - split; auto. rewrite app_nil_r. apply incl_refl.
    - destruct (IH (set_add x acc) (set_add_NoDup x acc Ha)) as [N I].
      split; auto. intros y Hy. specialize (I y Hy).
      apply in_app_or in I. destruct I as [I|I].
      + apply set_add_In in I. destruct I as [->|I]; apply in_or_app;
          [right; now left | now left].
      + apply in_or_app. right. now right. }
  destruct (G [] (NoDup_nil _)) as [N I]. split; auto.
Qed.

(** *** Grouping by scene *)

Lemma group_push_keys (d : Dialogue) (m : list (nat * list Dialogue)) :
  map fst (group_push d m)
  = if existsb (Nat.eqb (d_sceneNumber d)) (map fst m) then map fst m
    else map fst m ++ [d_sceneNumber d].
Proof.
  induction m as [|[n ds] r IH]; simpl; auto.
  rewrite (Nat.eqb_sym (d_sceneNumber d) n).
  destruct (n =? d_sceneNumber d); simpl; auto.
  rewrite IH. now destruct (existsb (Nat.eqb (d_sceneNumber d)) (map fst r)).
Qed.

Lemma group_push_NoDup (d : Dialogue) (m : list (nat * list Dialogue)) :
  NoDup (map fst m) -> NoDup (map fst (group_push d m)).
Proof.
  intros H. rewrite group_push_keys.
  destruct (existsb (Nat.eqb (d_sceneNumber d)) (map fst m)) eqn:E; auto.
  apply NoDup_app; auto.
  - constructor; [intros []|constructor].
  - intros n Hn [<-|[]].
    assert (existsb (Nat.eqb (d_sceneNumber d)) (map fst m) = true)
      by (apply existsb_exists; exists (d_sceneNumber d);
          split; auto; apply Nat.eqb_refl).
    congruence.
Qed.

Lemma group_push_members (P : Dialogue -> Prop) (d : Dialogue)
    (m : list (nat * list Dialogue)) :
  P d -> Forall (fun e => Forall P (snd e)) m ->
  Forall (fun e => Forall P (snd e)) (group_push d m).
Proof.
  intros Hd. induction 1 as [|[n ds] r Hn Hr IH]; simpl.
  - repeat constructor. exact Hd.
  - destruct (n =? d_sceneNumber d); constructor; auto.
    simpl in *. apply Forall_app; split; auto.
Qed.

Lemma groupByScene_spec (P : Dialogue -> Prop) (ds : list Dialogue) :
  Forall P ds ->
  NoDup (map fst (groupByScene ds))
  /\ Forall (fun e => Forall P (snd e)) (groupByScene ds).
Proof.
  unfold groupByScene.
  assert (G : forall m,
             Forall P ds -> NoDup (map fst m) ->
             Forall (fun e => Forall P (snd e)) m ->
             NoDup (map fst (fold_left (fun m d => group_push d m) ds m))
             /\ Forall (fun e => Forall P (snd e))
                  (fold_left (fun m d => group_push d m) ds m)).
  { induction ds as [|d r IH]; intros m Hp Hn Hm; simpl; auto.
    inversion Hp; subst.
    apply IH; auto using group_push_NoDup, group_push_members. }
  intros H. apply G; auto; constructor.
Qed.

(** *** The interaction map *)

Lemma str_eqb_eq (a b : str) : str_eqb a b = true <-> a = b.
Proof.
  unfold str_eqb. destruct (list_eq_dec N.eq_dec a b); split;
    auto; discriminate.
Qed.

Lemma has_In (k : str) (m : imap) : has k m = true <-> In k (map fst m).
Proof.
  induction m as [|[k' v] r IH]; simpl.
  - split; [discriminate|tauto].
  - rewrite orb_true_iff, IH, str_eqb_eq. intuition.
Qed.

Lemma bump_keys (k : str) (n : nat) (m : imap) :
  map fst (bump k n m) = map fst m.
Proof.
  induction m as [|[k' v] r IH]; simpl; auto.
  destruct (str_eqb k k'); simpl; auto. now rewrite IH.
Qed.

(** [bump] rewrites the one entry under the key and leaves the others. *)
Lemma bump_Forall (P P' : str * Interaction -> Prop) (k : str) (n : nat)
    (m : imap) :
  NoDup (map fst m) ->
  (forall e, P e -> fst e <> k -> P' e) ->
  (forall v, P (k, v) ->
             P' (k, mkInteraction (character1 v) (character2 v)
                      (i_scenes v ++ [n]) (S (interactionCount v)))) ->
  Forall P m -> Forall P' (bump k n m).
Proof.
  intros Hn Hother Hsame. induction m as [|[k' v] r IH]; intros Hm; simpl.
  - constructor.
  - inversion Hm as [|? ? Hv Hr]; subst.
    inversion Hn as [|? ? Hk Hn']; subst.
    destruct (str_eqb k k') eqn:E.
    + apply str_eqb_eq in E. subst k'. constructor; auto.
      rewrite Forall_forall in *. intros e He. apply Hother; auto.
      intros <-. apply Hk. now apply in_map.
    + constructor; auto. apply Hother; auto. simpl. intros ->.
      rewrite (proj2 (str_eqb_eq k k) eq_refl) in E. discriminate.
Qed.

Lemma entry_ok_done (seen : list nat) (n : nat) (done : list str) (k : str)
    (e : str * Interaction) :
  entry_ok seen n done e -> entry_ok seen n (k :: done) e.
Proof.
  unfold entry_ok. intros (H1 & H2 & H3 & H4 & H5 & H6).
  repeat split; auto. intros H. right. auto.
Qed.

Lemma record_pair_ok (seen : list nat) (n : nat) (done : list str) (m : imap)
    (a b : str) :
  a <> b -> ~ In (interactionKey a b) done ->
  imap_ok seen n done m ->
  imap_ok seen n (interactionKey a b :: done) (record_pair n m (a, b)).
Proof.
  intros Hab Hk [Hn Hm]. unfold record_pair.
  set (k := interactionKey a b) in *.
  set (m' := if has k m then m else m ++ [(k, mkInteraction a b [] 0)]).
  assert (Hm' : imap_ok seen n done m').
  { unfold m'. destruct (has k m) eqn:E; [now split|]. split.
    - rewrite map_app. simpl. apply NoDup_app; auto.
      + constructor; [intros []|constructor].
      + intros x Hx [<-|[]]. apply has_In in Hx. congruence.
    - apply Forall_app; split; auto. constructor; [|constructor].
      unfold entry_ok. simpl. repeat split; auto.
      + constructor.
      + intros x [].
      + intros []. }
  destruct Hm' as [Hn' Hf]. split.
  - now rewrite bump_keys.
  - apply (bump_Forall (entry_ok seen n done)); auto.
    + intros e He _. now apply entry_ok_done.
    + intros v (H1 & H2 & H3 & H4 & H5 & H6). simpl in *.
      unfold entry_ok. simpl. repeat split; auto.
      * rewrite length_app. simpl. lia.
      * apply NoDup_app; auto.
        -- constructor; [intros []|constructor].
        -- intros x Hx [<-|[]]. auto.
      * intros x Hx. apply in_app_or in Hx.
        destruct Hx as [Hx|[<-|[]]]; [now apply H5 | now left].
Qed.

Lemma record_pairs_ok (seen : list nat) (n : nat) (ps : list (str * str)) :
  forall done m,
    Forall (fun p => fst p <> snd p) ps ->
    NoDup (map pairKey ps) ->
    (forall p, In p ps -> ~ In (pairKey p) done) ->
    imap_ok seen n done m ->
    exists done', imap_ok seen n done' (fold_left (record_pair n) ps m).
Proof.
  induction ps as [|[a b] r IH]; intros done m Hd Hk Hfresh Hm; simpl.
  - now exists done.
  - inversion Hd as [|? ? Hab Hd']; subst.
    inversion Hk as [|? ? Hnew Hk']; subst.
    apply (IH (interactionKey a b :: done)); auto.
    + intros p Hp [E|Hin].
      * apply Hnew. change (pairKey (a, b)) with (interactionKey a b).
        rewrite E. now apply in_map.
      * apply (Hfresh p); [now right | exact Hin].
    + apply record_pair_ok; auto.
      apply (Hfresh (a, b)). now left.
Qed.

Lemma record_scene_ok (seen : list nat) (m : imap) (n : nat)
    (ds : list Dialogue) :
  ~ In n seen ->
  Forall (fun d => noBar (d_characters d)) ds ->
  imap_closed seen m ->
  imap_closed (n :: seen) (record_scene m (n, ds)).
Proof.
  intros Hn Hb [Hk Hm]. unfold record_scene.
  destruct (dedup_spec (map d_characters ds)) as [Nd Id].
  set (L := dedup (map d_characters ds)) in *.
  assert (Bl : Forall noBar L).
  { apply Forall_forall. intros x Hx. apply Id in Hx.
    apply in_map_iff in Hx. destruct Hx as (d & <- & Hd).
    rewrite Forall_forall in Hb. now apply Hb. }
  destruct (record_pairs_ok seen n (pairs L) [] m) as [done [Hk' Hm']].
  - now apply pairs_distinct.
  - now apply pairs_keys.
  - intros p _ [].
  - split; auto. eapply Forall_impl; [|exact Hm].
    intros e (H1 & H2 & H3 & H4 & H5). unfold entry_ok.
    repeat split; auto.
    + intros x Hx. right. now apply H5.
    + intros Hin. exfalso. apply Hn. now apply H5.
  - split; auto. eapply Forall_impl; [|exact Hm'].
    intros e (H1 & H2 & H3 & H4 & H5 & _). repeat split; auto.
Qed.

Lemma record_scenes_ok (g : list (nat * list Dialogue)) :
  forall seen m,
    NoDup (map fst g) ->
    (forall n, In n (map fst g) -> ~ In n seen) ->
    Forall (fun e => Forall (fun d => noBar (d_characters d)) (snd e)) g ->
    imap_closed seen m ->
    exists seen', imap_closed seen' (fold_left record_scene g m).
Proof.
  induction g as [|[n ds] r IH]; intros seen m Hk Hfresh Hb Hm; simpl.
  - now exists seen.
  - inversion Hk as [|? ? Hnew Hk']; subst.
    inversion Hb as [|? ? Hds Hb']; subst.
    apply (IH (n :: seen)); auto.
    + intros x Hx [<-|Hin]; [auto|].
      apply (Hfresh x); [now right | exact Hin].
    + apply record_scene_ok; auto. apply Hfresh. now left.
Qed.

Lemma interactionMap_closed (ds : list Dialogue) :
  Forall (fun d => noBar (d_characters d)) ds ->
  exists seen, imap_closed seen (interactionMap ds).
Proof.
  intros Hb. unfold interactionMap.
  destruct (groupByScene_spec (fun d => noBar (d_characters d)) ds Hb)
    as [Hk Hg].
  apply (record_scenes_ok (groupByScene ds) [] []); auto.
  split; constructor.
Qed.

(** *** The names of the dialogue index have no bar *)

Lemma step_noBar (i : nat) (line : str) (s : loop) :
  Forall (fun d => noBar (d_characters d)) (dialogues s) ->
  Forall (fun d => noBar (d_characters d)) (dialogues (step i line s)).
Proof.
  intros H. unfold step.
  destruct (truthy (trim line)); simpl; auto.
  destruct (classify (trim line)); simpl; auto.
  - now rewrite saveScene_dialogues.
  - destruct (exec false charRe (trim line)) as [m|] eqn:E; auto.
    repeat match goal with
           | |- Forall _ (dialogues (if ?b then _ else _)) => destruct b
           end; simpl; auto.
    apply Forall_app; split; auto. constructor; [|constructor].
    simpl. eapply charRe_name; eauto.
  - match goal with
    | |- Forall _ (dialogues (if ?b then _ else _)) => destruct b
    end; auto.
  - match goal with
    | |- Forall _ (dialogues (if ?b then _ else _)) => destruct b
    end; auto.
Qed.

Lemma finish_noBar (lines : list str) :
  Forall (fun d => noBar (d_characters d)) (dialogues (finish lines)).
Proof.
  unfold finish. rewrite saveScene_dialogues.
  assert (G : forall ls i s,
             Forall (fun d => noBar (d_characters d)) (dialogues s) ->
             Forall (fun d => noBar (d_characters d)) (dialogues (run i ls s))).
  { induction ls as [|l r IH]; simpl; auto using step_noBar. }
  apply G. constructor.
Qed.

Lemma parse_interactionMap (text : str) :
  exists seen,
    imap_closed seen (interactionMap (a_dialogues (parseScreenplay text))).
Proof. apply interactionMap_closed, finish_noBar. Qed.

(** C6. For every input text the interaction output has no record of a
    character with itself, no two records for the same unordered pair, no
    scene number twice in a record's scene list, and each record's count is
    the length of its scene list. *)
Theorem interactions_wellformed (text : str) :
  let out := interactions (parseScreenplay text) in
  Forall (fun v => character1 v <> character2 v) out
  /\ ForallOrdPairs (fun u v => ~ samePair u v) out
  /\ Forall (fun v => NoDup (i_scenes v)) out
  /\ Forall (fun v => interactionCount v = length (i_scenes v)) out.
Proof.
  destruct (parse_interactionMap text) as [seen [Hk Hm]].
  change (interactions (parseScreenplay text))
    with (map snd (interactionMap (a_dialogues (parseScreenplay text)))).
  set (m := interactionMap (a_dialogues (parseScreenplay text))) in *.
  simpl. repeat split.
  - apply Forall_map. eapply Forall_impl; [|exact Hm]. simpl. tauto.
  - revert Hk Hm.
    induction m as [|[k v] r IH]; intros Hk Hm; simpl; constructor.
    + inversion Hk as [|? ? Hnew _]; subst.
      inversion Hm as [|? ? (Hv & _) Hr]; subst. simpl in Hv.
      apply Forall_map. rewrite Forall_forall in *.
      intros [k' v'] Hin S. simpl in S. apply Hnew.
      destruct (Hr _ Hin) as (Hv' & _). simpl in Hv'.
      replace k with k'; [now apply (in_map fst _ (k', v'))|].
      rewrite Hv, Hv'.
      destruct S as [[-> ->]|[-> ->]]; auto using interactionKey_sym.
    + inversion Hk; inversion Hm; subst. auto.
  - apply Forall_map. eapply Forall_impl; [|exact Hm]. simpl. tauto.
  - apply Forall_map. eapply Forall_impl; [|exact Hm]. simpl. tauto.
Qed.

(* ================================================================== *)
(** ** The result bundle *)
(* ================================================================== *)

Lemma saveScene_framed (P : list Scene) (D : list Dialogue) (C : list str)
    (s1 s2 : loop) :
  framed P D C s1 s2 -> framed P D C (saveScene s1) (saveScene s2).
Proof.
  intros (E1 & E2 & E3 & E4 & E5 & E6 & E7 & E8). unfold saveScene.
  rewrite E4. destruct (currentScene s1) as [h|] eqn:Hc.
  - destruct (truthy h); unfold framed; simpl; rewrite ?Hc.
    + rewrite E1, E5, E6, E7, E8, <- app_assoc. auto 10.
    + auto 10.
  - unfold framed. rewrite Hc. auto 10.
Qed.

Lemma addCharacter_framed (P : list Scene) (D : list Dialogue) (C : list str)
    (c : str) (s1 s2 : loop) :
  framed P D C s1 s2 -> framed P D C (addCharacter c s1) (addCharacter c s2).
Proof.
  intros (E1 & E2 & E3 & E4 & E5 & E6 & E7 & E8). unfold framed. simpl.
  rewrite E6. repeat split; auto.
  - rewrite set_add_In, E3. rewrite set_add_In. tauto.
  - rewrite set_add_In, set_add_In, E3. tauto.
Qed.

Lemma addDialogue_framed (P : list Scene) (D : list Dialogue) (C : list str)
    (i : nat) (c d : str) (s1 s2 : loop) :
  framed P D C s1 s2 ->
  framed P D C (addDialogue i c d s1) (addDialogue i c d s2).
Proof.
  intros (E1 & E2 & E3 & E4 & E5 & E6 & E7 & E8). unfold framed. simpl.
  rewrite E2, E7, E8, <- app_assoc. auto 10.
Qed.

(** The loop body reads the line and the locals only: what the object
    holds on entry stays ahead of what the call adds. *)
Lemma step_framed (P : list Scene) (D : list Dialogue) (C : list str)
    (i : nat) (line : str) (s1 s2 : loop) :
  framed P D C s1 s2 -> framed P D C (step i line s1) (step i line s2).
Proof.
  intros H. unfold step.
  destruct (truthy (trim line)); simpl; auto.
  destruct (classify (trim line)).
  - apply saveScene_framed in H.
    destruct H as (E1 & E2 & E3 & E4 & E5 & E6 & E7 & E8).
    unfold framed. simpl. auto 10.
  - destruct (exec false charRe (trim line)); auto.
    repeat match goal with
           | |- framed _ _ _ (if ?b then _ else _) _ => destruct b
           end; auto using addCharacter_framed, addDialogue_framed.
  - match goal with |- framed _ _ _ (if ?b then _ else _) _ => destruct b end;
      auto using addCharacter_framed.
  - match goal with |- framed _ _ _ (if ?b then _ else _) _ => destruct b end;
      auto using addCharacter_framed.
  - destruct H as (E1 & E2 & E3 & E4 & E5 & E6 & E7 & E8).
    unfold framed. simpl. rewrite E5. auto 10.
Qed.

Lemma run_framed (P : list Scene) (D : list Dialogue) (C : list str)
    (lines : list str) :
  forall i s1 s2,
    framed P D C s1 s2 -> framed P D C (run i lines s1) (run i lines s2).
Proof.
  induction lines as [|l r IH]; simpl; auto using step_framed.
Qed.

Lemma parseScreenplayOn_framed (o : object) (text : str) :
  framed (o_scenes o) (o_dialogues o) (o_characters o)
    (finish (split 10 text))
    (saveScene (run 0 (split 10 text) (enter o))).
Proof.
  unfold finish. apply saveScene_framed, run_framed.
  unfold framed, enter, init. simpl.
  rewrite !app_nil_r. repeat split; auto; tauto.
Qed.

(** C9 (as amended). For every text, script name and arithmetic on
    doubles: two calls of analyze, each on a newly constructed analyzer as
    in the request handler, agree on the whole result but for the two
    fields of the summary that are read from the clock, whatever the two
    upload paths and clock readings; such a call gives what
    [runCompleteAnalysis] gives from the empty collections.  A call on an
    analyzer that has been used before returns the scenes and the dialogue
    entries the object held, followed by those of a call on a new analyzer,
    counts them all, and its character output holds the names the object
    held besides the new ones: the collections are emptied by the
    constructor only. *)
Theorem analysis_same_up_to_clock (num : Type) (ofNat : nat -> num)
    (div mul sub : num -> num -> num) (round : num -> num)
    (name text : str) :
  (forall (p1 p2 : str) (c1 c2 : clock num) (stamp : str) (ms : num),
      withClockFields num stamp ms
        (analyze num ofNat div mul sub round p1 name text c1)
      = withClockFields num stamp ms
          (analyze num ofNat div mul sub round p2 name text c2))
  /\ (forall (p : str) (c : clock num),
         analyze num ofNat div mul sub round p name text c
         = runCompleteAnalysis num ofNat div mul sub round name text c)
  /\ (forall (o : object) (c : clock num),
         let new := parseScreenplay text in
         match snd (runCompleteAnalysisOn num ofNat div mul sub round o text c)
         with
         | Thrown _ _ => text = []
         | Returned _ r =>
             r_scenes num r = o_scenes o ++ a_scenes new
             /\ r_dialogues num r = o_dialogues o ++ a_dialogues new
             /\ totalScenes num r = length (o_scenes o) + length (a_scenes new)
             /\ totalDialogues num r
                = length (o_dialogues o) + length (a_dialogues new)
             /\ s_totalScenes num (summary num r) = totalScenes num r
             /\ (forall x,
                   In x (r_characters num r)
                   <-> (In x (o_characters o) /\ 1 < length x < 50)
                       \/ In x (movieCharacters new))
         end).
Proof.
  split; [|split].
  - intros p1 p2 c1 c2 stamp ms. unfold analyze, runCompleteAnalysisOn.
    destruct text as [|c t]; reflexivity.
  - intros p c. unfold analyze, runCompleteAnalysisOn, runCompleteAnalysis.
    destruct text as [|x t]; reflexivity.
  - intros o c. cbv zeta. unfold runCompleteAnalysisOn.
    destruct text as [|x t]; [reflexivity|].
    set (text := x :: t).
    destruct (parseScreenplayOn_framed o text) as (E1 & E2 & E3 & _).
    unfold parseScreenplayOn, parseScreenplay, parseLines, view.
    cbn [snd r_scenes r_dialogues totalScenes totalDialogues r_characters
         summary a_scenes a_dialogues movieCharacters o_scenes o_dialogues
         o_characters o_movieCharacters generateSummary s_totalScenes].
    rewrite E1, E2, !length_app. repeat split; auto.
    + intros H. apply sort_In, filter_In in H. destruct H as [H L].
      apply andb_prop in L. destruct L as [L1 L2].
      apply Nat.ltb_lt in L1, L2. apply E3 in H. destruct H as [H|H].
      * left. auto.
      * right. apply sort_In, filter_In. split; auto.
        apply andb_true_intro. split; now apply Nat.ltb_lt.
    + intros H. apply sort_In, filter_In.
      destruct H as [[H [L1 L2]]|H].
      * split; [apply E3; now left|].
        apply andb_true_intro. split; now apply Nat.ltb_lt.
      * apply sort_In, filter_In in H. destruct H as [H L].
        split; auto. apply E3. now right.
Qed.

(** C9, counterexample: the same text analysed at two instants, each time
    on a new analyzer, gives two results that differ in analysisTimestamp;
    and two calls on one analyzer give one scene, then two.  The arithmetic
    plays no part in either and is instantiated with the natural
    numbers. *)
Lemma analysis_depends_on_clock :
  let text := lit "INT. HOUSE - DAY" in
  let c1 := mkClock nat 0 (lit "2024-01-01T00:00:00.000Z") 5 in
  let c2 := mkClock nat 0 (lit "2024-01-01T00:00:01.000Z") 5 in
  let run := runCompleteAnalysisOn nat (fun n : nat => n) Nat.div Nat.mul
               Nat.sub (fun x : nat => x) in
  analyze nat (fun n : nat => n) Nat.div Nat.mul Nat.sub (fun x : nat => x)
    (lit "uploads/1_a.pdf") (lit "script") text c1
  <> analyze nat (fun n : nat => n) Nat.div Nat.mul Nat.sub (fun x : nat => x)
       (lit "uploads/1_a.pdf") (lit "script") text c2
  /\ (let o := construct (lit "uploads/1_a.pdf") (lit "script") in
      let first := run o text c1 in
      let second := run (fst first) text c1 in
      match snd first, snd second with
      | Returned _ r1, Returned _ r2 =>
          totalScenes nat r1 = 1 /\ totalScenes nat r2 = 2
      | _, _ => False
      end).
Proof.
  vm_compute. split; [intros H; discriminate H | split; reflexivity].
Qed.

(* ================================================================== *)
(** ** The heading extractors *)
(* ================================================================== *)

Lemma lit_mem_ic (c p : N) :
  mem true [CLit p] c = true -> upper c = upper p.
Proof.
  simpl. rewrite orb_false_r. apply N.eqb_eq.
Qed.

(** A slug starts with an I or an E, in either case. *)
Lemma slug_head (p w q : str) :
  sem true (alts slugs) p w q ->
  exists c t, w = c :: t /\ (upper c = 73%N \/ upper c = 69%N).
Proof.
  intros H.
  assert (G : forall a r,
             sem true (Seq (ch a) r) p w q ->
             exists c t, w = c :: t /\ upper c = upper (N_of_ascii a)).
  { intros a r (u & v & -> & (c & -> & Hc) & _).
    exists c, v. split; auto. now apply lit_mem_ic. }
  destruct H as [H|[H|[H|H]]]; apply G in H;
    destruct H as (c & t & -> & E); exists c, t; split; auto.
Qed.

(** The location pattern rejects every heading that starts with a digit,
    so that every numbered heading gets an empty location. *)
Lemma extractLocation_numbered (d : N) (r : str) :
  isDigit d = true -> extractLocation (d :: r) = [].
Proof.
  intros Hd. unfold extractLocation, exec.
  destruct (search true locRe [] (d :: r)) as [[st0 st1]|] eqn:E; auto.
  exfalso.
  destruct (search_sound true (fun _ _ => True) locRe (captures_any true locRe)
              (d :: r) [] st0 st1 E)
    as (u & w & q' & Hs & _ & _ & _ & S & _).
  destruct S as (u1 & v1 & -> & (-> & Hp) & u2 & v2 & -> & Hslug & _).
  rewrite app_nil_r in Hp. apply (f_equal (@rev N)) in Hp.
  rewrite rev_involutive in Hp. simpl in Hp. subst u.
  apply slug_head in Hslug. destruct Hslug as (c & t & -> & Hc).
  simpl in Hs. injection Hs as <- _.
  unfold isDigit in Hd. apply andb_prop in Hd. destruct Hd as [H1 H2].
  apply N.leb_le in H1, H2. unfold upper in Hc.
  destruct ((97 <=? d) && (d <=? 122))%N eqn:Eu.
  - apply andb_prop in Eu. destruct Eu as [H3 _]. apply N.leb_le in H3. lia.
  - lia.
Qed.

(** Under the [i] flag an ASCII literal only matches ASCII units. *)
Lemma lit_ascii (c p : N) :
  (p < 128)%N -> mem true [CLit p] c = true -> (c < 128)%N.
Proof.
  intros Hp H. apply lit_mem_ic in H. unfold upper in H.
  destruct ((97 <=? c) && (c <=? 122))%N eqn:Ec.
  - apply andb_prop in Ec. destruct Ec as [_ H2]. apply N.leb_le in H2. lia.
  - destruct ((97 <=? p) && (p <=? 122))%N; lia.
Qed.

Lemma word_ascii (s : string) :
  Forall (fun a => (N_of_ascii a < 128)%N) (list_ascii_of_string s) ->
  forall p w q, sem true (word s) p w q -> Forall (fun c => (c < 128)%N) w.
Proof.
  induction s as [|a s IH]; intros Hs p w q H.
  - simpl in H. subst w. constructor.
  - simpl in Hs. inversion Hs as [|? ? Ha Hr]; subst.
    destruct s as [|b s].
    + destruct H as (c & -> & Hc). constructor; [|constructor].
      eapply lit_ascii; eauto.
    + destruct H as (u & v & -> & (c & -> & Hc) & Hv).
      constructor; [eapply lit_ascii; eauto|].
      eapply IH; eauto.
Qed.

Lemma words_ascii (l : list string) :
  Forall (fun s => Forall (fun a => (N_of_ascii a < 128)%N)
                     (list_ascii_of_string s)) l ->
  forall p w q,
    sem true (alts (map word l)) p w q -> Forall (fun c => (c < 128)%N) w.
Proof.
  induction 1 as [|s l Hs Hl IH]; intros p w q H.
  - simpl in H. subst w. constructor.
  - destruct l as [|s' l].
    + eapply word_ascii; eauto.
    + destruct H as [H|H]; [eapply word_ascii; eauto | eapply IH; eauto].
Qed.

(** The text that [extractTimeOfDay] upper-cases is ASCII, where [upper]
    is all of [toUpperCase]. *)
Lemma extractTimeOfDay_ascii (h : str) (m : mstate * mstate) :
  exec true timeRe h = Some m -> Forall (fun c => (c < 128)%N) (grp 1 m).
Proof.
  intros E. destruct m as [st0 st1]. unfold exec in E.
  pose (Q := fun (i : nat) (w : str) => Forall (fun c => (c < 128)%N) w).
  assert (Hc : captures true Q timeRe).
  { simpl. repeat split; auto. intros p w q H.
    apply (words_ascii timeWords) with (p := p) (q := q); [|exact H].
    repeat constructor. }
  destruct (search_sound true Q timeRe Hc h [] st0 st1 E)
    as (u & w & q' & _ & _ & _ & _ & _ & C).
  unfold grp, group. simpl.
  pose proof (lookup_ok Q 1 _ C) as L.
  destruct (lookup 1 (caps st1)); [exact L|constructor].
Qed.

(* ================================================================== *)
(** ** The model at work *)
(* ================================================================== *)

(** One line of each kind, in the order of the [if] chain. *)
Example classify_kinds :
  map (fun l => classify (trim (lit l)))
    ["  12 int. kitchen - later"; "MARY (O.S.): Who is it?"; "O'NEIL";
     "MARY (V.O.)"; "He opens the door."]%string
  = [Heading; ColonLine; CueAlone; CueExtended; Action].
Proof. reflexivity. Qed.

(** The parenthetical goes, runs of white space collapse. *)
Example normalize_name :
  normalize (lit "MARY   ANN (O.S.)") = lit "MARY ANN".
Proof. reflexivity. Qed.

(** The en dash separates the location like the hyphen does; a hyphen
    without white space around it does not. *)
Example extractLocation_dashes :
  extractLocation (lit "EXT. CAR-PARK " ++ 8211%N :: lit " NIGHT")
    = lit "CAR-PARK"
  /\ extractTimeOfDay (lit "EXT. CAR-PARK " ++ 8211%N :: lit " night")
     = lit "NIGHT"
  /\ extractTimeOfDay (lit "INT. MONDAY CLUB") = lit "UNSPECIFIED".
Proof. vm_compute. repeat split. Qed.

(** Two speakers who share two scenes: one record, both scene numbers, the
    names in the order of first speech. *)
Example shared_scenes :
  let text := lit "INT. HOUSE - DAY" ++ 10%N :: lit "ZED: Hi."
                ++ 10%N :: lit "AMY: Hello." ++ 10%N :: lit "ZED: Bye."
                ++ 10%N :: lit "EXT. STREET - NIGHT"
                ++ 10%N :: lit "AMY: Again?" ++ 10%N :: lit "ZED: Again." in
  interactionMap (a_dialogues (parseScreenplay text))
  = [(lit "AMY|ZED", mkInteraction (lit "ZED") (lit "AMY") [1; 2] 2)].
Proof. vm_compute. reflexivity. Qed.

(* ================================================================== *)
(** ** The matcher finds a match when there is one *)
(* ================================================================== *)

Section Completeness.

Variable ic : bool.

Lemma within_below (hi : option nat) (n m : nat) :
  within hi (n + S m) -> below hi n = true.
Proof.
  destruct hi as [h|]; simpl; auto. intros H. apply Nat.ltb_lt. lia.
Qed.

Lemma rep_greedy_complete (cs : cset) (lo : nat) (hi : option nat)
    (k : str -> str -> option mstate) (q : str) :
  forall w n p,
    Forall (fun c => mem ic cs c = true) w ->
    lo <= n + length w -> within hi (n + length w) ->
    k (rev w ++ p) q <> None ->
    rep_greedy ic cs lo hi n p (w ++ q) k <> None.
Proof.
  induction w as [|c w IH]; intros n p Hw Hlo Hhi Hk; simpl in *.
  - rewrite Nat.add_0_r in Hlo. apply Nat.leb_le in Hlo.
    destruct q as [|c t]; simpl; rewrite Hlo; auto.
    destruct (mem ic cs c && below hi n); auto.
    destruct (rep_greedy ic cs lo hi (S n) (c :: p) t k); auto. discriminate.
  - inversion Hw as [|? ? Hc Hw']; subst.
    rewrite Hc, (within_below hi n (length w) Hhi). simpl.
    assert (R : rep_greedy ic cs lo hi (S n) (c :: p) (w ++ q) k <> None).
    { apply IH; auto.
      - rewrite Nat.add_succ_r in Hlo. exact Hlo.
      - rewrite Nat.add_succ_r in Hhi. exact Hhi.
      - now rewrite <- app_assoc in Hk. }
    destruct (rep_greedy ic cs lo hi (S n) (c :: p) (w ++ q) k);
      [discriminate|contradiction].
Qed.

Lemma rep_lazy_complete (cs : cset) (lo : nat) (hi : option nat)
    (k : str -> str -> option mstate) (q : str) :
  forall w n p,
    Forall (fun c => mem ic cs c = true) w ->
    lo <= n + length w -> within hi (n + length w) ->
    k (rev w ++ p) q <> None ->
    rep_lazy ic cs lo hi n p (w ++ q) k <> None.
Proof.
  induction w as [|c w IH]; intros n p Hw Hlo Hhi Hk; simpl in *.
  - rewrite Nat.add_0_r in Hlo. apply Nat.leb_le in Hlo.
    destruct q as [|c t]; simpl; rewrite Hlo.
    + destruct (k p []); [discriminate|contradiction].
    + destruct (k p (c :: t)); [discriminate|contradiction].
  - inversion Hw as [|? ? Hc Hw']; subst.
    rewrite Hc, (within_below hi n (length w) Hhi). simpl.
    assert (R : rep_lazy ic cs lo hi (S n) (c :: p) (w ++ q) k <> None).
    { apply IH; auto.
      - rewrite Nat.add_succ_r in Hlo. exact Hlo.
      - rewrite Nat.add_succ_r in Hhi. exact Hhi.
      - now rewrite <- app_assoc in Hk. }
    destruct (lo <=? n); auto.
    destruct (k p (c :: w ++ q)); [discriminate|exact R].
Qed.

(** If the pattern may match [w] and what follows succeeds after [w],
    whatever was captured, the matcher succeeds. *)
Lemma rmatch_complete (r : regex) :
  forall p w q k,
    sem ic r p w q ->
    (forall cs, k (MState (rev w ++ p) q cs) <> None) ->
    forall cs0, rmatch ic r (MState p (w ++ q) cs0) k <> None.
Proof.
  induction r as [|cs|cs lo hi g|a IHa b IHb|a IHa b IHb|a IHa|i a IHa| | |];
    intros p w q k S K cs0; simpl in *.
  - subst w. apply K.
  - destruct S as (c & -> & Hc). simpl. rewrite Hc. apply K.
  - destruct S as (Hw & Hlo & Hhi). destruct g.
    + apply rep_greedy_complete; auto.
    + apply rep_lazy_complete; auto.
  - destruct S as (u & v & -> & Sa & Sb). rewrite <- app_assoc.
    apply IHa; auto. intros cs. apply IHb; auto.
    intros cs'. rewrite app_assoc, <- rev_app_distr. apply K.
  - destruct (rmatch ic a (MState p (w ++ q) cs0) k) eqn:E; [discriminate|].
    destruct S as [S|S]; [|now apply IHb].
    exfalso. revert E. now apply IHa.
  - destruct (rmatch ic a (MState p (w ++ q) cs0) k) eqn:E; [discriminate|].
    destruct S as [->|S]; [apply K|].
    exfalso. revert E. now apply IHa.
  - apply IHa; auto.
  - destruct S as [-> ->]. apply K.
  - destruct S as [-> ->]. apply K.
  - destruct S as [-> S]. simpl. rewrite S. apply K.
Qed.

Lemma search_complete (r : regex) :
  forall u p w q,
    sem ic r (rev u ++ p) w q -> search ic r p (u ++ w ++ q) <> None.
Proof.
  assert (Now : forall p w q, sem ic r p w q ->
                              rmatch ic r (MState p (w ++ q) []) Some <> None)
    by (intros p w q S; apply rmatch_complete; auto; discriminate).
  induction u as [|c u IH]; intros p w q S; simpl in *.
  - pose proof (Now p w q S) as R.
    destruct (w ++ q); simpl;
      destruct (rmatch ic r _ Some); try discriminate; contradiction.
  - destruct (rmatch ic r (MState p (c :: u ++ w ++ q) []) Some);
      [discriminate|].
    apply IH. now rewrite <- app_assoc in S.
Qed.

(** [test] says exactly that some part of the string is matched. *)
Lemma test_iff (r : regex) (s : str) :
  test ic r s = true
  <-> exists u w q, s = u ++ w ++ q /\ sem ic r (rev u) w q.
Proof.
  unfold test, exec. split.
  - destruct (search ic r [] s) as [[st0 st1]|] eqn:E; [|discriminate].
    intros _.
    destruct (search_sound ic (fun _ _ => True) r (captures_any ic r)
                s [] st0 st1 E) as (u & w & q & Hs & _ & _ & _ & S & _).
    rewrite app_nil_r in S. eauto.
  - intros (u & w & q & -> & S).
    pose proof (search_complete r u [] w q) as C.
    rewrite app_nil_r in C. specialize (C S).
    destruct (search ic r [] (u ++ w ++ q)); [reflexivity|now destruct C].
Qed.

End Completeness.

(* ================================================================== *)
(** ** The sorted character output and the scene records *)
(* ================================================================== *)


Lemma ltb_trans (a : str) :
  forall b c, ltb a b = true -> ltb b c = true -> ltb a c = true.
Proof.
  induction a as [|x a IH]; intros [|y b] [|z c]; simpl; auto;
    try discriminate.
  destruct (N.ltb_spec x y), (N.ltb_spec y x), (N.ltb_spec y z),
    (N.ltb_spec z y), (N.ltb_spec x z), (N.ltb_spec z x);
    try lia; try discriminate; auto.
  apply IH.
Qed.

Lemma str_le_total (a b : str) : str_le a b \/ str_le b a.
Proof.
  unfold str_le. destruct (ltb b a) eqn:E; auto.
  right. now apply ltb_asym.
Qed.

Lemma str_le_trans (a b c : str) : str_le a b -> str_le b c -> str_le a c.
Proof.
  unfold str_le. intros H1 H2.
  destruct (ltb c a) eqn:E; auto. exfalso.
  destruct (list_eq_dec N.eq_dec a b) as [->|Hab]; [congruence|].
  destruct (ltb_total a b Hab) as [L|L]; [|congruence].
  pose proof (ltb_trans c a b E L). congruence.
Qed.

Lemma insert_sorted (x : str) (l : list str) :
  StronglySorted str_le l -> StronglySorted str_le (JS.insert x l).
Proof.
  induction 1 as [|y r Hr IH Hy]; simpl.
  - repeat constructor.
  - destruct (ltb y x) eqn:E.
    + constructor; auto. apply Forall_forall. intros z Hz.
      apply insert_In in Hz. destruct Hz as [->|Hz].
      * unfold str_le. now apply ltb_asym.
      * rewrite Forall_forall in Hy. auto.
    + constructor; [now constructor|]. constructor; [exact E|].
      eapply Forall_impl; [|exact Hy]. intros z Hz.
      eapply str_le_trans; eauto.
Qed.

Lemma sort_sorted (l : list str) : StronglySorted str_le (JS.sort l).
Proof.
  induction l as [|x r IH]; simpl; [constructor|now apply insert_sorted].
Qed.

Lemma insert_perm (x : str) (l : list str) : Permutation (x :: l) (JS.insert x l).
Proof.
  induction l as [|y r IH]; simpl; auto.
  destruct (ltb y x); auto.
  eapply perm_trans; [apply perm_swap|]. now constructor.
Qed.

Lemma sort_perm (l : list str) : Permutation l (JS.sort l).
Proof.
  induction l as [|x r IH]; simpl; auto.
  eapply perm_trans; [|apply insert_perm]. now constructor.
Qed.

(** Without duplicates the sorted list is strictly ascending. *)
Lemma sorted_strict (l : list str) :
  NoDup l -> StronglySorted str_le l ->
  StronglySorted (fun x y => ltb x y = true) l.
Proof.
  induction 2 as [|x r Hr IH Hx]; constructor.
  - apply IH. now inversion H.
  - inversion H as [|? ? Hn _]; subst.
    rewrite Forall_forall in *. intros y Hy.
    assert (Hne : x <> y) by (intros ->; contradiction).
    destruct (ltb_total x y Hne) as [L|L]; auto.
    specialize (Hx y Hy). unfold str_le in Hx. congruence.
Qed.

Lemma filter_all {A : Type} (f : A -> bool) (l : list A) :
  Forall (fun x => f x = true) l -> filter f l = l.
Proof.
  induction 1 as [|x r Hx Hr IH]; simpl; auto. now rewrite Hx, IH.
Qed.

(** *** The scene records as they are built *)

Lemma tidy_init : tidy init.
Proof. split; simpl; constructor. Qed.

Lemma nonempty_or_null_list (l : list str) :
  match nonempty_or_null l with Some x => x | None => [] end = l.
Proof. now destruct l. Qed.

Lemma nonempty_or_null_some (l : list str) : nonempty_or_null l <> Some [].
Proof. destruct l; discriminate. Qed.

Lemma saveScene_tidy (s : loop) : tidy s -> tidy (saveScene s).
Proof.
  intros [Hn Ho Hl Hs]. unfold saveScene.
  destruct (currentScene s) as [h|]; [|now split].
  destruct (truthy h); [|now split].
  split; simpl; auto.
  apply Forall_app; split; auto. constructor; [|constructor].
  unfold sceneTidy, sceneCharacterList, sceneDialogueList. simpl.
  rewrite !nonempty_or_null_list.
  repeat split; auto using nonempty_or_null_some, trim_idem.
Qed.

Lemma addCharacter_tidy (c : str) (s : loop) : tidy s -> tidy (addCharacter c s).
Proof.
  intros [Hn Ho Hl Hs]. split; simpl; auto using set_add_NoDup.
  destruct (arr_includes c (currentSceneCharacters s)) eqn:E; auto.
  apply NoDup_app; auto.
  - constructor; [intros []|constructor].
  - intros y Hy [<-|[]]. apply arr_includes_In in Hy. congruence.
Qed.

Lemma addDialogue_tidy (i : nat) (c d : str) (s : loop) :
  truthy d = true -> tidy s -> tidy (addDialogue i c d s).
Proof.
  intros Hd [Hn Ho Hl Hs]. split; simpl; auto.
  apply Forall_app; split; auto.
Qed.

Lemma step_tidy (i : nat) (line : str) (s : loop) : tidy s -> tidy (step i line s).
Proof.
  intros H. unfold step.
  destruct (truthy (trim line)); simpl; auto.
  destruct (classify (trim line)).
  - destruct (saveScene_tidy s H) as [Hn Ho Hl Hs].
    split; simpl; auto; constructor.
  - destruct (exec false charRe (trim line)) as [m|]; auto.
    match goal with |- tidy (if ?b then _ else _) => destruct b end; auto.
    destruct (truthy (trim (grp 2 m))) eqn:Ed;
      auto using addCharacter_tidy, addDialogue_tidy.
  - match goal with |- tidy (if ?b then _ else _) => destruct b end;
      auto using addCharacter_tidy.
  - match goal with |- tidy (if ?b then _ else _) => destruct b end;
      auto using addCharacter_tidy.
  - destruct H as [Hn Ho Hl Hs]. split; simpl; auto.
Qed.

Lemma finish_tidy (lines : list str) : tidy (finish lines).
Proof.
  unfold finish. apply saveScene_tidy.
  assert (G : forall ls i s, tidy s -> tidy (run i ls s)).
  { induction ls as [|l r IH]; simpl; auto using step_tidy. }
  apply G, tidy_init.
Qed.

Lemma finish_registered (lines : list str) : registered (finish lines).
Proof.
  apply saveScene_registered, run_registered, registered_init.
Qed.

(** The length filter of [movieCharacters] lets every registered name
    through. *)
Lemma movieCharacters_sort (lines : list str) :
  movieCharacters (parseLines lines) = JS.sort (characters (finish lines)).
Proof.
  simpl. f_equal. apply filter_all.
  eapply Forall_impl; [|apply (rg_valid _ (finish_registered lines))].
  intros c [H1 H2]. apply andb_true_intro. split; now apply Nat.ltb_lt.
Qed.

(** X1. The character output is strictly ascending in the order of
    JavaScript strings, hence free of duplicates. *)
Theorem character_output_ascending (text : str) :
  let a := parseScreenplay text in
  StronglySorted (fun x y => ltb x y = true) (movieCharacters a)
  /\ NoDup (movieCharacters a).
Proof.
  unfold parseScreenplay. set (lines := split 10 text). cbv zeta.
  rewrite movieCharacters_sort.
  assert (N : NoDup (JS.sort (characters (finish lines)))).
  { eapply Permutation_NoDup; [apply sort_perm|].
    apply (td_names _ (finish_tidy lines)). }
  split; auto. apply sorted_strict; auto using sort_sorted.
Qed.

(** X2. The character output is the registry sorted: it holds every
    registered name once, each of 2 to 49 units, so that the length filter
    of lines 163-165 removes nothing. *)
Theorem character_output_complete (text : str) :
  let a := parseScreenplay text in
  Permutation (a_characters a) (movieCharacters a)
  /\ NoDup (a_characters a)
  /\ Forall (fun c => 2 <= length c <= 49) (a_characters a).
Proof.
  unfold parseScreenplay. set (lines := split 10 text). cbv zeta.
  rewrite movieCharacters_sort. repeat split.
  - apply sort_perm.
  - apply (td_names _ (finish_tidy lines)).
  - eapply Forall_impl; [|apply (rg_valid _ (finish_registered lines))].
    unfold validName. simpl. intros c H. lia.
Qed.

(** X3. Every scene record is well formed: its character list is null or
    a non-empty list without duplicates, its dialogue list is null or a
    non-empty list of non-empty strings, its action text is trimmed, its
    content is the action text, a line feed and the dialogue lines joined by
    single spaces, and its location and time of day are those extracted from
    its heading. *)
Theorem scene_records_wellformed (text : str) :
  Forall sceneTidy (a_scenes (parseScreenplay text)).
Proof. apply (td_scenes _ (finish_tidy (split 10 text))). Qed.

(* ================================================================== *)
(** ** The dialogue index, line by line *)
(* ================================================================== *)

Lemma step_trim (i : nat) (line : str) (s : loop) :
  step i (trim line) s = step i line s.
Proof. unfold step. repeat rewrite trim_idem. reflexivity. Qed.

Lemma run_trim (l1 : list str) :
  forall l2 i s, map trim l1 = map trim l2 -> run i l1 s = run i l2 s.
Proof.
  induction l1 as [|x r IH]; intros [|y r'] i s H; simpl in *;
    try discriminate; auto.
  injection H as Hx Hr.
  rewrite <- (step_trim i x), <- (step_trim i y), Hx. now apply IH.
Qed.

(** X4. White space around a line does not matter: two texts whose lines
    agree once trimmed (indentation, trailing blanks, carriage returns
    before the line feed) give the same scenes, dialogue index, characters and
    interactions. *)
Theorem indentation_ignored (t1 t2 : str) :
  map trim (split 10 t1) = map trim (split 10 t2) ->
  parseScreenplay t1 = parseScreenplay t2.
Proof.
  intros H. unfold parseScreenplay, parseLines, finish.
  now rewrite (run_trim _ _ 0 init H).
Qed.

Lemma indentation_ignored_witness :
  parseScreenplay (lit "   INT. HOUSE - DAY  " ++ 13%N :: 10%N
                     :: 9%N :: lit "JOHN: Hello there.")
  = parseScreenplay (lit "INT. HOUSE - DAY" ++ 10%N
                       :: lit "JOHN: Hello there.").
Proof. apply indentation_ignored. vm_compute. reflexivity. Defined.

Lemma step_index (i : nat) (line : str) (s : loop) :
  dialogues (step i line s)
  = dialogues s
    ++ match cueWithDialogue line with
       | Some (c, d) => [mkDialogue (sceneCount s + 1) c d (i + 1)]
       | None => []
       end.
Proof.
  unfold cueWithDialogue, step.
  destruct (truthy (trim line)); simpl; [|now rewrite app_nil_r].
  destruct (classify (trim line)); simpl; try now rewrite app_nil_r.
  - now rewrite saveScene_dialogues, app_nil_r.
  - destruct (exec false charRe (trim line)) as [m|]; [|now rewrite app_nil_r].
    match goal with
    | |- dialogues (if ?b then _ else _) = _ =>
        destruct b; simpl; [|now rewrite app_nil_r]
    end.
    destruct (truthy (trim (grp 2 m))); simpl; [reflexivity|].
    now rewrite app_nil_r.
  - match goal with
    | |- dialogues (if ?b then _ else _) = _ => destruct b
    end; simpl; now rewrite app_nil_r.
  - match goal with
    | |- dialogues (if ?b then _ else _) = _ => destruct b
    end; simpl; now rewrite app_nil_r.
Qed.

Lemma step_headCount (i : nat) (line : str) (s : loop) :
  numbered s ->
  headCount (step i line s)
  = if isHeading line then S (headCount s) else headCount s.
Proof.
  intros H. unfold step, isHeading.
  destruct (truthy (trim line)); simpl; auto.
  destruct (classify (trim line)); simpl.
  - unfold headCount at 1. simpl. f_equal.
    destruct (currentScene s) as [h|] eqn:Hc.
    + destruct (saveScene_open s h Hc (nb_open s H h Hc)) as (_ & E & _).
      rewrite E. unfold headCount. now rewrite Hc.
    + rewrite (saveScene_closed s Hc). unfold headCount. rewrite Hc.
      apply (nb_none s H Hc).
  - destruct (exec false charRe (trim line)); auto.
    repeat match goal with
           | |- headCount (if ?b then _ else _) = _ => destruct b
           end; reflexivity.
  - match goal with
    | |- headCount (if ?b then _ else _) = _ => destruct b
    end; reflexivity.
  - match goal with
    | |- headCount (if ?b then _ else _) = _ => destruct b
    end; reflexivity.
  - reflexivity.
Qed.

Lemma headCount_number (s : loop) :
  numbered s -> sceneCount s + 1 = Nat.max 1 (headCount s).
Proof.
  intros H. unfold headCount.
  destruct (currentScene s) eqn:Hc; [lia|].
  rewrite (nb_none s H Hc). reflexivity.
Qed.

Lemma run_index (lines : list str) :
  forall i s,
    numbered s ->
    dialogues (run i lines s)
    = dialogues s ++ dialogueIndex i (headCount s) lines.
Proof.
  induction lines as [|l r IH]; intros i s H; simpl.
  - now rewrite app_nil_r.
  - rewrite IH by (now apply step_numbered).
    rewrite step_index, step_headCount, (headCount_number s H) by assumption.
    now rewrite <- app_assoc.
Qed.

Lemma finish_index (lines : list str) :
  dialogues (finish lines) = dialogueIndex 0 0 lines.
Proof.
  unfold finish. rewrite saveScene_dialogues.
  now rewrite (run_index _ 0 init numbered_init).
Qed.

(** X5. The dialogue index is a function of the lines alone: one entry for
    each line that is a cue with dialogue, in line order, carrying the
    line's 1-based position and, as scene number, the number of heading
    lines read before it, or 1 when none has been read. *)
Theorem dialogue_index_by_line (text : str) :
  a_dialogues (parseScreenplay text) = dialogueIndex 0 0 (split 10 text).
Proof. apply finish_index. Qed.

Lemma dialogueIndex_bounds (lines : list str) :
  forall i h,
    Forall (fun d => i < lineNumber d <= i + length lines
                     /\ Nat.max 1 h <= d_sceneNumber d)
      (dialogueIndex i h lines).
Proof.
  induction lines as [|l r IH]; intros i h; cbn [dialogueIndex length];
    [constructor|].
  apply Forall_app; split.
  - destruct (cueWithDialogue l) as [[c d]|]; [|constructor].
    constructor; [|constructor].
    cbn [lineNumber d_sceneNumber]. lia.
  - eapply Forall_impl; [|apply IH]. cbn beta. intros d H.
    destruct (isHeading l); lia.
Qed.

Lemma dialogueIndex_sorted (lines : list str) :
  forall i h,
    StronglySorted
      (fun d e => lineNumber d < lineNumber e
                  /\ d_sceneNumber d <= d_sceneNumber e)
      (dialogueIndex i h lines).
Proof.
  induction lines as [|l r IH]; intros i h; cbn [dialogueIndex];
    [constructor|].
  destruct (cueWithDialogue l) as [[c d]|]; [|apply IH].
  cbn [app]. constructor; [apply IH|].
  eapply Forall_impl; [|apply dialogueIndex_bounds]. cbn beta. intros e H.
  cbn [lineNumber d_sceneNumber]. destruct (isHeading l); lia.
Qed.

(** X6. The dialogue index is in document order: along it the line numbers
    strictly increase and the scene numbers never decrease, and every line
    number lies between 1 and the number of lines of the text. *)
Theorem dialogue_index_ordered (text : str) :
  let ds := a_dialogues (parseScreenplay text) in
  StronglySorted
    (fun d e => lineNumber d < lineNumber e
                /\ d_sceneNumber d <= d_sceneNumber e) ds
  /\ Forall (fun d => 1 <= lineNumber d <= length (split 10 text)) ds.
Proof.
  cbv zeta. change (a_dialogues (parseScreenplay text))
    with (dialogues (finish (split 10 text))).
  rewrite finish_index. split.
  - apply dialogueIndex_sorted.
  - eapply Forall_impl; [|apply dialogueIndex_bounds]. cbn beta. lia.
Qed.

(** *** The stoplist of the colon branch *)

Lemma word_sem (s : string) :
  forall p w q,
    sem true (word s) p w q <-> map upper w = map upper (lit s).
Proof.
  induction s as [|a s IH]; intros p w q.
  - simpl. split; [now intros ->|]. now destruct w.
  - destruct s as [|b s].
    + simpl. split.
      * intros (c & -> & Hc). rewrite orb_false_r in Hc.
        apply N.eqb_eq in Hc. simpl. now rewrite Hc.
      * destruct w as [|c [|c' w]]; try discriminate.
        intros [= E]. exists c. split; auto. rewrite orb_false_r.
        now apply N.eqb_eq.
    + change (word (String a (String b s)))
        with (Seq (ch a) (word (String b s))).
      cbn [sem]. split.
      * intros (u & v & -> & (c & -> & Hc) & Hv).
        apply IH in Hv. apply lit_mem_ic in Hc.
        cbn [app map lit] in *. now rewrite Hc, Hv.
      * destruct w as [|c w]; [discriminate|].
        cbn [map lit]. intros [= Hc Hw].
        exists [c], w. repeat split.
        -- exists c. split; auto. simpl. rewrite orb_false_r.
           now apply N.eqb_eq.
        -- now apply IH.
Qed.

Lemma alts_sem (ic : bool) (l : list regex) (p w q : str) :
  l <> [] ->
  sem ic (alts l) p w q <-> exists r, In r l /\ sem ic r p w q.
Proof.
  induction l as [|r l IH]; intros Hl; [contradiction|].
  destruct l as [|r' l].
  - simpl. split; [eauto|]. now intros (x & [<-|[]] & H).
  - change (alts (r :: r' :: l)) with (Alt r (alts (r' :: l))).
    cbn [sem]. rewrite IH by discriminate. split.
    + intros [H|(x & Hx & H)]; [exists r|exists x]; split; auto;
        [now left | now right].
    + intros (x & [<-|Hx] & H); [now left|right; eauto].
Qed.

(** The stoplist test of line 105 is the membership of the name, put in
    capitals, in the list of twenty words. *)
Lemma invalidPatterns_test (c : str) :
  test true invalidPatterns c = true
  <-> In (toUpperCase c) (map lit invalidWords).
Proof.
  rewrite test_iff. unfold invalidPatterns. split.
  - intros (u & w & q & -> & S).
    destruct S as (u1 & v1 & -> & (-> & Hp) & u2 & v2 & -> & S & -> & ->).
    apply (f_equal (@rev N)) in Hp.
    rewrite rev_involutive in Hp. simpl in Hp. subst u.
    simpl app. rewrite !app_nil_r.
    cbn [sem] in S. apply alts_sem in S; [|discriminate].
    destruct S as (r & Hr & S). apply in_map_iff in Hr.
    destruct Hr as (s & <- & Hs). apply word_sem in S.
    unfold toUpperCase. rewrite S.
    assert (F : Forall (fun s => map upper (lit s) = lit s) invalidWords)
      by (repeat constructor).
    rewrite Forall_forall in F. rewrite (F s Hs). now apply in_map.
  - intros H. apply in_map_iff in H. destruct H as (s & E & Hs).
    exists [], c, []. rewrite app_nil_r. split; auto.
    exists [], c. repeat split; auto.
    exists c, []. rewrite app_nil_r. repeat split; auto.
    cbn [sem]. apply alts_sem; [discriminate|].
    exists (word s). split; [now apply in_map|].
    apply word_sem. unfold toUpperCase in E. rewrite <- E.
    assert (F : Forall (fun s => map upper (lit s) = lit s) invalidWords)
      by (repeat constructor).
    rewrite Forall_forall in F. now rewrite (F s Hs).
Qed.

Lemma cueWithDialogue_wellformed (line c d : str) :
  cueWithDialogue line = Some (c, d) ->
  truthy d = true /\ trim d = d
  /\ 2 <= length c <= 49 /\ trim c = c /\ noBar c
  /\ ~ In (toUpperCase c) (map lit invalidWords).
Proof.
  unfold cueWithDialogue.
  destruct (truthy (trim line)); simpl; [|discriminate].
  destruct (classify (trim line)); try discriminate.
  destruct (exec false charRe (trim line)) as [m|] eqn:E; [|discriminate].
  destruct (truthy (normalize (grp 1 m))); simpl; [|discriminate].
  destruct (1 <? length (normalize (grp 1 m))) eqn:E1; simpl; [|discriminate].
  destruct (length (normalize (grp 1 m)) <? 50) eqn:E2; simpl; [|discriminate].
  destruct (test true invalidPatterns (normalize (grp 1 m))) eqn:E3; simpl;
    [discriminate|].
  destruct (truthy (trim (grp 2 m))) eqn:E4; [|discriminate].
  intros [= <- <-]. apply Nat.ltb_lt in E1, E2.
  repeat split; auto using trim_idem; try lia.
  - unfold normalize. apply trim_idem.
  - eapply charRe_name; eauto.
  - intros H. apply invalidPatterns_test in H. congruence.
Qed.

Lemma dialogueIndex_lines (lines : list str) :
  forall i h,
    Forall (fun e =>
              exists line,
                nth_error lines (lineNumber e - 1 - i) = Some line
                /\ cueWithDialogue line
                   = Some (d_characters e, Character_dialogue e))
      (dialogueIndex i h lines).
Proof.
  induction lines as [|l r IH]; intros i h; cbn [dialogueIndex];
    [constructor|].
  apply Forall_app; split.
  - destruct (cueWithDialogue l) as [[c d]|] eqn:E; [|constructor].
    constructor; [|constructor]. exists l. cbn [lineNumber].
    replace (i + 1 - 1 - i) with 0 by lia. auto.
  - pose proof (IH (S i) (if isHeading l then S h else h)) as H1.
    pose proof (dialogueIndex_bounds r (S i) (if isHeading l then S h else h))
      as H2.
    rewrite Forall_forall in *. intros e He.
    destruct (H1 e He) as (line & Hn & Hc). destruct (H2 e He) as [Hb _].
    exists line. split; auto.
    replace (lineNumber e - 1 - i) with (S (lineNumber e - 1 - S i)) by lia.
    exact Hn.
Qed.

(** X7. Every entry of the dialogue index comes from the line it names:
    that line is a cue with dialogue yielding the entry's character and
    text.  The text is non-empty and trimmed; the character is trimmed, has
    2 to 49 units, holds no vertical bar and is, in capitals, none of the
    twenty stoplist words. *)
Theorem dialogue_entries_wellformed (text : str) :
  Forall (fun e =>
            (exists line,
                nth_error (split 10 text) (lineNumber e - 1) = Some line
                /\ cueWithDialogue line
                   = Some (d_characters e, Character_dialogue e))
            /\ truthy (Character_dialogue e) = true
            /\ trim (Character_dialogue e) = Character_dialogue e
            /\ 2 <= length (d_characters e) <= 49
            /\ trim (d_characters e) = d_characters e
            /\ noBar (d_characters e)
            /\ ~ In (toUpperCase (d_characters e)) (map lit invalidWords))
    (a_dialogues (parseScreenplay text)).
Proof.
  change (a_dialogues (parseScreenplay text))
    with (dialogues (finish (split 10 text))).
  rewrite finish_index.
  eapply Forall_impl; [|apply dialogueIndex_lines]. cbn beta.
  intros e (line & Hn & Hc). rewrite Nat.sub_0_r in Hn.
  split; [eauto|]. eapply cueWithDialogue_wellformed; eauto.
Qed.

(* ================================================================== *)
(** ** Scene records against the dialogue index *)
(* ================================================================== *)

Lemma entriesOf_app (k : nat) (ds : list Dialogue) (d : Dialogue) :
  entriesOf k (ds ++ [d])
  = entriesOf k ds ++ (if d_sceneNumber d =? k then [d] else []).
Proof. unfold entriesOf. now rewrite filter_app. Qed.

Lemma entriesOf_none (k : nat) (ds : list Dialogue) :
  Forall (fun d => d_sceneNumber d < k) ds -> entriesOf k ds = [].
Proof.
  induction 1 as [|d r Hd Hr IH]; simpl; auto.
  destruct (d_sceneNumber d =? k) eqn:E; auto.
  apply Nat.eqb_eq in E. lia.
Qed.

Lemma numbered_scene_le (s : loop) :
  numbered s -> Forall (fun sc => 1 <= sceneNumber sc <= sceneCount s) (scenes s).
Proof.
  intros H. pose proof (nb_scenes s H) as E.
  apply Forall_forall. intros sc Hsc.
  apply (in_map sceneNumber) in Hsc. rewrite E in Hsc.
  apply in_seq in Hsc. lia.
Qed.

Lemma linked_init : linked init.
Proof.
  split; simpl; try constructor; intros H; now destruct H.
Qed.

(** What the save of a scene adds to the saved scenes. *)
Lemma saveScene_links (s : loop) :
  numbered s -> linked s ->
  Forall (fun sc =>
            exists pre,
              map Character_dialogue (entriesOf (sceneNumber sc) (dialogues s))
              = pre ++ sceneDialogueList sc
              /\ (2 <= sceneNumber sc -> pre = []))
    (scenes (saveScene s))
  /\ Forall (fun sc =>
               2 <= sceneNumber sc ->
               forall d, In d (entriesOf (sceneNumber sc) (dialogues s)) ->
                         In (d_characters d) (sceneCharacterList sc))
       (scenes (saveScene s)).
Proof.
  intros Hn [L1 L2 L3 L4].
  destruct (currentScene s) as [h|] eqn:Hc.
  - destruct (saveScene_open s h Hc (nb_open s Hn h Hc)) as (E & _).
    rewrite E. split; apply Forall_app; split; auto;
      (constructor; [|constructor]);
      unfold sceneDialogueList, sceneCharacterList; simpl;
      rewrite nonempty_or_null_list.
    + destruct L3 as (pre & E1 & E2); [discriminate|].
      exists pre. rewrite Nat.add_1_r in E1. split; auto.
      intros H. apply E2. lia.
    + intros H d Hd. apply L4; [discriminate|lia|].
      now rewrite Nat.add_1_r.
  - rewrite (saveScene_closed s Hc). auto.
Qed.

Lemma addCharacter_current (c : str) (s : loop) :
  In c (currentSceneCharacters (addCharacter c s))
  /\ incl (currentSceneCharacters s) (currentSceneCharacters (addCharacter c s)).
Proof.
  simpl. destruct (arr_includes c (currentSceneCharacters s)) eqn:E.
  - apply arr_includes_In in E. split; auto. apply incl_refl.
  - split; [apply in_or_app; right; now left|]. now apply incl_appl.
Qed.

Lemma addCharacter_linked (c : str) (s : loop) :
  linked s -> linked (addCharacter c s).
Proof.
  intros [L1 L2 L3 L4]. split; auto.
  intros Ho Hk d Hd.
  apply (proj2 (addCharacter_current c s)). now apply L4.
Qed.

Lemma addDialogue_linked (i : nat) (c d : str) (s : loop) :
  numbered s -> In c (currentSceneCharacters s) ->
  linked s -> linked (addDialogue i c d s).
Proof.
  intros Hn Hc [L1 L2 L3 L4].
  pose proof (numbered_scene_le s Hn) as Hle.
  assert (Old : forall sc, In sc (scenes s) ->
                  entriesOf (sceneNumber sc)
                    (dialogues s ++ [mkDialogue (sceneCount s + 1) c d (i + 1)])
                  = entriesOf (sceneNumber sc) (dialogues s)).
  { intros sc Hsc. rewrite entriesOf_app. simpl.
    rewrite Forall_forall in Hle. specialize (Hle sc Hsc).
    destruct (sceneCount s + 1 =? sceneNumber sc) eqn:E.
    - apply Nat.eqb_eq in E. lia.
    - apply app_nil_r. }
  split; simpl.
  - rewrite Forall_forall in *. intros sc Hsc. rewrite (Old sc Hsc). auto.
  - rewrite Forall_forall in *. intros sc Hsc. rewrite (Old sc Hsc). auto.
  - intros Ho. destruct (L3 Ho) as (pre & E1 & E2).
    exists pre. rewrite entriesOf_app. simpl. rewrite Nat.eqb_refl.
    rewrite map_app, E1. simpl. now rewrite app_assoc.
  - intros Ho Hk e He. rewrite entriesOf_app in He. simpl in He.
    rewrite Nat.eqb_refl in He. apply in_app_or in He.
    destruct He as [He|[<-|[]]]; auto.
Qed.

Lemma step_linked (i : nat) (line : str) (s : loop) :
  numbered s -> linked s -> linked (step i line s).
Proof.
  intros Hn H. unfold step.
  destruct (truthy (trim line)); simpl; auto.
  destruct (classify (trim line)).
  - destruct (saveScene_links s Hn H) as [S1 S2].
    pose proof (saveScene_numbered s Hn) as Hn'.
    assert (None' : currentScene s <> None ->
                    entriesOf (sceneCount (saveScene s) + 1) (dialogues s) = []).
    { intros Ho. destruct (currentScene s) as [h|] eqn:Hc; [|now destruct Ho].
      destruct (saveScene_open s h Hc (nb_open s Hn h Hc)) as (_ & E & _).
      rewrite E. apply entriesOf_none.
      eapply Forall_impl; [|apply (nb_dialogues s Hn)]. simpl. lia. }
    assert (Closed : currentScene s = None -> sceneCount (saveScene s) = 0).
    { intros Hc. rewrite (saveScene_closed s Hc). apply (nb_none s Hn Hc). }
    split; simpl; rewrite ?saveScene_dialogues; auto.
    + intros _. destruct (currentScene s) as [h|] eqn:Hc.
      * exists []. rewrite None' by discriminate. auto.
      * rewrite (Closed eq_refl). simpl. eexists. split.
        -- symmetry. apply app_nil_r.
        -- lia.
    + intros _ Hk e He. destruct (currentScene s) as [h|] eqn:Hc.
      * rewrite None' in He by discriminate. destruct He.
      * rewrite (Closed eq_refl) in Hk. lia.
  - destruct (exec false charRe (trim line)) as [m|]; auto.
    match goal with |- linked (if ?b then _ else _) => destruct b end; auto.
    destruct (truthy (trim (grp 2 m)));
      [|now apply addCharacter_linked].
    apply addDialogue_linked.
    + now apply addCharacter_numbered.
    + apply (proj1 (addCharacter_current _ _)).
    + now apply addCharacter_linked.
  - match goal with |- linked (if ?b then _ else _) => destruct b end;
      auto using addCharacter_linked.
  - match goal with |- linked (if ?b then _ else _) => destruct b end;
      auto using addCharacter_linked.
  - destruct H as [L1 L2 L3 L4]. split; auto.
Qed.

Lemma run_linked (lines : list str) :
  forall i s, numbered s -> linked s ->
              numbered (run i lines s) /\ linked (run i lines s).
Proof.
  induction lines as [|l r IH]; intros i s Hn Hl; simpl; auto.
  apply IH; [now apply step_numbered | now apply step_linked].
Qed.

Lemma finish_links (lines : list str) :
  let s := finish lines in
  Forall (fun sc =>
            exists pre,
              map Character_dialogue (entriesOf (sceneNumber sc) (dialogues s))
              = pre ++ sceneDialogueList sc
              /\ (2 <= sceneNumber sc -> pre = []))
    (scenes s)
  /\ Forall (fun sc =>
               2 <= sceneNumber sc ->
               forall d, In d (entriesOf (sceneNumber sc) (dialogues s)) ->
                         In (d_characters d) (sceneCharacterList sc))
       (scenes s).
Proof.
  cbv zeta. unfold finish. rewrite saveScene_dialogues.
  destruct (run_linked lines 0 init numbered_init linked_init) as [Hn Hl].
  now apply saveScene_links.
Qed.

(** X9. From the second scene on, whoever has an entry of the dialogue
    index in a scene is in the character list of that scene. *)
Theorem scene_speakers_listed (text : str) :
  let a := parseScreenplay text in
  Forall (fun sc =>
            2 <= sceneNumber sc ->
            forall d, In d (entriesOf (sceneNumber sc) (a_dialogues a)) ->
                      In (d_characters d) (sceneCharacterList sc))
    (a_scenes a).
Proof. apply (proj2 (finish_links (split 10 text))). Qed.

(** *** The time of day *)

Lemma extractTimeOfDay_vocabulary (h : str) :
  In (extractTimeOfDay h) timeVocabulary.
Proof.
  unfold extractTimeOfDay, timeVocabulary.
  destruct (exec true timeRe h) as [[st0 st1]|] eqn:E; [|now left].
  right.
  pose (Q := fun (i : nat) (w : str) =>
               i = 1 -> In (toUpperCase w) (map lit timeWords)).
  assert (Hc : captures true Q timeRe).
  { unfold timeRe. cbn [seqs captures].
    split; [exact I|]. split; [|exact I]. split; [|simpl; tauto].
    intros p w q S _.
    apply (alts_sem true (map word timeWords)) in S; [|discriminate].
    destruct S as (r & Hr & S). apply in_map_iff in Hr.
    destruct Hr as (s & <- & Hs). apply word_sem in S.
    unfold toUpperCase. rewrite S.
    assert (F : Forall (fun s => map upper (lit s) = lit s) timeWords)
      by (repeat constructor).
    rewrite Forall_forall in F. rewrite (F s Hs). now apply in_map. }
  pose proof (exec_binds true 1 timeRe h (st0, st1) eq_refl E) as B.
  unfold exec in E.
  destruct (search_sound true Q timeRe Hc h [] st0 st1 E)
    as (u & w & q' & _ & _ & _ & _ & _ & C).
  unfold grp. unfold group in *. simpl in *.
  pose proof (lookup_ok Q 1 _ C) as L.
  destruct (lookup 1 (caps st1)); [now apply L|contradiction].
Qed.

(** X10. The time of day of every scene is one of the eleven words of
    the vocabulary: DAY, NIGHT, MORNING, AFTERNOON, EVENING, DAWN, DUSK,
    CONTINUOUS, LATER, SAME TIME, or UNSPECIFIED. *)
Theorem timeOfDay_in_vocabulary (text : str) :
  Forall (fun sc => In (timeOfDay sc) timeVocabulary)
    (a_scenes (parseScreenplay text)).
Proof.
  eapply Forall_impl; [|apply (td_scenes _ (finish_tidy (split 10 text)))].
  intros sc (_ & _ & _ & _ & _ & _ & _ & ->).
  apply extractTimeOfDay_vocabulary.
Qed.

(* ================================================================== *)
(** ** What the interaction records say *)
(* ================================================================== *)

(** *** The groups are the entries scene by scene *)

Lemma group_push_entries (pre : list Dialogue) (d : Dialogue)
    (m : list (nat * list Dialogue)) :
  NoDup (map fst m) ->
  Forall (fun e => snd e = entriesOf (fst e) pre) m ->
  (~ In (d_sceneNumber d) (map fst m) -> entriesOf (d_sceneNumber d) pre = []) ->
  Forall (fun e => snd e = entriesOf (fst e) (pre ++ [d])) (group_push d m).
Proof.
  induction m as [|[n g] r IH]; intros Hk Hm Hnew; simpl.
  - constructor; [|constructor]. simpl. rewrite entriesOf_app.
    rewrite Hnew by (intros []). now rewrite Nat.eqb_refl.
  - inversion Hk as [|? ? Hn Hk']; subst.
    inversion Hm as [|? ? Hg Hr]; subst. simpl in *.
    destruct (n =? d_sceneNumber d) eqn:E.
    + apply Nat.eqb_eq in E. subst n. constructor.
      * simpl. rewrite entriesOf_app, Nat.eqb_refl. now rewrite Hg.
      * rewrite Forall_forall in *. intros e He. rewrite entriesOf_app.
        destruct (d_sceneNumber d =? fst e) eqn:E'.
        -- apply Nat.eqb_eq in E'. exfalso. apply Hn. rewrite E'.
           now apply in_map.
        -- rewrite app_nil_r. auto.
    + apply Nat.eqb_neq in E. constructor.
      * simpl. rewrite entriesOf_app.
        destruct (d_sceneNumber d =? n) eqn:E'.
        -- apply Nat.eqb_eq in E'. congruence.
        -- now rewrite app_nil_r.
      * apply IH; auto. intros H. apply Hnew. intros [H'|H']; auto.
Qed.

Lemma group_push_cover (d : Dialogue) (m : list (nat * list Dialogue)) :
  In (d_sceneNumber d) (map fst (group_push d m))
  /\ incl (map fst m) (map fst (group_push d m)).
Proof.
  rewrite group_push_keys.
  destruct (existsb (Nat.eqb (d_sceneNumber d)) (map fst m)) eqn:E.
  - split; [|apply incl_refl]. apply existsb_exists in E.
    destruct E as (x & Hx & E). apply Nat.eqb_eq in E. now subst.
  - split; [apply in_or_app; right; now left | now apply incl_appl].
Qed.

Lemma groupByScene_entries (ds : list Dialogue) :
  Forall (fun e => snd e = entriesOf (fst e) ds) (groupByScene ds)
  /\ forall d, In d ds -> In (d_sceneNumber d) (map fst (groupByScene ds)).
Proof.
  unfold groupByScene.
  assert (G : forall rest pre m,
             NoDup (map fst m) ->
             Forall (fun e => snd e = entriesOf (fst e) pre) m ->
             (forall d, In d pre -> In (d_sceneNumber d) (map fst m)) ->
             let m' := fold_left (fun m d => group_push d m) rest m in
             Forall (fun e => snd e = entriesOf (fst e) (pre ++ rest)) m'
             /\ forall d, In d (pre ++ rest) ->
                          In (d_sceneNumber d) (map fst m')).
  { induction rest as [|d r IH]; intros pre m Hk Hm Hc; simpl.
    - rewrite app_nil_r. auto.
    - replace (pre ++ d :: r) with ((pre ++ [d]) ++ r)
        by (now rewrite <- app_assoc).
      apply IH.
      + now apply group_push_NoDup.
      + apply group_push_entries; auto. intros Hn.
        unfold entriesOf.
        destruct (filter (fun x => d_sceneNumber x =? d_sceneNumber d) pre)
          as [|x l] eqn:F; auto.
        assert (Hx : In x (x :: l)) by now left.
        rewrite <- F in Hx. apply filter_In in Hx. destruct Hx as [Hx E].
        apply Nat.eqb_eq in E. exfalso. apply Hn. rewrite <- E. auto.
      + intros x Hx. apply in_app_or in Hx.
        destruct Hx as [Hx|[<-|[]]].
        * apply (proj2 (group_push_cover d m)). auto.
        * apply (proj1 (group_push_cover d m)). }
  apply (G ds [] []); simpl; auto. constructor.
Qed.

(** *** Every recorded scene is shared *)

Lemma bump_Forall_any (P : str * Interaction -> Prop) (k : str) (n : nat)
    (m : imap) :
  (forall v, P (k, v) ->
             P (k, mkInteraction (character1 v) (character2 v)
                     (i_scenes v ++ [n]) (S (interactionCount v)))) ->
  Forall P m -> Forall P (bump k n m).
Proof.
  intros Hk. induction 1 as [|[k' v] r Hv Hr IH]; simpl; [constructor|].
  destruct (str_eqb k k') eqn:E.
  - apply str_eqb_eq in E. subst k'. constructor; auto.
  - constructor; auto.
Qed.

Lemma record_pair_sound (ds : list Dialogue) (n : nat) (m : imap) (a b : str) :
  noBar a -> noBar b -> speaks ds a n -> speaks ds b n ->
  Forall (entry_sound ds) m ->
  Forall (entry_sound ds) (record_pair n m (a, b)).
Proof.
  intros Ba Bb Sa Sb Hm. unfold record_pair.
  apply bump_Forall_any.
  - intros v (B1 & B2 & K & S). unfold entry_sound in *. simpl in *.
    split; [exact B1|]. split; [exact B2|]. split; [exact K|].
    intros x Hx. apply in_app_or in Hx. destruct Hx as [Hx|[<-|[]]].
    + now apply S.
    + apply interactionKey_inj in K; auto.
      destruct K as [[<- <-]|[<- <-]]; auto.
  - destruct (has (interactionKey a b) m); auto.
    apply Forall_app; split; auto. constructor; [|constructor].
    unfold entry_sound. simpl.
    split; [exact Ba|]. split; [exact Bb|]. split; [reflexivity|].
    intros x [].
Qed.

Lemma record_scene_sound (ds : list Dialogue) (m : imap) (n : nat)
    (g : list Dialogue) :
  Forall (fun d => noBar (d_characters d)) ds ->
  g = entriesOf n ds ->
  Forall (entry_sound ds) m ->
  Forall (entry_sound ds) (record_scene m (n, g)).
Proof.
  intros Hb -> Hm. unfold record_scene.
  destruct (dedup_spec (map d_characters (entriesOf n ds))) as [_ Id].
  set (L := dedup (map d_characters (entriesOf n ds))) in *.
  assert (Good : forall x, In x L -> noBar x /\ speaks ds x n).
  { intros x Hx. apply Id in Hx. apply in_map_iff in Hx.
    destruct Hx as (d & <- & Hd). apply filter_In in Hd.
    destruct Hd as [Hd E]. apply Nat.eqb_eq in E.
    rewrite Forall_forall in Hb. split; [auto|]. exists d. auto. }
  assert (P : forall p, In p (pairs L) -> In (fst p) L /\ In (snd p) L)
    by (intros [a b] H; now apply pairs_In).
  revert m Hm P. generalize (pairs L).
  induction l as [|[a b] r IH]; intros m Hm P; simpl; auto.
  apply IH; [|intros p Hp; apply P; now right].
  destruct (P (a, b) (or_introl eq_refl)) as [Ha Hb']. simpl in *.
  apply record_pair_sound; auto; now apply Good.
Qed.

Lemma interactionMap_sound (ds : list Dialogue) :
  Forall (fun d => noBar (d_characters d)) ds ->
  Forall (entry_sound ds) (interactionMap ds).
Proof.
  intros Hb. unfold interactionMap.
  pose proof (proj1 (groupByScene_entries ds)) as G.
  assert (S : forall l m,
             Forall (fun e => snd e = entriesOf (fst e) ds) l ->
             Forall (entry_sound ds) m ->
             Forall (entry_sound ds) (fold_left record_scene l m)).
  { induction l as [|[n g] r IH]; intros m Hl Hm; simpl; auto.
    inversion Hl; subst. apply IH; auto.
    now apply record_scene_sound. }
  apply S; auto.
Qed.

(** X11. A scene number in an interaction record is a scene in which both
    of its characters speak: each has an entry of the dialogue index with
    that scene number. *)
Theorem interaction_scenes_shared (text : str) :
  let a := parseScreenplay text in
  Forall (fun v =>
            forall n, In n (i_scenes v) ->
                      speaks (a_dialogues a) (character1 v) n
                      /\ speaks (a_dialogues a) (character2 v) n)
    (interactions a).
Proof.
  cbv zeta.
  change (interactions (parseScreenplay text))
    with (map snd (interactionMap (a_dialogues (parseScreenplay text)))).
  apply Forall_map.
  eapply Forall_impl;
    [|apply interactionMap_sound, (finish_noBar (split 10 text))].
  intros e (_ & _ & _ & S). exact S.
Qed.

(** *** Every shared scene is recorded *)

Lemma bump_has (k' : str) (n' : nat) (m : imap) (k : str) (n : nat) :
  has_scene k n m -> has_scene k n (bump k' n' m).
Proof.
  intros (v & Hv & Hn). induction m as [|[k1 v1] r IH]; [destruct Hv|].
  simpl. destruct Hv as [[= -> ->]|Hv].
  - destruct (str_eqb k' k).
    + eexists. split; [now left|]. simpl. apply in_or_app. now left.
    + exists v. split; [now left|auto].
  - destruct (IH Hv) as (v' & Hv' & Hn').
    destruct (str_eqb k' k1).
    + exists v. split; [now right|auto].
    + exists v'. split; [now right|auto].
Qed.

Lemma bump_adds (k : str) (n : nat) (m : imap) :
  In k (map fst m) -> has_scene k n (bump k n m).
Proof.
  induction m as [|[k1 v1] r IH]; intros H; [destruct H|].
  simpl. destruct (str_eqb k k1) eqn:E.
  - apply str_eqb_eq in E. subst k1. eexists. split; [now left|].
    simpl. apply in_or_app. right. now left.
  - destruct H as [H|H].
    + simpl in H. subst k1.
      rewrite (proj2 (str_eqb_eq k k) eq_refl) in E. discriminate.
    + destruct (IH H) as (v & Hv & Hn). exists v. split; [now right|auto].
Qed.

Lemma record_pair_keeps (n : nat) (m : imap) (p : str * str) (k : str)
    (n0 : nat) :
  has_scene k n0 m -> has_scene k n0 (record_pair n m p).
Proof.
  intros (v & Hv & Hn). destruct p as [a b]. unfold record_pair.
  apply bump_has. destruct (has (interactionKey a b) m).
  - exists v. auto.
  - exists v. split; auto. apply in_or_app. now left.
Qed.

Lemma record_pair_has (n : nat) (m : imap) (a b : str) :
  has_scene (interactionKey a b) n (record_pair n m (a, b)).
Proof.
  unfold record_pair. apply bump_adds.
  destruct (has (interactionKey a b) m) eqn:E.
  - now apply has_In.
  - rewrite map_app. apply in_or_app. right. now left.
Qed.

Lemma record_pairs_keep (n : nat) (ps : list (str * str)) (k : str) (n0 : nat) :
  forall m, has_scene k n0 m -> has_scene k n0 (fold_left (record_pair n) ps m).
Proof.
  induction ps as [|p r IH]; intros m H; simpl; auto.
  apply IH. now apply record_pair_keeps.
Qed.

Lemma record_pairs_have (n : nat) (ps : list (str * str)) (a b : str) :
  forall m,
    In (a, b) ps ->
    has_scene (interactionKey a b) n (fold_left (record_pair n) ps m).
Proof.
  induction ps as [|p r IH]; intros m H; [destruct H|]. simpl.
  destruct H as [->|H]; [|now apply IH].
  apply record_pairs_keep, record_pair_has.
Qed.

Lemma pairs_cover (l : list str) (a b : str) :
  In a l -> In b l -> a <> b -> In (a, b) (pairs l) \/ In (b, a) (pairs l).
Proof.
  induction l as [|x r IH]; intros Ha Hb Hne; [destruct Ha|]. simpl.
  destruct Ha as [->|Ha], Hb as [->|Hb].
  - now destruct Hne.
  - left. apply in_or_app. left. now apply in_map.
  - right. apply in_or_app. left. now apply in_map.
  - destruct (IH Ha Hb Hne); [left|right]; apply in_or_app; now right.
Qed.

Lemma dedup_all (l : list str) : incl l (dedup l).
Proof.
  unfold dedup.
  assert (G : forall acc,
             incl (acc ++ l) (fold_left (fun a x => set_add x a) l acc)).
  { induction l as [|x r IH]; intros acc; simpl.
    - rewrite app_nil_r. apply incl_refl.
    - intros y Hy. apply IH. apply in_app_or in Hy. apply in_or_app.
      destruct Hy as [Hy|[<-|Hy]]; auto; left; apply set_add_In; auto. }
  apply (G []).
Qed.

Lemma record_scene_has (m : imap) (n : nat) (g : list Dialogue) (a b : str) :
  In a (map d_characters g) -> In b (map d_characters g) -> a <> b ->
  has_scene (interactionKey a b) n (record_scene m (n, g)).
Proof.
  intros Ha Hb Hne. unfold record_scene.
  apply dedup_all in Ha, Hb.
  destruct (pairs_cover _ a b Ha Hb Hne) as [H|H].
  - now apply record_pairs_have.
  - rewrite interactionKey_sym. now apply record_pairs_have.
Qed.

Lemma record_scenes_keep (l : list (nat * list Dialogue)) (k : str) (n0 : nat) :
  forall m, has_scene k n0 m -> has_scene k n0 (fold_left record_scene l m).
Proof.
  induction l as [|[n g] r IH]; intros m H; simpl; auto.
  apply IH. unfold record_scene. now apply record_pairs_keep.
Qed.

Lemma interactionMap_complete (ds : list Dialogue) (d1 d2 : Dialogue) :
  In d1 ds -> In d2 ds -> d_sceneNumber d1 = d_sceneNumber d2 ->
  d_characters d1 <> d_characters d2 ->
  has_scene (interactionKey (d_characters d1) (d_characters d2))
    (d_sceneNumber d1) (interactionMap ds).
Proof.
  intros H1 H2 En Hne. unfold interactionMap.
  destruct (groupByScene_entries ds) as [G C].
  specialize (C d1 H1). apply in_map_iff in C.
  destruct C as ([n g] & E & Hg). simpl in E. subst n.
  rewrite Forall_forall in G. pose proof (G _ Hg) as Eg. simpl in Eg.
  apply in_split in Hg. destruct Hg as (l1 & l2 & ->).
  rewrite fold_left_app. simpl.
  apply record_scenes_keep, record_scene_has; auto; rewrite Eg;
    apply in_map, filter_In; split; auto using Nat.eqb_refl.
  rewrite En. apply Nat.eqb_refl.
Qed.

(** X12. Two different characters who both have an entry of the dialogue
    index in the same scene have an interaction record, and the scenes of
    that record include this scene. *)
Theorem shared_scene_recorded (text : str) (d1 d2 : Dialogue) :
  let a := parseScreenplay text in
  In d1 (a_dialogues a) -> In d2 (a_dialogues a) ->
  d_sceneNumber d1 = d_sceneNumber d2 ->
  d_characters d1 <> d_characters d2 ->
  exists v,
    In v (interactions a)
    /\ ((character1 v = d_characters d1 /\ character2 v = d_characters d2)
        \/ (character1 v = d_characters d2 /\ character2 v = d_characters d1))
    /\ In (d_sceneNumber d1) (i_scenes v).
Proof.
  cbv zeta. intros H1 H2 En Hne.
  set (ds := a_dialogues (parseScreenplay text)) in *.
  assert (Hb : Forall (fun d => noBar (d_characters d)) ds)
    by apply (finish_noBar (split 10 text)).
  destruct (interactionMap_complete ds d1 d2 H1 H2 En Hne) as (v & Hv & Hn).
  pose proof (interactionMap_sound ds Hb) as S.
  rewrite Forall_forall in S, Hb.
  destruct (S _ Hv) as (B1 & B2 & K & _). simpl in *.
  exists v. split; [apply (in_map snd _ _ Hv)|]. split; auto.
  symmetry in K. apply interactionKey_inj in K; auto.
Qed.

Lemma shared_scene_recorded_witness :
  let text := lit "INT. HOUSE - DAY" ++ 10%N :: lit "ZED: Hi."
                ++ 10%N :: lit "AMY: Hello." in
  exists v,
    In v (interactions (parseScreenplay text))
    /\ ((character1 v = lit "ZED" /\ character2 v = lit "AMY")
        \/ (character1 v = lit "AMY" /\ character2 v = lit "ZED"))
    /\ In 1 (i_scenes v).
Proof.
  apply (shared_scene_recorded _ (mkDialogue 1 (lit "ZED") (lit "Hi.") 2)
           (mkDialogue 1 (lit "AMY") (lit "Hello.") 3)).
  - vm_compute. auto.
  - vm_compute. auto.
  - reflexivity.
  - discriminate.
Defined.

(** *** The scenes of a record rise *)

Lemma StronglySorted_snoc {A : Type} (R : A -> A -> Prop) (l : list A) (x : A) :
  StronglySorted R l -> Forall (fun k => R k x) l ->
  StronglySorted R (l ++ [x]).
Proof.
  induction 1 as [|y r Hr IH Hy]; intros H; simpl.
  - repeat constructor.
  - inversion H; subst. constructor; auto.
    apply Forall_app; split; auto.
Qed.

Lemma StronglySorted_weaken {A : Type} (R R' : A -> A -> Prop) (l : list A) :
  (forall x y, R x y -> R' x y) -> StronglySorted R l -> StronglySorted R' l.
Proof.
  intros H. induction 1 as [|y r Hr IH Hy]; constructor; auto.
  eapply Forall_impl; [|exact Hy]. auto.
Qed.

Lemma sorted_le_lt (l : list nat) :
  StronglySorted le l -> NoDup l -> StronglySorted lt l.
Proof.
  induction 1 as [|y r Hr IH Hy]; intros Hn; constructor;
    inversion Hn as [|? ? Hy' Hn']; subst; auto.
  rewrite Forall_forall in *. intros x Hx.
  specialize (Hy x Hx). assert (x <> y) by (intros ->; contradiction). lia.
Qed.

Lemma groupByScene_keys_rise (ds : list Dialogue) :
  StronglySorted (fun d e => d_sceneNumber d <= d_sceneNumber e) ds ->
  StronglySorted lt (map fst (groupByScene ds)).
Proof.
  unfold groupByScene.
  assert (G : forall rest m,
             StronglySorted (fun d e => d_sceneNumber d <= d_sceneNumber e) rest ->
             StronglySorted lt (map fst m) ->
             (forall k d, In k (map fst m) -> In d rest -> k <= d_sceneNumber d) ->
             StronglySorted lt
               (map fst (fold_left (fun m d => group_push d m) rest m))).
  { induction rest as [|d r IH]; intros m Hs Hm Hb; simpl; auto.
    inversion Hs as [|? ? Hr Hd]; subst. rewrite Forall_forall in Hd.
    apply IH; auto.
    - rewrite group_push_keys.
      destruct (existsb (Nat.eqb (d_sceneNumber d)) (map fst m)) eqn:E; auto.
      apply StronglySorted_snoc; auto.
      apply Forall_forall. intros k Hk.
      assert (k <= d_sceneNumber d) by (apply Hb; auto; now left).
      assert (k <> d_sceneNumber d).
      { intros ->.
        assert (existsb (Nat.eqb (d_sceneNumber d)) (map fst m) = true)
          by (apply existsb_exists; exists (d_sceneNumber d);
              split; auto; apply Nat.eqb_refl).
        congruence. }
      lia.
    - intros k e Hk He. rewrite group_push_keys in Hk.
      destruct (existsb (Nat.eqb (d_sceneNumber d)) (map fst m)).
      + apply Hb; auto. now right.
      + apply in_app_or in Hk. destruct Hk as [Hk|[<-|[]]].
        * apply Hb; auto. now right.
        * now apply Hd. }
  intros H. apply G; auto.
  - constructor.
  - intros k d [].
Qed.

Lemma record_pair_rising (n : nat) (m : imap) (p : str * str) :
  Forall (entry_rising n) m -> Forall (entry_rising n) (record_pair n m p).
Proof.
  intros Hm. destruct p as [a b]. unfold record_pair.
  apply bump_Forall_any.
  - intros v [H1 H2]. unfold entry_rising in *. simpl in *. split.
    + now apply StronglySorted_snoc.
    + apply Forall_app; split; auto.
  - destruct (has (interactionKey a b) m); auto.
    apply Forall_app; split; auto. constructor; [|constructor].
    split; simpl; constructor.
Qed.

Lemma record_scene_rising (B : nat) (m : imap) (n : nat) (g : list Dialogue) :
  B <= n -> Forall (entry_rising B) m ->
  Forall (entry_rising n) (record_scene m (n, g)).
Proof.
  intros Hb Hm. unfold record_scene.
  assert (Hn : Forall (entry_rising n) m).
  { eapply Forall_impl; [|exact Hm]. intros e [H1 H2]. split; auto.
    eapply Forall_impl; [|exact H2]. simpl. lia. }
  clear Hm. revert m Hn.
  generalize (pairs (dedup (map d_characters g))).
  induction l as [|p r IH]; intros m Hm; simpl; auto.
  apply IH. now apply record_pair_rising.
Qed.

Lemma record_scenes_rising (l : list (nat * list Dialogue)) :
  forall B m,
    StronglySorted lt (map fst l) ->
    (forall k, In k (map fst l) -> B <= k) ->
    Forall (entry_rising B) m ->
    exists B', Forall (entry_rising B') (fold_left record_scene l m).
Proof.
  induction l as [|[n g] r IH]; intros B m Hs Hb Hm; simpl.
  - now exists B.
  - inversion Hs as [|? ? Hr Hn]; subst. simpl in *.
    apply (IH n).
    + exact Hr.
    + intros k Hk. rewrite Forall_forall in Hn. specialize (Hn k Hk). lia.
    + apply (record_scene_rising B); auto.
Qed.

(** X13. In every interaction record the scene numbers are listed in
    strictly increasing order. *)
Theorem interaction_scenes_increasing (text : str) :
  Forall (fun v => StronglySorted lt (i_scenes v))
    (interactions (parseScreenplay text)).
Proof.
  change (interactions (parseScreenplay text))
    with (map snd (interactionMap (dialogues (finish (split 10 text))))).
  set (ds := dialogues (finish (split 10 text))).
  destruct (interactionMap_closed ds (finish_noBar (split 10 text)))
    as [seen [_ Hc]].
  assert (Hs : StronglySorted
                 (fun d e => d_sceneNumber d <= d_sceneNumber e) ds).
  { unfold ds. rewrite finish_index.
    eapply StronglySorted_weaken; [|apply dialogueIndex_sorted].
    simpl. tauto. }
  destruct (record_scenes_rising (groupByScene ds) 0 []
              (groupByScene_keys_rise ds Hs)) as [B Hr].
  - intros k _. lia.
  - constructor.
  - fold (interactionMap ds) in Hr. apply Forall_map.
    rewrite Forall_forall in *. intros e He.
    destruct (Hr e He) as [H1 _]. destruct (Hc e He) as (_ & _ & _ & H2 & _).
    now apply sorted_le_lt.
Qed.

(* ================================================================== *)
(** ** A text without headings *)
(* ================================================================== *)

Lemma dialogueIndex_no_heading (lines : list str) :
  forallb (fun x => negb (isHeading x)) lines = true ->
  forall i,
    Forall (fun d => d_sceneNumber d = 1) (dialogueIndex i 0 lines).
Proof.
  induction lines as [|l r IH]; intros H i; cbn [dialogueIndex];
    [constructor|].
  simpl in H. apply andb_prop in H. destruct H as [Hl Hr].
  apply negb_true_iff in Hl. rewrite Hl.
  apply Forall_app; split; auto.
  destruct (cueWithDialogue l) as [[c d]|]; repeat constructor.
Qed.

Lemma headings_none (lines : list str) :
  forallb (fun x => negb (isHeading x)) lines = true -> headings lines = [].
Proof.
  unfold headings. induction lines as [|l r IH]; simpl; auto.
  intros H. apply andb_prop in H. destruct H as [Hl Hr].
  apply negb_true_iff in Hl. rewrite Hl. auto.
Qed.

Lemma finish_headings (lines : list str) :
  map Scene_Names (scenes (finish lines)) = headings lines.
Proof.
  unfold finish. rewrite saveScene_heads.
  - now rewrite run_heads by apply numbered_init.
  - apply (nb_open _ (run_numbered lines 0 init numbered_init)).
Qed.

(** X14. A non-empty text without any heading line is analysed without
    error: the result has no scene, every dialogue entry is numbered 1, and
    the three per-scene averages of the summary are 0, no division being
    made. *)
Theorem text_without_heading (num : Type) (ofNat : nat -> num)
    (div mul sub : num -> num -> num) (round : num -> num)
    (name text : str) (c : clock num) :
  text <> [] ->
  forallb (fun x => negb (isHeading x)) (split 10 text) = true ->
  exists r,
    runCompleteAnalysis num ofNat div mul sub round name text c = Returned num r
    /\ totalScenes num r = 0 /\ r_scenes num r = []
    /\ Forall (fun d => d_sceneNumber d = 1) (r_dialogues num r)
    /\ averageDialoguesPerScene num (summary num r) = ofNat 0
    /\ charactersPerScene num (summary num r) = ofNat 0
    /\ averageSceneLength num (summary num r) = ofNat 0.
Proof.
  intros Ht Hh. unfold runCompleteAnalysis.
  destruct text as [|u t]; [contradiction|].
  eexists. split; [reflexivity|].
  assert (E : a_scenes (parseScreenplay (u :: t)) = []).
  { pose proof (finish_headings (split 10 (u :: t))) as H.
    rewrite (headings_none _ Hh) in H.
    now apply map_eq_nil in H. }
  cbn [totalScenes r_scenes r_dialogues summary].
  unfold generateSummary.
  cbn [averageDialoguesPerScene charactersPerScene averageSceneLength].
  rewrite E. simpl length. repeat split; auto.
  change (a_dialogues (parseScreenplay (u :: t)))
    with (dialogues (finish (split 10 (u :: t)))).
  rewrite finish_index. now apply dialogueIndex_no_heading.
Qed.

Lemma text_without_heading_witness :
  exists r,
    runCompleteAnalysis nat (fun n => n) Nat.div Nat.mul Nat.sub (fun x => x)
      (lit "script") (lit "JOHN: Hello") (mkClock nat 0 (lit "now") 5)
    = Returned nat r
    /\ totalScenes nat r = 0 /\ r_scenes nat r = []
    /\ Forall (fun d => d_sceneNumber d = 1) (r_dialogues nat r)
    /\ averageDialoguesPerScene nat (summary nat r) = 0
    /\ charactersPerScene nat (summary nat r) = 0
    /\ averageSceneLength nat (summary nat r) = 0.
Proof.
  apply (text_without_heading nat (fun n => n) Nat.div Nat.mul Nat.sub
           (fun x => x)).
  - discriminate.
  - vm_compute. reflexivity.
Defined.

(* ================================================================== *)
(** ** The upload server *)
(* ================================================================== *)

(** *** The stored file name *)

Lemma unsafe_mem (c : N) :
  (c < 65536)%N -> mem false Server.unsafeClass c = negb (safeUnit c).
Proof.
  intros Hc. unfold Server.unsafeClass, safeUnit. simpl.
  apply Bool.eq_iff_eq_true.
  rewrite negb_true_iff, <- not_true_iff_false.
  repeat rewrite ?orb_true_iff, ?andb_true_iff, ?orb_false_r,
    ?N.leb_le, ?N.eqb_eq.
  lia.
Qed.

Lemma replace_all_from_S (fuel : nat) (ic : bool) (r : regex) (by_ p q : str) :
  replace_all_from (S fuel) ic r by_ p q
  = match search ic r p q with
    | None => q
    | Some (st0, st1) =>
        let skipped := firstn (length q - length (post st0)) q in
        if length (post st0) =? length (post st1) then
          match post st1 with
          | c :: t =>
              skipped ++ by_
                ++ c :: replace_all_from fuel ic r by_ (c :: pre st1) t
          | [] => skipped ++ by_
          end
        else skipped ++ by_
               ++ replace_all_from fuel ic r by_ (pre st1) (post st1)
    end.
Proof. reflexivity. Qed.

Lemma search_chr_hit (cs : cset) (c : N) (p t : str) :
  mem false cs c = true ->
  search false (Chr cs) p (c :: t)
  = Some (MState p (c :: t) [], MState (c :: p) t []).
Proof. intros E. simpl. now rewrite E. Qed.

Lemma search_chr_miss (cs : cset) (c : N) (p t : str) :
  mem false cs c = false ->
  search false (Chr cs) p (c :: t) = search false (Chr cs) (c :: p) t.
Proof. intros E. simpl. now rewrite E. Qed.

(** A global replace of one class by one unit rewrites the string unit by
    unit. *)
Lemma replace_all_chr (cs : cset) (u : N) :
  forall q fuel p,
    length q < fuel ->
    replace_all_from fuel false (Chr cs) [u] p q
    = map (fun c => if mem false cs c then u else c) q.
Proof.
  induction q as [|c t IH]; intros fuel p Hf;
    (destruct fuel as [|f]; [simpl in Hf; lia|]).
  - reflexivity.
  - cbn [length] in Hf. rewrite replace_all_from_S. cbn [map].
    destruct (mem false cs c) eqn:E.
    + rewrite (search_chr_hit cs c p t E). cbn [post pre].
      rewrite Nat.sub_diag.
      replace (length (c :: t) =? length t) with false
        by (symmetry; apply Nat.eqb_neq; cbn [length]; lia).
      cbn [firstn app]. f_equal. apply IH. lia.
    + rewrite (search_chr_miss cs c p t E).
      rewrite <- (IH (S f) (c :: p)) by lia.
      rewrite replace_all_from_S.
      destruct (search false (Chr cs) (c :: p) t) as [[st0 st1]|] eqn:Es; auto.
      destruct (search_sound false (fun _ _ => True) (Chr cs)
                  (captures_any false (Chr cs)) t (c :: p) st0 st1 Es)
        as (u' & w & q' & -> & -> & _ & E3 & _).
      cbn [post pre] in *. cbv zeta. cbn [length]. rewrite !length_app.
      replace (S (length u' + (length w + length q'))
               - (length w + length q')) with (S (length u')) by lia.
      replace (length u' + (length w + length q')
               - (length w + length q')) with (length u') by lia.
      cbn [firstn].
      destruct (length w + length q' =? length (post st1));
        [destruct (post st1)|]; reflexivity.
Qed.

Lemma sanitize_map (name : str) :
  utf16 name ->
  Server.sanitize name = map (fun c => if safeUnit c then c else 95%N) name.
Proof.
  intros H. unfold Server.sanitize, replace_all.
  rewrite (replace_all_chr Server.unsafeClass 95) by lia.
  apply map_ext_in. intros c Hc.
  unfold utf16 in H. rewrite Forall_forall in H.
  rewrite (unsafe_mem c (H c Hc)). now destruct (safeUnit c).
Qed.

(** X15. The sanitizer of upload names works unit by unit: a letter, a
    digit, a dot or a hyphen is kept and any other unit becomes an
    underscore.  So the name keeps its length, and a name made of kept
    units only is unchanged. *)
Theorem sanitize_unit_by_unit (name : str) :
  utf16 name ->
  Server.sanitize name = map (fun c => if safeUnit c then c else 95%N) name
  /\ length (Server.sanitize name) = length name
  /\ (forallb safeUnit name = true -> Server.sanitize name = name).
Proof.
  intros H. rewrite (sanitize_map name H). repeat split.
  - apply length_map.
  - intros Hs. rewrite forallb_forall in Hs.
    rewrite <- (map_id name) at 2. apply map_ext_in.
    intros c Hc. now rewrite (Hs c Hc).
Qed.

Lemma sanitize_unit_by_unit_witness :
  Server.sanitize (lit "../my script.pdf")
  = map (fun c => if safeUnit c then c else 95%N) (lit "../my script.pdf")
  /\ length (Server.sanitize (lit "../my script.pdf"))
     = length (lit "../my script.pdf")
  /\ (forallb safeUnit (lit "../my script.pdf") = true ->
      Server.sanitize (lit "../my script.pdf") = lit "../my script.pdf").
Proof. apply sanitize_unit_by_unit. repeat constructor. Defined.

Lemma digits_digit (u : Decimal.uint) :
  Forall (fun c => isDigit c = true) (Reports.digits u).
Proof. induction u; simpl; constructor; auto. Qed.

Lemma digits_inj (u : Decimal.uint) :
  forall u', Reports.digits u = Reports.digits u' -> u = u'.
Proof.
  induction u; destruct u'; simpl; intros H; try discriminate H; auto;
    injection H as H; f_equal; auto.
Qed.

Lemma decimalN_head (n : N) :
  exists d r, Reports.decimalN n = d :: r /\ isDigit d = true.
Proof.
  unfold Reports.decimalN.
  pose proof (digits_digit (N.to_uint n)) as F.
  destruct (Reports.digits (N.to_uint n)) as [|d r] eqn:E.
  - exfalso. destruct n as [|p]; [discriminate E|].
    simpl in E. pose proof (DecimalPos.Unsigned.to_uint_nonnil p) as Hn.
    destruct (Pos.to_uint p); [now apply Hn|discriminate E..].
  - inversion F; subst. eauto.
Qed.

Lemma underscore_split (x : str) :
  forall x' y y',
    Forall (fun c => c <> 95%N) x -> Forall (fun c => c <> 95%N) x' ->
    x ++ 95%N :: y = x' ++ 95%N :: y' -> x = x' /\ y = y'.
Proof.
  induction x as [|c x IH]; intros [|c' x'] y y' Hx Hx' E; simpl in E.
  - injection E as <-. auto.
  - injection E as <- _. inversion Hx'; subst. congruence.
  - injection E as -> _. inversion Hx; subst. congruence.
  - injection E as <- E. inversion Hx; inversion Hx'; subst.
    destruct (IH x' y y') as [-> ->]; auto.
Qed.

(** X16. The name under which an upload is stored begins with a digit and
    is made of letters, digits, dots, hyphens and underscores only: it holds
    no slash, no backslash and no NUL, whatever the name sent by the client. *)
Theorem storedName_safe (timestamp : N) (name : str) :
  utf16 name ->
  Forall (fun c => safeUnit c = true \/ c = 95%N)
    (Server.storedName timestamp name)
  /\ (exists d r, Server.storedName timestamp name = d :: r
                  /\ isDigit d = true)
  /\ ~ In 47%N (Server.storedName timestamp name)
  /\ ~ In 92%N (Server.storedName timestamp name)
  /\ ~ In 0%N (Server.storedName timestamp name).
Proof.
  intros H.
  assert (F : Forall (fun c => safeUnit c = true \/ c = 95%N)
                (Server.storedName timestamp name)).
  { unfold Server.storedName. apply Forall_app; split.
    - eapply Forall_impl; [|apply digits_digit]. intros c Hc. left.
      unfold isDigit in Hc. unfold safeUnit. rewrite Hc.
      now rewrite !orb_true_r.
    - simpl. constructor; [now right|].
      rewrite (sanitize_map name H). apply Forall_map, Forall_forall.
      intros c _. destruct (safeUnit c) eqn:E; auto. }
  split; [exact F|]. split.
  - unfold Server.storedName.
    destruct (decimalN_head timestamp) as (d & r & -> & Hd).
    simpl. eauto.
  - rewrite Forall_forall in F.
    repeat split; intros Hin; destruct (F _ Hin) as [E|E]; discriminate E.
Qed.

Lemma storedName_safe_witness :
  Forall (fun c => safeUnit c = true \/ c = 95%N)
    (Server.storedName 1700000000123 (lit "../etc/passwd"))
  /\ (exists d r, Server.storedName 1700000000123 (lit "../etc/passwd")
                  = d :: r /\ isDigit d = true)
  /\ ~ In 47%N (Server.storedName 1700000000123 (lit "../etc/passwd"))
  /\ ~ In 92%N (Server.storedName 1700000000123 (lit "../etc/passwd"))
  /\ ~ In 0%N (Server.storedName 1700000000123 (lit "../etc/passwd")).
Proof. apply storedName_safe. repeat constructor. Defined.

(** X17. The time stamp keeps stored names apart: two uploads get the
    same stored name only if they have the same time stamp and their names
    sanitize to the same string. *)
Theorem storedName_distinct (t1 t2 : N) (n1 n2 : str) :
  Server.storedName t1 n1 = Server.storedName t2 n2 ->
  t1 = t2 /\ Server.sanitize n1 = Server.sanitize n2.
Proof.
  unfold Server.storedName. simpl. intros E.
  assert (D : forall n, Forall (fun c => c <> 95%N) (Reports.decimalN n)).
  { intros n. eapply Forall_impl; [|apply digits_digit].
    intros c Hc ->. discriminate Hc. }
  apply underscore_split in E; auto. destruct E as [E1 E2]. split; auto.
  apply DecimalN.Unsigned.to_uint_inj. now apply digits_inj.
Qed.

Lemma storedName_distinct_witness :
  5%N = 5%N /\ Server.sanitize (lit "a b") = Server.sanitize (lit "a/b").
Proof. apply storedName_distinct. vm_compute. reflexivity. Defined.

(** *** The script name *)

Lemma pdfExt_sem (p w q : str) :
  sem true Server.pdfExt p w q <-> isPdfExt w /\ q = [].
Proof.
  unfold Server.pdfExt, isPdfExt. cbn [seqs]. cbn [sem]. split.
  - intros (u & v & -> & (c & -> & Hc) & u2 & v2 & -> & S & -> & ->).
    apply word_sem in S. apply lit_mem_ic in Hc.
    rewrite app_nil_r. cbn [app map]. rewrite Hc, S. auto.
  - intros [E ->]. destruct w as [|c v]; [discriminate|].
    cbn [map] in E. injection E as Hc Hv.
    exists [c], v. repeat split.
    + exists c. split; auto. simpl. rewrite orb_false_r. now apply N.eqb_eq.
    + exists v, []. rewrite app_nil_r. repeat split.
      apply word_sem. exact Hv.
Qed.

Lemma app_same_length {A : Type} (a : list A) :
  forall b c d, a ++ b = c ++ d -> length b = length d -> a = c /\ b = d.
Proof.
  induction a as [|x a IH]; intros b [|y c] d E L; simpl in *.
  - auto.
  - subst b. simpl in L. rewrite length_app in L. lia.
  - subst d. simpl in L. rewrite length_app in L. lia.
  - injection E as <- E. destruct (IH b c d E L) as [-> ->]. auto.
Qed.

(** The replace of line 150 cuts the extension off, when there is one. *)
Lemma replace_pdfExt (base ext : str) :
  isPdfExt ext -> replace true Server.pdfExt [] (base ++ ext) = base.
Proof.
  intros He. unfold replace, exec.
  pose proof (search_complete true Server.pdfExt base [] ext []) as C.
  rewrite !app_nil_r in C.
  specialize (C (proj2 (pdfExt_sem (rev base) ext []) (conj He eq_refl))).
  destruct (search true Server.pdfExt [] (base ++ ext)) as [[st0 st1]|] eqn:E;
    [|contradiction].
  destruct (search_sound true (fun _ _ => True) Server.pdfExt
              (captures_any true Server.pdfExt) _ [] st0 st1 E)
    as (u & w & q' & Hs & -> & _ & E3 & S & _).
  apply pdfExt_sem in S. destruct S as [Hw ->].
  rewrite E3. simpl. rewrite !app_nil_r in *. rewrite rev_involutive.
  apply app_same_length in Hs.
  - symmetry. apply Hs.
  - unfold isPdfExt in *. apply (f_equal (@length N)) in He, Hw.
    rewrite length_map in He, Hw. congruence.
Qed.

Lemma replace_no_pdfExt (name : str) :
  (forall b e, name = b ++ e -> ~ isPdfExt e) ->
  replace true Server.pdfExt [] name = name.
Proof.
  intros H.
  destruct (replace_cases true Server.pdfExt [] name)
    as [E|(u & w & q & E & _ & S)]; auto.
  apply pdfExt_sem in S. destruct S as [Hw ->].
  rewrite app_nil_r in E. exfalso. eapply H; eauto.
Qed.

(** X18. The script name of an upload is never empty.  It is the file
    name without its .pdf extension, in whatever letter case the extension
    is written, and the file name itself when it has no such extension;
    when that leaves nothing, or no file name was sent, it is
    unknown_script. *)
Theorem scriptName_rules (base ext name : str) :
  isPdfExt ext ->
  (forall b e, name = b ++ e -> ~ isPdfExt e) ->
  (forall o, Server.scriptNameOf o <> [])
  /\ Server.scriptNameOf (Some (base ++ ext))
     = (if truthy base then base else lit "unknown_script")
  /\ Server.scriptNameOf (Some name)
     = (if truthy name then name else lit "unknown_script")
  /\ Server.scriptNameOf None = lit "unknown_script".
Proof.
  intros He Hn. repeat split.
  - intros [f|]; simpl; [|discriminate].
    destruct (replace true Server.pdfExt [] f); simpl; discriminate.
  - unfold Server.scriptNameOf. now rewrite (replace_pdfExt base ext He).
  - unfold Server.scriptNameOf. now rewrite (replace_no_pdfExt name Hn).
Qed.

Lemma scriptName_rules_witness :
  (forall o, Server.scriptNameOf o <> [])
  /\ Server.scriptNameOf (Some (lit "Heat" ++ lit ".PdF"))
     = (if truthy (lit "Heat") then lit "Heat" else lit "unknown_script")
  /\ Server.scriptNameOf (Some (lit "notes.txt"))
     = (if truthy (lit "notes.txt") then lit "notes.txt"
        else lit "unknown_script")
  /\ Server.scriptNameOf None = lit "unknown_script".
Proof.
  apply scriptName_rules.
  - reflexivity.
  - intros b e E He. unfold isPdfExt in He.
    assert (L : length e = 4)
      by (apply (f_equal (@length N)) in He; now rewrite length_map in He).
    apply (f_equal (@rev N)) in E. rewrite rev_app_distr in E.
    destruct e as [|e1 [|e2 [|e3 [|e4 [|e5 e]]]]]; try discriminate L.
    simpl in E. injection E as E4 E3 E2 E1 _. subst.
    discriminate He.
Defined.

(** *** Refusals and their replies *)

(** X19. What the upload filter and the origin check refuse is what the
    error middleware recognises: an upload whose type is not exactly
    application/pdf is refused and answered with status 400 and code
    INVALID_FILE_TYPE; an origin that is refused is answered with status 403
    and code CORS_ERROR, and no origin is refused in production, or when
    it is absent, empty, or on the list. *)
Theorem refusals_answered (mimetype : str) (allowed : list str)
    (production : bool) (origin : option str) :
  (match Server.fileFilter mimetype with
   | inr _ => mimetype = lit "application/pdf"
   | inl e => mimetype <> lit "application/pdf"
              /\ Server.errorReply e = (400, lit "INVALID_FILE_TYPE")
   end)
  /\ (match Server.corsOrigin allowed production origin with
      | inr _ => True
      | inl e =>
          production = false
          /\ (exists o, origin = Some o /\ o <> [] /\ ~ In o allowed)
          /\ Server.errorReply e = (403, lit "CORS_ERROR")
      end).
Proof.
  split.
  - unfold Server.fileFilter.
    destruct (str_eqb mimetype (lit "application/pdf")) eqn:E.
    + now apply str_eqb_eq.
    + split; [|reflexivity]. intros H. apply str_eqb_eq in H. congruence.
  - unfold Server.corsOrigin. destruct origin as [o|]; auto.
    destruct o as [|c o]; simpl; auto.
    destruct (arr_includes (c :: o) allowed) eqn:E; auto.
    destruct production; auto.
    repeat split. exists (c :: o). repeat split; [discriminate|].
    intros H. apply arr_includes_In in H. congruence.
Qed.

(* ================================================================== *)
(** ** The reports *)
(* ================================================================== *)

(** X20. In the scenes report the label of a scene is its own number,
    which is its position in the output counted from 1: the fallback to the
    position, made for a scene number of 0, is never taken. *)
Theorem scene_report_labels (text : str) (idx : nat) (scene : Scene) :
  nth_error (a_scenes (parseScreenplay text)) idx = Some scene ->
  Reports.sceneLabel idx scene = sceneNumber scene
  /\ sceneNumber scene = idx + 1.
Proof.
  intros H.
  pose proof (nb_scenes _ (finish_numbered (split 10 text))) as E.
  assert (N : sceneNumber scene = idx + 1).
  { apply (map_nth_error sceneNumber) in H.
    change (a_scenes (parseScreenplay text))
      with (scenes (finish (split 10 text))) in H.
    rewrite E, nth_error_seq in H.
    destruct (idx <? sceneCount (finish (split 10 text))); [|discriminate].
    injection H as H. lia. }
  split; auto. unfold Reports.sceneLabel.
  destruct (sceneNumber scene =? 0) eqn:Z; auto.
Qed.

Lemma scene_report_labels_witness :
  let text := lit "INT. HOUSE - DAY" ++ 10%N :: lit "EXT. STREET - NIGHT" in
  let scene := mkScene 2 (lit "EXT. STREET - NIGHT") [] None None [10%N]
                 (lit "STREET") (lit "NIGHT") in
  Reports.sceneLabel 1 scene = sceneNumber scene
  /\ sceneNumber scene = 1 + 1.
Proof.
  apply (scene_report_labels
           (lit "INT. HOUSE - DAY" ++ 10%N :: lit "EXT. STREET - NIGHT")).
  vm_compute. reflexivity.
Defined.

Lemma num_add_In (x y : nat) (s : list nat) :
  In y (Reports.num_add x s) <-> y = x \/ In y s.
Proof.
  unfold Reports.num_add. destruct (existsb (Nat.eqb x) s) eqn:E.
  - apply existsb_exists in E. destruct E as (z & Hz & E).
    apply Nat.eqb_eq in E. subst z. split; auto. intros [->|H]; auto.
  - rewrite in_app_iff. simpl. intuition.
Qed.

Lemma num_dedup_spec (l : list nat) :
  NoDup (Reports.num_dedup l) /\ forall y, In y (Reports.num_dedup l) <-> In y l.
Proof.
  unfold Reports.num_dedup.
  assert (G : forall acc,
             NoDup acc ->
             NoDup (fold_left (fun a x => Reports.num_add x a) l acc)
             /\ forall y, In y (fold_left (fun a x => Reports.num_add x a) l acc)
                          <-> In y acc \/ In y l).
  { induction l as [|x r IH]; intros acc Ha; simpl.
    - split; auto. intuition.
    - destruct (IH (Reports.num_add x acc)) as [N I].
      + unfold Reports.num_add.
        destruct (existsb (Nat.eqb x) acc) eqn:E; auto.
        apply NoDup_app; auto.
        * constructor; [intros []|constructor].
        * intros y Hy [<-|[]].
          assert (existsb (Nat.eqb x) acc = true)
            by (apply existsb_exists; exists x; split; auto;
                apply Nat.eqb_refl).
          congruence.
      + split; auto. intros y. rewrite I, num_add_In. intuition. }
  destruct (G [] (NoDup_nil _)) as [N I]. split; auto.
  intros y. rewrite I. simpl. intuition.
Qed.

Lemma indicator_sum (x : str) (l : list str) :
  NoDup l -> In x l ->
  list_sum (map (fun c => if str_eqb x c then 1 else 0) l) = 1.
Proof.
  induction 1 as [|y r Hy Hr IH]; intros Hx; [destruct Hx|]. simpl.
  destruct Hx as [->|Hx].
  - rewrite (proj2 (str_eqb_eq x x) eq_refl). f_equal.
    clear IH Hr. induction r as [|z r IHr]; simpl; auto.
    destruct (str_eqb x z) eqn:E.
    + apply str_eqb_eq in E. subst z. exfalso. apply Hy. now left.
    + apply IHr. intros H. apply Hy. now right.
  - destruct (str_eqb x y) eqn:E.
    + apply str_eqb_eq in E. subst y. contradiction.
    + now apply IH.
Qed.

Lemma count_by_name (l : list str) (ds : list Dialogue) :
  NoDup l -> Forall (fun d => In (d_characters d) l) ds ->
  list_sum
    (map (fun c => length (filter (fun d => str_eqb (d_characters d) c) ds)) l)
  = length ds.
Proof.
  intros Hl. induction 1 as [|d r Hd Hr IH]; simpl.
  - induction l; simpl; auto. apply IHl. now inversion Hl.
  - assert (E : list_sum
                  (map (fun c =>
                          length (if str_eqb (d_characters d) c
                                  then d :: filter
                                         (fun d => str_eqb (d_characters d) c) r
                                  else filter
                                         (fun d => str_eqb (d_characters d) c) r))
                     l)
                = list_sum
                    (map (fun c => if str_eqb (d_characters d) c then 1 else 0) l)
                  + list_sum
                      (map (fun c =>
                              length (filter
                                        (fun d => str_eqb (d_characters d) c) r))
                         l)).
    { clear. induction l as [|c l IHl]; simpl; auto.
      rewrite IHl. destruct (str_eqb (d_characters d) c); simpl; lia. }
    rewrite E, IH, (indicator_sum (d_characters d) l Hl Hd). reflexivity.
Qed.

(** X21. In the characters report the dialogue totals of the characters
    add up to the number of entries of the dialogue index.  For each
    character the scenes listed are, without repetition, the scene numbers
    of its entries, so that the scene count is at most the dialogue total. *)
Theorem character_report_totals (text : str) :
  let a := parseScreenplay text in
  list_sum (map (fun c => length (Reports.characterDialogues a c))
              (movieCharacters a))
  = length (a_dialogues a)
  /\ Forall (fun c =>
               NoDup (Reports.characterScenes a c)
               /\ (forall n, In n (Reports.characterScenes a c)
                             <-> speaks (a_dialogues a) c n)
               /\ length (Reports.characterScenes a c)
                  <= length (Reports.characterDialogues a c))
       (movieCharacters a).
Proof.
  cbv zeta. set (a := parseScreenplay text). split.
  - apply count_by_name.
    + eapply Permutation_NoDup.
      * unfold a, parseScreenplay. rewrite movieCharacters_sort.
        apply sort_perm.
      * apply (td_names _ (finish_tidy (split 10 text))).
    + pose proof (rg_dialogues _ (finish_registered (split 10 text))) as H.
      eapply Forall_impl; [|exact H]. intros d Hd.
      now apply movieCharacters_In.
  - apply Forall_forall. intros c _. unfold Reports.characterScenes.
    destruct (num_dedup_spec
                (map d_sceneNumber (Reports.characterDialogues a c)))
      as [N I].
    split; [exact N|]. split.
    + intros n. rewrite I, in_map_iff. unfold speaks. split.
      * intros (d & E & Hd). apply filter_In in Hd. destruct Hd as [Hd Hc].
        apply str_eqb_eq in Hc. eauto.
      * intros (d & Hd & Hc & E). exists d. split; auto.
        apply filter_In. split; auto. now apply str_eqb_eq.
    + rewrite <- (length_map d_sceneNumber (Reports.characterDialogues a c)).
      apply NoDup_incl_length; auto. intros y Hy. now apply I.
Qed.

(* ================================================================== *)
(** ** Lines of two capital letters *)
(* ================================================================== *)

Lemma capitals_In (x : N) : (65 <= x <= 90)%N -> In x capitals.
Proof.
  intros H. unfold capitals. apply in_map_iff.
  exists (N.to_nat x). split; [apply N2Nat.id|]. apply in_seq. lia.
Qed.

Lemma twoLetterCue_all :
  forallb (fun x => forallb (twoLetterCue x) capitals) capitals = true.
Proof. vm_compute. reflexivity. Qed.

Lemma step_characters (i : nat) (line : str) (s : loop) :
  incl (characters s) (characters (step i line s)).
Proof.
  assert (A : forall c, incl (characters s) (characters (addCharacter c s)))
    by (intros c x Hx; apply set_add_In; now right).
  unfold step.
  destruct (truthy (trim line)); simpl; [|apply incl_refl].
  destruct (classify (trim line)); simpl.
  - unfold saveScene. destruct (currentScene s) as [h|]; [|apply incl_refl].
    destruct (truthy h); apply incl_refl.
  - destruct (exec false charRe (trim line)) as [m|]; [|apply incl_refl].
    match goal with
    | |- incl _ (characters (if ?b then _ else _)) =>
        destruct b; [|apply incl_refl]
    end.
    destruct (truthy (trim (grp 2 m))); apply A.
  - match goal with
    | |- incl _ (characters (if ?b then _ else _)) =>
        destruct b; [apply A|apply incl_refl]
    end.
  - match goal with
    | |- incl _ (characters (if ?b then _ else _)) =>
        destruct b; [apply A|apply incl_refl]
    end.
  - apply incl_refl.
Qed.

Lemma run_characters (lines : list str) :
  forall i s, incl (characters s) (characters (run i lines s)).
Proof.
  induction lines as [|l r IH]; intros i s; simpl; [apply incl_refl|].
  eapply incl_tran; [apply step_characters|apply IH].
Qed.

Lemma saveScene_characters (s : loop) : characters (saveScene s) = characters s.
Proof.
  unfold saveScene. destruct (currentScene s) as [h|]; auto.
  now destruct (truthy h).
Qed.

(** X22. A line made of exactly two capital letters is always registered
    as a character, the words TO, IN, ON, AT and OR included: the cue-alone
    branch with its stoplist takes lines of more than two units only, and
    the extended branch, which takes the others, has no stoplist. *)
Theorem two_capitals_registered (text : str) (pre rest : list str) (x y : N) :
  split 10 text = pre ++ [x; y] :: rest ->
  (65 <= x <= 90)%N -> (65 <= y <= 90)%N ->
  In [x; y] (a_characters (parseScreenplay text))
  /\ In [x; y] (movieCharacters (parseScreenplay text)).
Proof.
  intros Hs Hx Hy.
  assert (R : In [x; y] (characters (finish (split 10 text)))).
  { rewrite Hs. unfold finish. rewrite saveScene_characters, run_app.
    simpl. apply run_characters.
    pose proof twoLetterCue_all as T. rewrite forallb_forall in T.
    specialize (T x (capitals_In x Hx)). rewrite forallb_forall in T.
    specialize (T y (capitals_In y Hy)). unfold twoLetterCue in T.
    apply andb_prop in T. destruct T as [T T3].
    apply andb_prop in T. destruct T as [T1 T2].
    apply str_eqb_eq in T2, T3.
    unfold step. rewrite T2. simpl truthy. cbv iota. simpl negb. cbv iota.
    rewrite T2 in T1.
    destruct (classify [x; y]); try discriminate T1.
    rewrite T3. simpl. apply set_add_In. now left. }
  split; [exact R|]. now apply movieCharacters_In.
Qed.

Lemma two_capitals_registered_witness :
  In (lit "TO") (a_characters (parseScreenplay
       (lit "INT. HOUSE - DAY" ++ 10%N :: lit "TO" ++ 10%N :: lit "He waits.")))
  /\ In (lit "TO") (movieCharacters (parseScreenplay
       (lit "INT. HOUSE - DAY" ++ 10%N :: lit "TO" ++ 10%N :: lit "He waits."))).
Proof.
  apply (two_capitals_registered _ [lit "INT. HOUSE - DAY"] [lit "He waits."]
           84%N 79%N).
  - vm_compute. reflexivity.
  - lia.
  - lia.
Defined.

(* ================================================================== *)
(** ** The location of a heading *)
(* ================================================================== *)

(** A pattern without groups leaves the captures alone. *)
Lemma rmatch_sound_plain (ic : bool) (r : regex) :
  plain r = true ->
  forall st k res,
    rmatch ic r st k = Some res ->
    exists w q',
      post st = w ++ q' /\ sem ic r (pre st) w q'
      /\ k (MState (rev w ++ pre st) q' (caps st)) = Some res.
Proof.
  induction r as [|cs|cs lo hi g|a IHa b IHb|a IHa b IHb|a IHa|i a IHa| | |];
    intros Hp [p q cs0] k res H; simpl in *; try discriminate Hp.
  - exists [], q. auto.
  - destruct q as [|c t]; [discriminate|].
    destruct (mem ic cs c) eqn:E; [|discriminate].
    exists [c], t. simpl. eauto 6.
  - assert (S : exists w q',
               q = w ++ q' /\ Forall (fun c => mem ic cs c = true) w
               /\ lo <= 0 + length w /\ within hi (0 + length w)
               /\ k (MState (rev w ++ p) q' cs0) = Some res).
    { destruct g.
      - apply (rep_greedy_sound ic cs lo hi
                 (fun p' q' => k (MState p' q' cs0)) res q 0 p);
          [destruct hi; simpl; auto; lia | exact H].
      - apply (rep_lazy_sound ic cs lo hi
                 (fun p' q' => k (MState p' q' cs0)) res q 0 p);
          [destruct hi; simpl; auto; lia | exact H]. }
    destruct S as (w & q' & -> & Hw & Hlo & Hhi & Hk).
    exists w, q'. auto 6.
  - apply andb_prop in Hp. destruct Hp as [Ha Hb].
    destruct (IHa Ha (MState p q cs0) _ _ H) as (w1 & q1 & E1 & S1 & K1).
    simpl in *. subst q.
    destruct (IHb Hb (MState (rev w1 ++ p) q1 cs0) _ _ K1)
      as (w2 & q2 & E2 & S2 & K2).
    simpl in *. subst q1.
    exists (w1 ++ w2), q2. rewrite <- app_assoc. split; auto.
    split; [exists w1, w2; auto|].
    now rewrite rev_app_distr, <- app_assoc.
  - apply andb_prop in Hp. destruct Hp as [Ha Hb].
    destruct (rmatch ic a (MState p q cs0) k) as [x|] eqn:E.
    + injection H as <-.
      destruct (IHa Ha (MState p q cs0) _ _ E) as (w & q' & E1 & S1 & K1).
      exists w, q'. auto.
    + destruct (IHb Hb (MState p q cs0) _ _ H) as (w & q' & E1 & S1 & K1).
      exists w, q'. auto.
  - destruct (rmatch ic a (MState p q cs0) k) as [x|] eqn:E.
    + injection H as <-.
      destruct (IHa Hp (MState p q cs0) _ _ E) as (w & q' & E1 & S1 & K1).
      exists w, q'. auto.
    + exists [], q. auto.
  - destruct p; [|discriminate]. exists [], q. auto.
  - destruct q; [|discriminate]. exists [], []. auto.
  - destruct (xorb (at_word (hd_error p)) (at_word (hd_error q))) eqn:E;
      [|discriminate].
    exists [], q. auto.
Qed.

(** When only one string can be matched at a place and what follows
    succeeds after it, a pattern without groups hands over there. *)
Lemma rmatch_unique (ic : bool) (r : regex) (p w q : str)
    (cs : list (nat * str)) (k : mstate -> option mstate) :
  plain r = true ->
  sem ic r p w q ->
  (forall w' q', w ++ q = w' ++ q' -> sem ic r p w' q' -> w' = w) ->
  (forall cs', k (MState (rev w ++ p) q cs') <> None) ->
  rmatch ic r (MState p (w ++ q) cs) k = k (MState (rev w ++ p) q cs).
Proof.
  intros Hp S U D.
  destruct (rmatch ic r (MState p (w ++ q) cs) k) as [res|] eqn:E.
  - destruct (rmatch_sound_plain ic r Hp _ _ _ E) as (w' & q' & E1 & S1 & K1).
    simpl in *. pose proof (U w' q' E1 S1) as ->.
    apply app_inv_head in E1. subst q'. now rewrite K1.
  - exfalso. revert E. apply rmatch_complete; auto.
Qed.

(** The greedy repetition takes a whole run when what follows succeeds
    after it. *)
Lemma rep_greedy_max (ic : bool) (cs : cset) (lo : nat)
    (k : str -> str -> option mstate) (res : mstate) (q : str) :
  match q with c :: _ => mem ic cs c = false | [] => True end ->
  forall w n p,
    Forall (fun c => mem ic cs c = true) w ->
    lo <= n + length w ->
    k (rev w ++ p) q = Some res ->
    rep_greedy ic cs lo None n p (w ++ q) k = Some res.
Proof.
  intros Hq. induction w as [|c w IH]; intros n p Hw Hlo Hk; simpl in *.
  - rewrite Nat.add_0_r in Hlo. apply Nat.leb_le in Hlo.
    destruct q as [|c t]; simpl; rewrite Hlo; auto.
    now rewrite Hq.
  - inversion Hw as [|? ? Hc Hw']; subst. rewrite Hc. simpl.
    rewrite (IH (S n) (c :: p)); auto.
    + lia.
    + now rewrite <- app_assoc in Hk.
Qed.

(** The lazy repetition stops at the first place where what follows
    succeeds. *)
Lemma rep_lazy_min (ic : bool) (cs : cset) (lo : nat)
    (k : str -> str -> option mstate) (res : mstate) (q : str) :
  forall w n p,
    Forall (fun c => mem ic cs c = true) w ->
    lo <= n + length w ->
    (forall w0 w1, w = w0 ++ w1 -> w1 <> [] ->
                   k (rev w0 ++ p) (w1 ++ q) = None) ->
    k (rev w ++ p) q = Some res ->
    rep_lazy ic cs lo None n p (w ++ q) k = Some res.
Proof.
  induction w as [|c w IH]; intros n p Hw Hlo Hno Hk.
  - simpl in *. rewrite Nat.add_0_r in Hlo. apply Nat.leb_le in Hlo.
    destruct q; simpl; now rewrite Hlo, Hk.
  - inversion Hw as [|? ? Hc Hw']; subst.
    assert (R : rep_lazy ic cs lo None (S n) (c :: p) (w ++ q) k = Some res).
    { apply IH; auto.
      - simpl in Hlo. lia.
      - intros w0 w1 E Hne.
        specialize (Hno (c :: w0) w1). simpl in Hno.
        rewrite <- app_assoc in Hno. apply Hno; auto. now rewrite E.
      - simpl in Hk. now rewrite <- app_assoc in Hk. }
    simpl. rewrite Hc. simpl.
    specialize (Hno [] (c :: w) eq_refl). simpl in Hno.
    rewrite Hno by discriminate.
    destruct (lo <=? n); exact R.
Qed.

Lemma search_here (ic : bool) (r : regex) (p q : str) (st : mstate) :
  rmatch ic r (MState p q []) Some = Some st ->
  search ic r p q = Some (MState p q [], st).
Proof. intros H. destruct q; simpl; now rewrite H. Qed.

Lemma firstn_taken (l t : str) :
  firstn (length (l ++ t) - length t) (l ++ t) = l.
Proof.
  rewrite length_app, Nat.add_sub, firstn_app, Nat.sub_diag, firstn_all.
  simpl. apply app_nil_r.
Qed.

(** The shape of the location pattern: a start anchor, a slug, white space,
    a lazy group and a separator.  When the slug can only match [S], and the
    separator matches after [L] and at no earlier place of [L], the group
    holds [L]. *)
Lemma heading_shape (slug sepR : regex) (S W L T : str) :
  plain slug = true -> plain sepR = true ->
  sem true slug [] S (W ++ L ++ T) ->
  (forall w' q', S ++ W ++ L ++ T = w' ++ q' -> sem true slug [] w' q' -> w' = S) ->
  W <> [] -> Forall (fun c => isSpace c = true) W ->
  isSpace (hd 32%N L) = false ->
  Forall (fun c => isLineTerminator c = false) L ->
  (forall L0 L1 p cs,
     L = L0 ++ L1 -> L1 <> [] ->
     rmatch true sepR (MState p (L1 ++ T) cs) Some = None) ->
  (forall p cs, rmatch true sepR (MState p T cs) Some <> None) ->
  exists st1,
    rmatch true
      (Seq Bol (Seq slug (Seq (plus [CSpace])
         (Seq (Grp 1 (Rep [CDot] 1 None false)) sepR))))
      (MState [] (S ++ W ++ L ++ T) []) Some = Some st1
    /\ caps st1 = [(1, L)].
Proof.
  intros Pslug Psep Sslug Uslug HW0 HW HL0 HL Hno Hyes.
  assert (HLne : L <> []) by (intros ->; discriminate HL0).
  cbn [rmatch pre post caps plus].
  set (K := fun st' : mstate => rep_greedy true [CSpace] 1 None 0 _ _ _).
  assert (HK : forall cs, exists st1,
               K (MState (rev S ++ []) (W ++ L ++ T) cs) = Some st1
               /\ caps st1 = (1, L) :: cs).
  { intros cs. subst K. cbn [pre post caps].
    destruct (rmatch true sepR (MState (rev L ++ rev W ++ rev S ++ []) T
                                  ((1, L) :: cs)) Some) as [res|] eqn:E;
      [|now apply Hyes in E].
    exists res. split.
    - apply rep_greedy_max.
      + destruct L as [|c L']; [contradiction|]. simpl in HL0 |- *.
        now rewrite HL0.
      + revert HW. apply Forall_impl. intros c Hc. simpl. now rewrite Hc.
      + destruct W; [contradiction|simpl; lia].
      + apply rep_lazy_min.
        * revert HL. apply Forall_impl. intros c Hc. simpl. now rewrite Hc.
        * destruct L; [contradiction|simpl; lia].
        * intros L0 L1 EL Hne. now apply (Hno L0 L1).
        * rewrite firstn_taken. exact E.
    - destruct (rmatch_sound_plain true sepR Psep _ _ _ E)
        as (w & q' & _ & _ & [= <-]). reflexivity. }
  destruct (HK []) as (st1 & E1 & C1). exists st1. split; auto.
  rewrite (rmatch_unique true slug [] S (W ++ L ++ T) [] K Pslug Sslug Uslug).
  - exact E1.
  - intros cs. destruct (HK cs) as (x & -> & _). discriminate.
Qed.

Lemma space_upper (c : N) : isSpace c = true -> upper c = c.
Proof.
  intros H. unfold upper.
  destruct ((97 <=? c) && (c <=? 122))%N eqn:E; auto.
  apply andb_prop in E. destruct E as [E1 E2]. apply N.leb_le in E1, E2.
  unfold isSpace, isLineTerminator in H.
  repeat (apply orb_prop in H; destruct H as [H|H]);
    try (apply andb_prop in H; destruct H as [H1 H2]; apply N.leb_le in H1, H2);
    try apply N.eqb_eq in H; lia.
Qed.

Lemma dash_mem (c : N) :
  mem true [CLit 45] c = true \/ mem true [CLit 8211] c = true ->
  isDash c = true.
Proof.
  unfold isDash. intros [H|H]; apply lit_mem_ic in H;
    change (upper 45) with 45%N in H; change (upper 8211) with 8211%N in H;
    unfold upper in H;
    destruct ((97 <=? c) && (c <=? 122))%N eqn:E;
    try (apply andb_prop in E; destruct E as [E1 E2]; apply N.leb_le in E1, E2);
    apply orb_true_iff; [left|left|right|right]; apply N.eqb_eq; lia.
Qed.

Lemma last_default {A : Type} (l : list A) (x y : A) :
  l <> [] -> last l x = last l y.
Proof.
  induction l as [|a l IH]; [contradiction|]. intros _.
  destruct l as [|b l]; auto.
  change (last (b :: l) x = last (b :: l) y). now apply IH.
Qed.

Lemma spacedDash_split (a : str) :
  forall prev d b,
    spacedDash prev (a ++ d :: b) = false -> isDash d = true ->
    isSpace (last a prev) = false.
Proof.
  induction a as [|x a IH]; intros prev d b H Hd.
  - simpl in *. rewrite Hd, andb_true_r in H.
    now apply orb_false_iff in H.
  - simpl app in H. simpl spacedDash in H. apply orb_false_iff in H.
    destruct H as [_ H]. specialize (IH x d b H Hd).
    destruct a as [|y a]; auto.
    change (isSpace (last (y :: a) prev) = false).
    now rewrite (last_default (y :: a) prev x).
Qed.

Lemma last_app_ne {A : Type} (a b : list A) (x y : A) :
  b <> [] -> last (a ++ b) x = last b y.
Proof.
  intros Hb. induction a as [|c a IH]; simpl.
  - now apply last_default.
  - destruct (a ++ b) eqn:E; auto.
    apply app_eq_nil in E. now destruct E.
Qed.

Lemma space_mem (ic : bool) (w : str) :
  Forall (fun c => mem ic [CSpace] c = true) w
  <-> Forall (fun c => isSpace c = true) w.
Proof.
  split; apply Forall_impl; intros c; simpl; now rewrite orb_false_r.
Qed.

Lemma locSep_sem (p w q : str) :
  sem true locSep p w q ->
  (w = [] /\ q = [])
  \/ exists a d b,
       w = a ++ d :: b /\ a <> []
       /\ Forall (fun c => isSpace c = true) a /\ isDash d = true.
Proof.
  assert (G : forall cs,
             (forall c, mem true cs c = true -> isDash c = true) ->
             sem true (Seq (plus [CSpace]) (Seq (Chr cs) (plus [CSpace]))) p w q ->
             exists a d b,
               w = a ++ d :: b /\ a <> []
               /\ Forall (fun c => isSpace c = true) a /\ isDash d = true).
  { intros cs Hcs (a & v & -> & (Ha & La & _) & u & b & -> & (d & -> & Hd) & _).
    exists a, d, b. repeat split; auto.
    - intros ->. simpl in La. lia.
    - now apply (space_mem true). }
  intros [H|[H|H]].
  - right. revert H. apply G. intros c Hc. apply dash_mem. now left.
  - right. revert H. apply G. intros c Hc. apply dash_mem. now right.
  - now left.
Qed.

Lemma locSep_end (p : str) : sem true locSep p [] [].
Proof. right. right. simpl. auto. Qed.

Lemma locSep_separator (p w q : str) : isSeparator w -> sem true locSep p w q.
Proof.
  intros (a & d & b & -> & Ha & Hb & Sa & Sb & Hd).
  assert (G : forall cs,
             mem true cs d = true ->
             sem true (Seq (plus [CSpace]) (Seq (Chr cs) (plus [CSpace])))
               p (a ++ d :: b) q).
  { intros cs Hcs. exists a, (d :: b). split; auto. split.
    - split; [now apply space_mem|]. split; simpl; auto.
      destruct a; [contradiction|simpl; lia].
    - exists [d], b. split; auto. split; [exists d; auto|].
      split; [now apply space_mem|]. split; simpl; auto.
      destruct b; [contradiction|simpl; lia]. }
  unfold isDash in Hd. apply orb_prop in Hd.
  destruct Hd as [Hd|Hd]; apply N.eqb_eq in Hd; subst d.
  - left. now apply G.
  - right. left. now apply G.
Qed.

(** The separator does not match inside a location that has no dash after
    a white space and does not end in white space. *)
Lemma locSep_none (L T L0 L1 p : str) (cs : list (nat * str)) :
  spacedDash 0 L = false -> isSpace (last L 32%N) = false ->
  L = L0 ++ L1 -> L1 <> [] ->
  rmatch true locSep (MState p (L1 ++ T) cs) Some = None.
Proof.
  intros Hd Hl EL Hne.
  destruct (rmatch true locSep (MState p (L1 ++ T) cs) Some) as [res|] eqn:E;
    auto.
  exfalso.
  destruct (rmatch_sound_plain true locSep eq_refl _ _ _ E)
    as (w & q' & Ew & Sw & _).
  cbn [post pre] in Ew, Sw.
  apply locSep_sem in Sw.
  destruct Sw as [[-> ->]|(a & d & b & -> & Ha & Sa & Dd)].
  - destruct L1; [contradiction|discriminate].
  - rewrite <- app_assoc in Ew. simpl in Ew.
    assert (La : isSpace (last a 0%N) = true).
    { destruct (exists_last Ha) as (a' & x & ->).
      rewrite last_last. apply Forall_app in Sa. destruct Sa as [_ Sa].
      now inversion Sa. }
    apply app_eq_app in Ew. destruct Ew as (l & [[E1 E2]|[E1 E2]]).
    + destruct l as [|d' l].
      * rewrite app_nil_r in E1. subst L1 L.
        rewrite (last_app_ne L0 a 32%N 0%N Ha) in Hl. congruence.
      * simpl in E2. injection E2 as <- _. subst L1 L.
        rewrite app_assoc in Hd.
        apply spacedDash_split in Hd; auto.
        rewrite (last_app_ne L0 a 0%N 0%N Ha) in Hd. congruence.
    + subst a L.
      rewrite (last_app_ne L0 L1 32%N 0%N Hne) in Hl.
      apply Forall_app in Sa. destruct Sa as [Sa _].
      destruct (exists_last Hne) as (l1 & x & ->).
      rewrite last_last in Hl. apply Forall_app in Sa. destruct Sa as [_ Sa].
      inversion Sa. congruence.
Qed.

Lemma slug_cases (x : str) :
  In x (map lit slugWords) ->
  x = [73; 78; 84; 46]%N \/ x = [69; 88; 84; 46]%N
  \/ x = [73; 78; 84; 69; 82; 73; 79; 82]%N
  \/ x = [69; 88; 84; 69; 82; 73; 79; 82]%N.
Proof. intros [<-|[<-|[<-|[<-|[]]]]]; vm_compute; auto. Qed.

Lemma slug_sem (p w q : str) :
  sem true (alts slugs) p w q <-> In (toUpperCase w) (map lit slugWords).
Proof.
  change slugs with (map word slugWords).
  rewrite alts_sem by discriminate. split.
  - intros (r & Hr & Hs). apply in_map_iff in Hr.
    destruct Hr as (x & <- & Hx). apply word_sem in Hs.
    unfold toUpperCase. rewrite Hs.
    destruct Hx as [<-|[<-|[<-|[<-|[]]]]]; vm_compute; auto.
  - intros H. apply in_map_iff in H. destruct H as (x & E & Hx).
    exists (word x). split; [now apply in_map|]. apply word_sem.
    unfold toUpperCase in E. rewrite <- E.
    destruct Hx as [<-|[<-|[<-|[<-|[]]]]]; reflexivity.
Qed.

Ltac units H :=
  repeat (let c := fresh "c" in
          let Hc := fresh "Hc" in
          match type of H with
          | map upper ?l = _ :: _ =>
              destruct l as [|c l]; [discriminate H|];
              cbn [map] in H; injection H as Hc H
          end);
  match type of H with
  | map upper ?l = [] => destruct l; [clear H | discriminate H]
  end.

(** Before a white space, only one prefix of a heading is a slug. *)
Lemma slug_unique (S w' q' W rest : str) (c : N) :
  In (toUpperCase S) (map lit slugWords) ->
  In (toUpperCase w') (map lit slugWords) ->
  isSpace c = true ->
  S ++ (c :: W) ++ rest = w' ++ q' -> w' = S.
Proof.
  intros HS Hw Hc E. apply slug_cases in HS, Hw. unfold toUpperCase in *.
  pose proof (space_upper c Hc) as Uc.
  destruct HS as [HS|[HS|[HS|HS]]]; units HS;
    destruct Hw as [Hw|[Hw|[Hw|Hw]]]; units Hw;
    simpl in E; injection E; intros; subst;
    try reflexivity;
    try (exfalso; congruence);
    try (exfalso; rewrite Uc in *; subst; vm_compute in Hc; discriminate Hc).
Qed.

Lemma trim_fix (s : str) :
  isSpace (hd 32%N s) = false -> isSpace (last s 32%N) = false -> trim s = s.
Proof.
  intros Hh Hl. unfold trim, trimEnd.
  rewrite (trimStart_fix s) by (destruct s; auto).
  destruct s as [|c s] using rev_ind; auto.
  rewrite last_last in Hl. rewrite rev_app_distr. simpl.
  rewrite Hl. simpl. now rewrite rev_involutive.
Qed.

(** X23. [extractLocation] on a heading without a number: when the heading
    is a slug (in either case), white space, a text [L] and then either
    nothing or a separator (white space, a hyphen or an en dash, white
    space) followed by anything, the location is [L] itself, provided [L]
    neither starts nor ends with white space, holds no line terminator and
    no hyphen or en dash right after a white space. *)
Theorem location_between_slug_and_separator (S W L T : str) :
  In (toUpperCase S) (map lit slugWords) ->
  W <> [] -> Forall (fun c => isSpace c = true) W ->
  isSpace (hd 32%N L) = false -> isSpace (last L 32%N) = false ->
  Forall (fun c => isLineTerminator c = false) L ->
  spacedDash 0 L = false ->
  (T = [] \/ exists sepw R, isSeparator sepw /\ T = sepw ++ R) ->
  extractLocation (S ++ W ++ L ++ T) = L.
Proof.
  intros HS HW0 HW Hh Hl HL Hd HT.
  destruct (heading_shape (alts slugs) locSep S W L T) as (st1 & E & C); auto.
  - now apply slug_sem.
  - intros w' q' Ew Sw. apply slug_sem in Sw.
    destruct W as [|c W]; [contradiction|]. inversion HW; subst.
    now apply (slug_unique S w' q' W (L ++ T) c).
  - intros L0 L1 p cs EL Hne. now apply (locSep_none L T L0 L1).
  - intros p cs. destruct HT as [->|(sepw & R & Hsep & ->)].
    + apply (rmatch_complete true locSep p [] []);
        [apply locSep_end | discriminate].
    + apply (rmatch_complete true locSep p sepw R);
        [now apply locSep_separator | discriminate].
  - assert (E' : search true locRe [] (S ++ W ++ L ++ T)
                 = Some (MState [] (S ++ W ++ L ++ T) [], st1))
      by (apply search_here; exact E).
    unfold extractLocation, exec. rewrite E'.
    unfold grp, group. cbn [snd]. rewrite C. cbn [lookup Nat.eqb].
    now apply trim_fix.
Qed.

Lemma location_between_slug_and_separator_witness :
  extractLocation
    (lit "int." ++ lit "  " ++ lit "Joe's CO-OP (back room)" ++ lit " - NIGHT")
  = lit "Joe's CO-OP (back room)".
Proof.
  apply location_between_slug_and_separator.
  - vm_compute. auto.
  - discriminate.
  - repeat constructor.
  - reflexivity.
  - reflexivity.
  - repeat constructor.
  - reflexivity.
  - right. exists (lit " - "), (lit "NIGHT"). split; [|reflexivity].
    exists (lit " "), 45%N, (lit " ").
    repeat split; try discriminate; repeat constructor.
Defined.

(* ================================================================== *)
(** ** No empty interaction record *)
(* ================================================================== *)

(** The increment of line 216 reaches the entry that line 207 has just
    made. *)
Lemma bump_fresh (k : str) (n : nat) (v : Interaction) (m : imap) :
  has k m = false ->
  bump k n (m ++ [(k, v)])
  = m ++ [(k, mkInteraction (character1 v) (character2 v)
                (i_scenes v ++ [n]) (S (interactionCount v)))].
Proof.
  induction m as [|[k' v'] r IH]; simpl; intros H.
  - assert (E : str_eqb k k = true) by now apply str_eqb_eq.
    now rewrite E.
  - destruct (str_eqb k k'); [discriminate|]. simpl in H.
    now rewrite IH.
Qed.

Lemma record_pair_filled (n : nat) (m : imap) (p : str * str) :
  Forall (fun e => i_scenes (snd e) <> [] /\ 1 <= interactionCount (snd e)) m ->
  Forall (fun e => i_scenes (snd e) <> [] /\ 1 <= interactionCount (snd e))
    (record_pair n m p).
Proof.
  intros Hm. destruct p as [a b]. unfold record_pair.
  assert (G : forall v : Interaction,
             i_scenes v ++ [n] <> [] /\ 1 <= S (interactionCount v)).
  { intros v. split; [|lia]. intros E. now apply app_eq_nil in E. }
  destruct (has (interactionKey a b) m) eqn:E.
  - apply bump_Forall_any; auto. intros v _. apply G.
  - rewrite bump_fresh by exact E. apply Forall_app. split; auto.
    constructor; [apply G | constructor].
Qed.

Lemma record_scene_filled (m : imap) (e : nat * list Dialogue) :
  Forall (fun e => i_scenes (snd e) <> [] /\ 1 <= interactionCount (snd e)) m ->
  Forall (fun e => i_scenes (snd e) <> [] /\ 1 <= interactionCount (snd e))
    (record_scene m e).
Proof.
  destruct e as [n ds]. unfold record_scene.
  generalize (pairs (dedup (map d_characters ds))). intros ps. revert m.
  induction ps as [|p ps IH]; intros m Hm; simpl; auto.
  apply IH. now apply record_pair_filled.
Qed.

(** X24. No interaction record is empty: each one lists at least one scene
    and has a count of at least one. *)
Theorem interaction_records_nonempty (text : str) :
  Forall (fun v => i_scenes v <> [] /\ 1 <= interactionCount v)
    (interactions (parseScreenplay text)).
Proof.
  change (interactions (parseScreenplay text))
    with (map snd (interactionMap (a_dialogues (parseScreenplay text)))).
  apply Forall_map. unfold interactionMap.
  generalize (groupByScene (a_dialogues (parseScreenplay text))).
  intros g.
  assert (G : forall m,
             Forall (fun e => i_scenes (snd e) <> []
                              /\ 1 <= interactionCount (snd e)) m ->
             Forall (fun e => i_scenes (snd e) <> []
                              /\ 1 <= interactionCount (snd e))
               (fold_left record_scene g m)).
  { induction g as [|e g IH]; intros m Hm; simpl; auto.
    apply IH. now apply record_scene_filled. }
  apply G. constructor.
Qed.

(* ================================================================== *)
(** ** The order of the two names of a record *)
(* ================================================================== *)

Lemma in_split_first (a : str) (l : list str) :
  In a l -> exists l1 l2, l = l1 ++ a :: l2 /\ ~ In a l1.
Proof.
  induction l as [|x r IH]; [intros []|]. intros H.
  destruct (list_eq_dec N.eq_dec x a) as [->|Ne].
  - exists [], r. auto.
  - destruct H as [H|H]; [contradiction|].
    destruct (IH H) as (l1 & l2 & -> & Hn). exists (x :: l1), l2.
    split; auto. intros [E|E]; auto.
Qed.

(** The two nested loops take the earlier element first. *)
Lemma pairs_order (l : list str) (a b : str) :
  In (a, b) (pairs l) -> exists l1 l2, l = l1 ++ a :: l2 /\ In b l2.
Proof.
  induction l as [|x r IH]; simpl; [tauto|].
  intros H. apply in_app_or in H. destruct H as [H|H].
  - apply in_map_iff in H. destruct H as (y & [= <- <-] & Hy).
    exists [], r. auto.
  - destruct (IH H) as (l1 & l2 & -> & Hb). exists (x :: l1), l2. auto.
Qed.

Lemma dedup_snoc (l : list str) (x : str) :
  dedup (l ++ [x]) = set_add x (dedup l).
Proof. unfold dedup. now rewrite fold_left_app. Qed.

(** A [Set] lists its values in the order of their first insertion. *)
Lemma dedup_order (l : list str) :
  forall a b L1 L2,
    dedup l = L1 ++ a :: L2 -> In b L2 -> firstBefore a b l.
Proof.
  induction l as [|x l IH] using rev_ind; intros a b L1 L2 H Hb.
  - destruct L1; discriminate H.
  - rewrite dedup_snoc in H. unfold set_add in H.
    assert (Keep : firstBefore a b l -> firstBefore a b (l ++ [x])).
    { intros (l1 & l2 & -> & N1 & N2 & I).
      exists l1, (l2 ++ [x]). rewrite <- app_assoc. simpl.
      repeat split; auto. apply in_or_app. now left. }
    destruct (arr_includes x (dedup l)) eqn:E.
    + apply Keep. now apply (IH a b L1 L2).
    + assert (Hx : ~ In x l).
      { intros Hx. apply dedup_all in Hx. apply arr_includes_In in Hx.
        congruence. }
      assert (Hne : L2 <> []) by (intros ->; destruct Hb).
      destruct (exists_last Hne) as (L2' & y & ->).
      change (L1 ++ a :: L2' ++ [y]) with (L1 ++ (a :: L2') ++ [y]) in H.
      rewrite app_assoc in H. apply app_inj_tail in H. destruct H as [H <-].
      apply in_app_or in Hb. destruct Hb as [Hb|[<-|[]]].
      * apply Keep. now apply (IH a b L1 L2').
      * assert (Ha : In a l).
        { apply (proj2 (dedup_spec l)). rewrite H. apply in_or_app.
          right. now left. }
        destruct (in_split_first a l Ha) as (l1 & l2 & -> & N1).
        exists l1, (l2 ++ [x]). rewrite <- app_assoc. simpl.
        repeat split; auto.
        -- intros I. apply Hx. apply in_or_app. now left.
        -- apply in_or_app. right. now left.
Qed.

Lemma record_pair_order (ds : list Dialogue) (n : nat) (m : imap) (a b : str) :
  firstBefore a b (map d_characters (entriesOf n ds)) ->
  Forall (entry_order ds) m ->
  Forall (entry_order ds) (record_pair n m (a, b)).
Proof.
  intros Hab Hm. unfold record_pair.
  destruct (has (interactionKey a b) m) eqn:E.
  - apply bump_Forall_any; auto.
    intros v (n0 & rest & E0 & F). exists n0, (rest ++ [n]). simpl in *.
    rewrite E0. auto.
  - rewrite bump_fresh by exact E. apply Forall_app. split; auto.
    constructor; [|constructor]. exists n, []. simpl. auto.
Qed.

Lemma record_scene_order (ds : list Dialogue) (m : imap) (n : nat)
    (g : list Dialogue) :
  g = entriesOf n ds ->
  Forall (entry_order ds) m ->
  Forall (entry_order ds) (record_scene m (n, g)).
Proof.
  intros -> Hm. unfold record_scene.
  set (L := dedup (map d_characters (entriesOf n ds))).
  assert (P : forall p, In p (pairs L) ->
                firstBefore (fst p) (snd p)
                  (map d_characters (entriesOf n ds))).
  { intros [a b] H. apply pairs_order in H.
    destruct H as (L1 & L2 & E & Hb). simpl.
    now apply (dedup_order _ a b L1 L2). }
  revert m Hm P. generalize (pairs L).
  induction l as [|[a b] r IH]; intros m Hm P; simpl; auto.
  apply IH; [|intros p Hp; apply P; now right].
  apply record_pair_order; auto. apply (P (a, b)). now left.
Qed.

Lemma interactionMap_order (ds : list Dialogue) :
  Forall (entry_order ds) (interactionMap ds).
Proof.
  unfold interactionMap.
  pose proof (proj1 (groupByScene_entries ds)) as G.
  assert (S : forall l m,
             Forall (fun e => snd e = entriesOf (fst e) ds) l ->
             Forall (entry_order ds) m ->
             Forall (entry_order ds) (fold_left record_scene l m)).
  { induction l as [|[n g] r IH]; intros m Hl Hm; simpl; auto.
    inversion Hl; subst. apply IH; auto.
    now apply record_scene_order. }
  apply S; auto.
Qed.

(** C5 (as amended). For every input text the output records are the
    values of the interaction map, and every record sits under the key
    made of its two names in sorted order: the key is x|y with x < y, and
    character1, character2 are x, y in one order or the other.  Which
    order is settled by the first scene of the record's scene list, the
    scene that made the record: among the speakers of that scene's entries
    of the dialogue index, in order, the first character1 stands before
    the first character2. *)
Theorem interaction_key_sorted (text : str) :
  let a := parseScreenplay text in
  interactions a = map snd (interactionMap (a_dialogues a))
  /\ Forall (fun e =>
               (exists x y,
                  ltb x y = true /\ fst e = x ++ lit "|" ++ y
                  /\ ((character1 (snd e) = x /\ character2 (snd e) = y)
                      \/ (character1 (snd e) = y /\ character2 (snd e) = x)))
               /\ (exists n rest,
                     i_scenes (snd e) = n :: rest
                     /\ firstBefore (character1 (snd e)) (character2 (snd e))
                          (map d_characters (entriesOf n (a_dialogues a)))))
       (interactionMap (a_dialogues a)).
Proof.
  simpl. split; [reflexivity|].
  destruct (parse_interactionMap text) as [seen [Hk Hm]].
  pose proof (interactionMap_order (a_dialogues (parseScreenplay text))) as Ho.
  rewrite Forall_forall in *. intros [k v] He. split.
  - destruct (Hm _ He) as (H1 & H2 & _). simpl in *.
    destruct (interactionKey_sorted _ _ H2) as (x & y & L & E & O).
    exists x, y. rewrite H1. auto.
  - exact (Ho _ He).
Qed.

(** C5, counterexample: ZED speaks before AMY, and the record keeps that
    order. *)
Lemma interaction_pair_unsorted :
  let text := lit "INT. HOUSE - DAY" ++ 10%N :: lit "ZED: Hi."
                ++ 10%N :: lit "AMY: Hello." in
  interactions (parseScreenplay text)
    = [mkInteraction (lit "ZED") (lit "AMY") [1] 1]
  /\ ltb (lit "ZED") (lit "AMY") = false.
Proof. vm_compute. split; reflexivity. Qed.

(* ================================================================== *)
(** ** The dialogue lines of a scene record *)
(* ================================================================== *)

(** What the save of the open scene leaves in the saved scenes. *)
Lemma saveScene_aligned (A : list str) (s : loop) :
  numbered s -> aligned A s ->
  Forall (fun sc =>
            map Character_dialogue (entriesOf (sceneNumber sc) (dialogues s))
            = (if sceneNumber sc =? 1 then A else []) ++ sceneDialogueList sc)
    (scenes (saveScene s))
  /\ sceneCount (saveScene s) = S (sceneCount s)
  /\ dialogues (saveScene s) = dialogues s.
Proof.
  intros Hn [A1 A2 A3].
  destruct (currentScene s) as [h|] eqn:Hc; [|now destruct A2].
  destruct (saveScene_open s h Hc (nb_open s Hn h Hc)) as (E & E' & E'' & _).
  rewrite E. split; [|auto]. apply Forall_app. split; auto.
  constructor; [|constructor].
  unfold sceneDialogueList. simpl. rewrite nonempty_or_null_list.
  rewrite Nat.add_1_r in A3. rewrite A3.
  now destruct (sceneCount s).
Qed.

Lemma addDialogue_aligned (A : list str) (i : nat) (c d : str) (s : loop) :
  numbered s -> aligned A s -> aligned A (addDialogue i c d s).
Proof.
  intros Hn [A1 A2 A3].
  pose proof (numbered_scene_le s Hn) as Hle.
  split; simpl; auto.
  - rewrite Forall_forall in *. intros sc Hsc.
    rewrite entriesOf_app. simpl.
    destruct (sceneCount s + 1 =? sceneNumber sc) eqn:E.
    + apply Nat.eqb_eq in E. specialize (Hle sc Hsc). lia.
    + rewrite app_nil_r. auto.
  - rewrite entriesOf_app. simpl. rewrite Nat.eqb_refl.
    rewrite map_app, A3. simpl. now rewrite app_assoc.
Qed.

Lemma addCharacter_aligned (A : list str) (c : str) (s : loop) :
  aligned A s -> aligned A (addCharacter c s).
Proof. intros [A1 A2 A3]. split; auto. Qed.

Lemma step_aligned (A : list str) (i : nat) (line : str) (s : loop) :
  numbered s -> aligned A s -> aligned A (step i line s).
Proof.
  intros Hn H. unfold step.
  destruct (truthy (trim line)); simpl; auto.
  destruct (classify (trim line)).
  - destruct (saveScene_aligned A s Hn H) as (S1 & S2 & S3).
    split; simpl; rewrite ?S2, ?S3; auto; [discriminate|].
    rewrite entriesOf_none; auto.
    eapply Forall_impl; [|apply (nb_dialogues s Hn)]. simpl. lia.
  - destruct (exec false charRe (trim line)) as [m|]; auto.
    match goal with |- aligned _ (if ?b then _ else _) => destruct b end; auto.
    destruct (truthy (trim (grp 2 m)));
      [|now apply addCharacter_aligned].
    apply addDialogue_aligned.
    + now apply addCharacter_numbered.
    + now apply addCharacter_aligned.
  - match goal with |- aligned _ (if ?b then _ else _) => destruct b end;
      auto using addCharacter_aligned.
  - match goal with |- aligned _ (if ?b then _ else _) => destruct b end;
      auto using addCharacter_aligned.
  - destruct H as [A1 A2 A3]. split; auto.
Qed.

Lemma run_aligned (A : list str) (lines : list str) :
  forall i s, numbered s -> aligned A s ->
              numbered (run i lines s) /\ aligned A (run i lines s).
Proof.
  induction lines as [|l r IH]; intros i s Hn Hl; simpl; auto.
  apply IH; [now apply step_numbered | now apply step_aligned].
Qed.

(** The lines are those in front of the first heading, then nothing or a
    heading and the rest. *)
Lemma beforeHeading_split (lines : list str) :
  forallb (fun x => negb (isHeading x)) (beforeHeading lines) = true
  /\ (lines = beforeHeading lines
      \/ exists h rest,
           lines = beforeHeading lines ++ h :: rest /\ isHeading h = true).
Proof.
  induction lines as [|l r [IH1 IH2]]; simpl; [auto|].
  destruct (isHeading l) eqn:E; simpl.
  - split; auto. right. exists l, r. auto.
  - rewrite E. split; auto.
    destruct IH2 as [IH2|(h & rest & IH2 & Hh)].
    + left. now rewrite <- IH2.
    + right. exists h, rest. split; auto. now rewrite <- IH2.
Qed.

(** The first heading opens scene 1 over the entries read before it. *)
Lemma first_heading_aligned (pre : list str) (h : str) :
  forallb (fun x => negb (isHeading x)) pre = true ->
  isHeading h = true ->
  let s := step (length pre) h (run 0 pre init) in
  numbered s
  /\ aligned (map Character_dialogue (dialogueIndex 0 0 pre)) s.
Proof.
  intros Hp Hh. cbv zeta.
  pose proof (run_closed pre 0 init Hp eq_refl) as (E1 & E2 & E3 & _).
  pose proof (run_numbered pre 0 init numbered_init) as Hn.
  pose proof (run_index pre 0 init numbered_init) as Hd.
  change (dialogues init ++ dialogueIndex 0 (headCount init) pre)
    with (dialogueIndex 0 0 pre) in Hd.
  set (s0 := run 0 pre init) in *.
  split; [now apply step_numbered|].
  unfold isHeading in Hh. apply andb_prop in Hh. destruct Hh as [H1 H2].
  unfold step. rewrite H1. cbn [negb].
  destruct (classify (trim h)); try discriminate H2.
  rewrite (saveScene_closed s0 E2).
  split; cbn [scenes dialogues currentScene sceneCount currentSceneDialogues].
  - rewrite E1. constructor.
  - discriminate.
  - rewrite E3, Hd. simpl. rewrite app_nil_r. unfold entriesOf.
    rewrite filter_all; auto.
    eapply Forall_impl; [|apply (dialogueIndex_no_heading pre Hp 0)].
    simpl. intros d ->. reflexivity.
Qed.

(** X8. The scene records and the dialogue index agree: the dialogue
    lines of a scene are the texts of the index entries that carry its
    number, in order; for scene 1, and for scene 1 only, the index holds
    before them the entries of the lines in front of the first heading. *)
Theorem scene_dialogue_in_index (text : str) :
  let a := parseScreenplay text in
  let ahead := dialogueIndex 0 0 (beforeHeading (split 10 text)) in
  Forall (fun sc =>
            map Character_dialogue
              (entriesOf (sceneNumber sc) (a_dialogues a))
            = (if sceneNumber sc =? 1 then map Character_dialogue ahead
               else [])
                ++ sceneDialogueList sc)
    (a_scenes a).
Proof.
  cbv zeta. unfold parseScreenplay, parseLines. cbn [a_scenes a_dialogues].
  set (lines := split 10 text).
  destruct (beforeHeading_split lines) as [Hp [E|(h & rest & E & Hh)]].
  - assert (N : scenes (finish lines) = []).
    { apply (map_eq_nil Scene_Names). rewrite finish_headings.
      apply headings_none. now rewrite E. }
    rewrite N. constructor.
  - set (pre := beforeHeading lines) in *.
    destruct (first_heading_aligned pre h Hp Hh) as [Hn Ha].
    destruct (run_aligned _ rest (S (length pre)) _ Hn Ha) as [Hn' Ha'].
    destruct (saveScene_aligned _ _ Hn' Ha') as (S1 & _ & S3).
    unfold finish. rewrite E, run_app. simpl. rewrite S3. exact S1.
Qed.
